(** * Street-survey collector: capture store, recovery scan and publish pipeline

    A shallow embedding of [storage.js], of [publisher.js] and of the
    recording functions of [app.js].

    - The IndexedDB database is a record of its object stores.  A
      transaction is one function from database to database: either all of
      its requests are applied, or (when a request fails and the error is not
      prevented) none is.
    - The remote content API is outside the repository; it is a small
      server model: a map from paths to files, a few account facts, and a
      script of transport faults.
    - An asynchronous function is a computation over the whole world that
      runs until it settles or awaits a timer or the network, and is then
      resumed; every observable effect (HTTP request, timer, callback) is
      appended to a trace.  [run] lets one computation finish on its own,
      [interleave] lets two of them share the event loop.
    - Byte counts and counters are JavaScript numbers that stay integral and
      far below 2^53, so they are [Z]; times are milliseconds in [Z]. *)

From Stdlib Require Import ZArith Lia DecimalString QArith Qcanon.
From Stdlib Require DecimalZ DecimalPos DecimalFacts.
From stdpp Require Import base option list gmap strings fin_maps numbers sorting.

Local Open Scope string_scope.
Local Open Scope list_scope.
Local Open Scope Z_scope.

(** ** Data model *)

Inductive Status :=
| recording | paused | stopped | publishing | published | partially_published.

#[global] Instance Status_eq_dec : EqDecision Status.
Proof. solve_decision. Defined.

(** A timestamp: milliseconds since the epoch.  The source keeps some of
    them as ISO strings ([toISOString]), which is a change of notation. *)
Definition Time := Z.

Record Settings := {
  captureInterval : Z;
  imageQuality : Qc;
  imageMaxWidth : Z
}.

(** One entry of [findSequenceGaps]. *)
Record Gap := { after : Z; before : Z; missing : Z }.

#[global] Instance Gap_eq_dec : EqDecision Gap.
Proof. solve_decision. Defined.

Record RecoveryInfo := {
  potentialMissedFrames : Z;
  ri_lastCaptureTime : option Time;
  gaps : list Gap
}.

Record Session := {
  s_id : string;
  s_name : string;
  createdAt : Time;
  status : Status;
  captureCount : Z;
  totalBytes : Z;
  avgImageSize : Qc;
  duration : Z;
  startTime : Time;
  lastCaptureTime : option Time;
  s_settings : Settings;
  recoveryInfo : option RecoveryInfo   (* [None]: the property is absent *)
}.

Record GpsFix := {
  lat : Z; lng : Z;        (* fixed point; the code only tests them for zero *)
  accuracy : Z;
  stale : bool
}.

Record Accel := { ax : Z; ay : Z; az : Z }.

(** A [Blob]: its [size], and what reading it gives ([None] when the blob
    is detached and both [arrayBuffer()] and [FileReader] fail). *)
Record Blob := { blob_size : Z; blob_read : option (list N) }.

(** What the capture producer hands to [saveCapture]: a capture without its
    primary key. *)
Record CaptureData := {
  sessionId : string;
  sequenceNum : Z;
  timestamp : Time;
  gps : option GpsFix;
  accel : option Accel;
  imageData : option (list N);      (* an [ArrayBuffer] *)
  imageBlob : option Blob;
  imageSizeBytes : option Z;        (* [None]: undefined *)
  c_published : bool;
  publishedUrl : option string
}.

(** A stored capture: the key generator's value in [id]. *)
Record Capture := { c_id : Z; c_data :> CaptureData }.

Record PublishState := {
  ps_sessionId : string;
  publishStarted : Time;
  totalToUpload : Z;
  ps_completed : Z;
  ps_failed : Z;
  inProgress : bool;
  completedAt : option Time
}.

(** The database: the object stores [sessions] (key path [id]),
    [captures] (auto-increment key [id], kept in key order, with the unique
    index [sessionSequence] on [(sessionId, sequenceNum)]) and
    [publishState] (key path [sessionId]). *)
Record DB := {
  sessions : gmap string Session;
  captures : list Capture;
  nextCaptureId : Z;
  publishStates : gmap string PublishState
}.

(** An [Error] (or DOMException) with its [message]. *)
Record Err := Error { message : string }.

#[global] Instance Err_eq_dec : EqDecision Err.
Proof. solve_decision. Defined.

(** A settled promise: fulfilled with a value or rejected with an error. *)
Inductive Settled (A : Type) :=
| Resolved (a : A)
| Rejected (e : Err).
Arguments Resolved {A} a.
Arguments Rejected {A} e.

(** [String(n)] of an integer. *)
Definition decimal (n : Z) : string := NilZero.string_of_int (Z.to_int n).

(** ** storage.js *)

Module Storage.

Definition set_sessions (f : gmap string Session → gmap string Session) (d : DB) : DB :=
  {| sessions := f (sessions d); captures := captures d;
     nextCaptureId := nextCaptureId d; publishStates := publishStates d |}.

Definition set_captures (f : list Capture → list Capture) (d : DB) : DB :=
  {| sessions := sessions d; captures := f (captures d);
     nextCaptureId := nextCaptureId d; publishStates := publishStates d |}.

Definition set_publishStates (f : gmap string PublishState → gmap string PublishState)
    (d : DB) : DB :=
  {| sessions := sessions d; captures := captures d;
     nextCaptureId := nextCaptureId d; publishStates := f (publishStates d) |}.

(** [getSession]: [store.get(sessionId)]. *)
Definition getSession (sid : string) (d : DB) : option Session := sessions d !! sid.

(** [updateSession]: [store.put(session)], full-record replacement. *)
Definition updateSession (s : Session) (d : DB) : DB :=
  set_sessions (insert (s_id s) s) d.

(** The records of the [sessionId] index under one key, in primary-key
    order: what [index.getAll(sessionId)] and a cursor over
    [IDBKeyRange.only(sessionId)] yield. *)
Definition by_session (sid : string) (cs : list Capture) : list Capture :=
  filter (λ c : Capture, sessionId c = sid) cs.

(** The constraint of the unique index [sessionSequence]. *)
Definition sessionSequence_taken (c : CaptureData) (cs : list Capture) : bool :=
  bool_decide (Exists (λ c' : Capture,
     sessionId c' = sessionId c ∧ sequenceNum c' = sequenceNum c) cs).

(** The statements of [sessionRequest.onsuccess] on a found session. *)
Definition bump_session (now : Time) (c : CaptureData) (s : Session) : Session :=
  let count := captureCount s + 1 in
  let bytes := totalBytes s + default 0 (imageSizeBytes c) in
  {| s_id := s_id s; s_name := s_name s; createdAt := createdAt s;
     status := status s;
     captureCount := count;
     totalBytes := bytes;
     avgImageSize := (Qc_of_Z bytes / Qc_of_Z count)%Qc;
     duration := (now - startTime s) `div` 1000;
     startTime := startTime s;
     lastCaptureTime := Some (timestamp c);
     s_settings := s_settings s;
     recoveryInfo := recoveryInfo s |}.

(** A read-write transaction: the requests of [body] are applied to the
    stores; when one of them fails (and the error event is not prevented,
    as everywhere in this module) the transaction aborts and every write of
    it, key generator included, is rolled back. *)
Definition transaction {A} (body : DB → Settled A * DB) (d : DB) : Settled A * DB :=
  match body d with
  | (Resolved a, d') => (Resolved a, d')
  | (Rejected e, _) => (Rejected e, d)
  end.

(** [capturesStore.add(capture)]: a ConstraintError when the unique index
    is violated, otherwise the record is stored under the next generated
    key, which is the request's result. *)
Definition add_capture (c : CaptureData) (d : DB) : Settled Z * DB :=
  if sessionSequence_taken c (captures d) then
    (Rejected (Error "ConstraintError"), d)
  else
    let key := nextCaptureId d in
    (Resolved key,
     {| sessions := sessions d;
        captures := captures d ++ [ {| c_id := key; c_data := c |} ];
        nextCaptureId := key + 1;
        publishStates := publishStates d |}).

(** [sessionsStore.get(capture.sessionId)] and its [onsuccess] handler. *)
Definition update_stats (now : Time) (c : CaptureData) (d : DB) : DB :=
  match sessions d !! sessionId c with
  | Some s => set_sessions (insert (sessionId c) (bump_session now c s)) d
  | None => d
  end.

(** [saveCapture]: one transaction over [captures] and [sessions]; the
    promise settles with the outcome of the [add] request. *)
Definition saveCapture (now : Time) (c : CaptureData) (d : DB) : Settled Z * DB :=
  transaction (λ d0,
    match add_capture c d0 with
    | (Resolved key, d1) => (Resolved key, update_stats now c d1)
    | (Rejected e, d1) => (Rejected e, d1)
    end) d.

(** Input of [createSession]: [settings.x || default]. *)
Record SettingsInput := {
  in_captureInterval : option Z;
  in_imageQuality : option Qc;
  in_imageMaxWidth : option Z
}.

(** [x || fallback] for a number: a missing value and 0 give the
    fallback. *)
Definition or_number (x : option Z) (fallback : Z) : Z :=
  match x with
  | Some n => if decide (n = 0) then fallback else n
  | None => fallback
  end.

Definition or_fraction (x : option Qc) (fallback : Qc) : Qc :=
  match x with
  | Some q => if decide (q = 0%Qc) then fallback else q
  | None => fallback
  end.

(** [createSession]: the id is [session_<Date.now()>]; [store.add] fails
    when a session with that id is stored already.  [name] is the display
    name after the [name || ...] default. *)
Definition createSession (now : Time) (name : string) (st : SettingsInput) (d : DB)
    : Settled Session * DB :=
  let session :=
    {| s_id := "session_" +:+ decimal now; s_name := name; createdAt := now;
       status := recording; captureCount := 0; totalBytes := 0;
       avgImageSize := 0%Qc; duration := 0; startTime := now;
       lastCaptureTime := None;
       s_settings :=
         {| captureInterval := or_number (in_captureInterval st) 2000;
            imageQuality := or_fraction (in_imageQuality st) (Qc_of_Z 7 / Qc_of_Z 10)%Qc;
            imageMaxWidth := or_number (in_imageMaxWidth st) 1280 |};
       recoveryInfo := None |} in
  transaction (λ d0,
    match sessions d0 !! s_id session with
    | Some _ => (Rejected (Error "ConstraintError"), d0)
    | None => (Resolved session, set_sessions (insert (s_id session) session) d0)
    end) d.

(** [deleteSession]: one read-write transaction over the three stores. *)
Definition deleteSession (sid : string) (d : DB) : DB :=
  {| sessions := delete sid (sessions d);
     captures := filter (λ c : Capture, sessionId c ≠ sid) (captures d);
     nextCaptureId := nextCaptureId d;
     publishStates := delete sid (publishStates d) |}.

(** A stable sort by ascending [sequenceNum]:
    [captures.sort((a, b) => a.sequenceNum - b.sequenceNum)]. *)
Fixpoint insert_by_seq (c : Capture) (l : list Capture) : list Capture :=
  match l with
  | [] => [c]
  | c' :: l' =>
      if decide (sequenceNum c' < sequenceNum c)
      then c' :: insert_by_seq c l'
      else c :: l
  end.

Definition sort_by_seq (l : list Capture) : list Capture :=
  foldr insert_by_seq [] l.

(** [getSessionCaptures] *)
Definition getSessionCaptures (sid : string) (d : DB) : list Capture :=
  sort_by_seq (by_session sid (captures d)).

(** [getUnpublishedCaptures]: the cursor keeps the records with
    [!cursor.value.published]. *)
Definition getUnpublishedCaptures (sid : string) (d : DB) : list Capture :=
  sort_by_seq (filter (λ c : Capture, c_published c = false)
                      (by_session sid (captures d))).

(** [markCapturePublished]: [get], then [put] of the modified record. *)
Definition set_published (url : option string) (c : Capture) : Capture :=
  {| c_id := c_id c;
     c_data :=
       {| sessionId := sessionId c; sequenceNum := sequenceNum c;
          timestamp := timestamp c; gps := gps c; accel := accel c;
          imageData := imageData c; imageBlob := imageBlob c;
          imageSizeBytes := imageSizeBytes c;
          c_published := true; publishedUrl := url |} |}.

Definition markCapturePublished (captureId : Z) (url : option string) (d : DB)
    : Settled Capture * DB :=
  match list_find (λ c : Capture, c_id c = captureId) (captures d) with
  | Some (i, c) =>
      let c' := set_published url c in
      (Resolved c', set_captures (λ cs, <[i := c']> cs) d)
  | None => (Rejected (Error "Capture not found"), d)
  end.

(** [savePublishState]: [store.put(state)]. *)
Definition savePublishState (st : PublishState) (d : DB) : DB :=
  set_publishStates (insert (ps_sessionId st) st) d.

(** [findSequenceGaps]: the loop over [i = 1 .. length - 1] compares
    [captures[i - 1]] with [captures[i]]; here the previous element is carried
    along the list. *)
Fixpoint gaps_after (prev : Capture) (rest : list Capture) : list Gap :=
  match rest with
  | [] => []
  | c :: rest' =>
      let expected := sequenceNum prev + 1 in
      let actual := sequenceNum c in
      (if decide (actual ≠ expected)
       then [ {| after := sequenceNum prev; before := sequenceNum c;
                 missing := actual - expected |} ]
       else [])
      ++ gaps_after c rest'
  end.

Definition findSequenceGaps (captures : list Capture) : list Gap :=
  match captures with
  | [] => []
  | c :: rest => gaps_after c rest
  end.

(** The [sessions] store in key order (keys are compared as strings). *)
Definition key_le (a b : Session) : Prop := String.leb (s_id a) (s_id b) = true.

#[global] Instance key_le_dec : RelDecision key_le.
Proof. intros a b. unfold key_le. apply _. Defined.

Definition sessions_in_key_order (d : DB) : list Session :=
  merge_sort key_le ((map_to_list (sessions d)).*2).

(** [getSessionsByStatus]: one [index.getAll(s)] per status, results
    appended in the order of the requests. *)
Definition getSessionsByStatus (statuses : list Status) (d : DB) : list Session :=
  statuses ≫= λ st, filter (λ s : Session, status s = st) (sessions_in_key_order d).

Definition set_status (st : Status) (s : Session) : Session :=
  {| s_id := s_id s; s_name := s_name s; createdAt := createdAt s;
     status := st;
     captureCount := captureCount s; totalBytes := totalBytes s;
     avgImageSize := avgImageSize s; duration := duration s;
     startTime := startTime s; lastCaptureTime := lastCaptureTime s;
     s_settings := s_settings s; recoveryInfo := recoveryInfo s |}.

Definition set_recoveryInfo (ri : RecoveryInfo) (s : Session) : Session :=
  {| s_id := s_id s; s_name := s_name s; createdAt := createdAt s;
     status := status s;
     captureCount := captureCount s; totalBytes := totalBytes s;
     avgImageSize := avgImageSize s; duration := duration s;
     startTime := startTime s; lastCaptureTime := lastCaptureTime s;
     s_settings := s_settings s; recoveryInfo := Some ri |}.

(** The body of the loop of [checkForRecovery], up to [updateSession]:
    the session object after [recoveryInfo] (when there are gaps) and
    [status] are assigned. *)
Definition recovered (d : DB) (session : Session) : Session :=
  let captures := getSessionCaptures (s_id session) d in
  let gaps := findSequenceGaps captures in
  let session1 :=
    if decide (0 < length gaps)%nat then
      set_recoveryInfo
        {| potentialMissedFrames := foldl (λ sum g, sum + missing g) 0 gaps;
           ri_lastCaptureTime := (λ c : Capture, timestamp c) <$> last captures;
           gaps := gaps |} session
    else session in
  set_status paused session1.

(** [checkForRecovery]: the recovered sessions and the database after the
    [updateSession] calls. *)
Definition checkForRecovery (d : DB) : list Session * DB :=
  foldl (λ acc session,
           let s' := recovered acc.2 session in
           (acc.1 ++ [s'], updateSession s' acc.2))
        ([], d)
        (getSessionsByStatus [recording; publishing] d).

(** [deleteAllSessions]: [clear()] on the three stores in one transaction.
    Clearing a store leaves its key generator where it is. *)
Definition deleteAllSessions (d : DB) : DB :=
  {| sessions := ∅; captures := []; nextCaptureId := nextCaptureId d;
     publishStates := ∅ |}.

(** [getSessionCaptureCount]: [index.count(sessionId)]. *)
Definition getSessionCaptureCount (sid : string) (d : DB) : Z :=
  Z.of_nat (length (by_session sid (captures d))).

(** [getPublishState]: [store.get(sessionId)]. *)
Definition getPublishState (sid : string) (d : DB) : option PublishState :=
  publishStates d !! sid.

End Storage.

(** ** Properties of the store *)

Section StoreFacts.
Import Storage.

(** The bytes a capture contributes to its session: [imageSizeBytes || 0]. *)
Definition bytes_of (c : Capture) : Z := default 0 (imageSizeBytes c).

Definition sum_bytes (cs : list Capture) : Z := foldr (λ c acc, bytes_of c + acc) 0 cs.

(** The aggregate invariant of one session. *)
Definition aggregates_ok (sid : string) (d : DB) : Prop :=
  ∃ s, sessions d !! sid = Some s
     ∧ captureCount s = Z.of_nat (length (by_session sid (captures d)))
     ∧ totalBytes s = sum_bytes (by_session sid (captures d)).

(** A sequence of [saveCapture] calls, each at its own time; rejected calls
    leave the database as it was and the sequence goes on. *)
Definition saveCaptures (ops : list (Time * CaptureData)) (d : DB) : DB :=
  foldl (λ d0 op, (saveCapture op.1 op.2 d0).2) d ops.

Lemma sum_bytes_app l1 l2 : sum_bytes (l1 ++ l2) = sum_bytes l1 + sum_bytes l2.
Proof. unfold sum_bytes. induction l1 as [|c l1 IH]; simpl; lia. Qed.

Lemma by_session_snoc sid cs c :
  by_session sid (cs ++ [c]) =
  by_session sid cs ++ (if decide (sessionId c = sid) then [c] else []).
Proof.
  unfold by_session. by rewrite filter_app.
Qed.

(** What one call does: all of it or nothing. *)
Lemma saveCapture_cases now c d :
  (sessionSequence_taken c (captures d) = true ∧
   saveCapture now c d = (Rejected (Error "ConstraintError"), d))
  ∨
  (sessionSequence_taken c (captures d) = false ∧
   ∃ d', saveCapture now c d = (Resolved (nextCaptureId d), d') ∧
     captures d' = captures d ++ [ {| c_id := nextCaptureId d; c_data := c |} ] ∧
     nextCaptureId d' = nextCaptureId d + 1 ∧
     publishStates d' = publishStates d ∧
     sessions d' =
       match sessions d !! sessionId c with
       | Some s => <[sessionId c := bump_session now c s]> (sessions d)
       | None => sessions d
       end).
Proof.
  unfold saveCapture, transaction, add_capture.
  destruct (sessionSequence_taken c (captures d)) eqn:Htaken.
  - left. split; reflexivity.
  - right. split; [reflexivity|]. eexists. split; [reflexivity|].
    unfold update_stats; simpl.
    destruct (sessions d !! sessionId c); simpl; repeat split; reflexivity.
Qed.

Lemma saveCapture_aggregates sid now c d :
  aggregates_ok sid d → aggregates_ok sid (saveCapture now c d).2.
Proof.
  intros Hok. pose proof Hok as (s & Hs & Hcount & Hbytes).
  destruct (saveCapture_cases now c d) as [[_ ->]|[_ (d' & -> & Hc & _ & _ & Hsess)]];
    simpl; [exact Hok|].
  unfold aggregates_ok. rewrite Hc, Hsess, by_session_snoc.
  simpl. case_decide as Heq.
  - rewrite Heq, Hs, lookup_insert_eq. eexists; split; [reflexivity|].
    simpl. rewrite length_app, sum_bytes_app, Hcount, Hbytes. simpl.
    unfold bytes_of; simpl. split; lia.
  - exists s. rewrite app_nil_r.
    destruct (sessions d !! sessionId c); [rewrite lookup_insert_ne by done|]; done.
Qed.

(** C1. Starting from a database where a session's [captureCount] and
    [totalBytes] agree with its stored captures, they still agree after
    any sequence of [saveCapture] calls: [captureCount] is the number of
    stored captures with that [sessionId] and [totalBytes] the sum of their
    [imageSizeBytes].  Every call is one transaction: it is rejected and
    changes nothing, or it resolves with the capture inserted and the
    owning session's aggregates rewritten together.  A session just created
    in a database that holds no capture under its id starts in agreement
    (both are 0). *)
Theorem saveCapture_aggregates_invariant (sid : string) (d : DB)
    (ops : list (Time * CaptureData)) :
  aggregates_ok sid d →
  aggregates_ok sid (saveCaptures ops d) ∧
  (∀ now c d0,
    match saveCapture now c d0 with
    | (Rejected _, d1) => d1 = d0
    | (Resolved key, d1) =>
        captures d1 = captures d0 ++ [ {| c_id := key; c_data := c |} ] ∧
        ∀ s, sessions d0 !! sessionId c = Some s →
          sessions d1 !! sessionId c = Some (bump_session now c s) ∧
          captureCount (bump_session now c s) = captureCount s + 1 ∧
          totalBytes (bump_session now c s) = totalBytes s + default 0 (imageSizeBytes c)
    end) ∧
  (∀ now name st d0 s d1,
     createSession now name st d0 = (Resolved s, d1) →
     by_session (s_id s) (captures d0) = [] →
     aggregates_ok (s_id s) d1).
Proof.
  intros Hok. split_and!.
  - revert d Hok. unfold saveCaptures.
    induction ops as [|[now c] ops IH]; intros d Hok; simpl; [done|].
    apply IH. by apply saveCapture_aggregates.
  - intros now c d0.
    destruct (saveCapture_cases now c d0) as [[_ ->]|[_ (d' & -> & Hc & _ & _ & Hsess)]];
      [done|].
    split; [done|]. intros s Hs. rewrite Hsess, Hs, lookup_insert_eq. done.
  - intros now name st d0 s d1 Hcreate Hnone.
    unfold createSession, transaction in Hcreate. cbn [s_id] in Hcreate.
    destruct (sessions d0 !! _) eqn:Hfree in Hcreate; [done|].
    injection Hcreate as <- <-. eexists. cbn [sessions set_sessions captures s_id].
    rewrite lookup_insert_eq. split; [done|]. cbn [s_id] in Hnone. by rewrite Hnone.
Qed.

(** C10. A capture whose [sessionId] matches no stored session is saved
    all the same: when the unique index admits it, [saveCapture] resolves
    with the generated key, the capture is in the store, and no session
    record is written. *)
Theorem saveCapture_orphan (now : Time) (c : CaptureData) (d : DB) :
  sessions d !! sessionId c = None →
  sessionSequence_taken c (captures d) = false →
  ∃ d', saveCapture now c d = (Resolved (nextCaptureId d), d') ∧
    captures d' = captures d ++ [ {| c_id := nextCaptureId d; c_data := c |} ] ∧
    sessions d' = sessions d ∧
    sessions d' !! sessionId c = None.
Proof.
  intros Hnone Hfree.
  destruct (saveCapture_cases now c d) as [[Ht _]|[_ (d' & Hsave & Hc & _ & _ & Hsess)]];
    [congruence|].
  exists d'. rewrite Hnone in Hsess. rewrite Hsess. done.
Qed.

(** C9. [deleteSession] removes, in its one transaction, the session
    record, every capture with that [sessionId] and the publish-state
    record of that key; the other records of the three stores stay. *)
Theorem deleteSession_cascade (sid : string) (d : DB) :
  let d' := deleteSession sid d in
  sessions d' !! sid = None ∧
  (∀ c : Capture, c ∈ captures d' → sessionId c ≠ sid) ∧
  by_session sid (captures d') = [] ∧
  publishStates d' !! sid = None ∧
  (∀ k, k ≠ sid → sessions d' !! k = sessions d !! k) ∧
  (∀ k, k ≠ sid → publishStates d' !! k = publishStates d !! k) ∧
  (∀ c : Capture, sessionId c ≠ sid → c ∈ captures d' ↔ c ∈ captures d).
Proof.
  simpl. split_and!.
  - apply lookup_delete_eq.
  - intros c Hc. by apply list_elem_of_filter in Hc as [Hne _].
  - unfold by_session. rewrite list_filter_filter.
    induction (captures d) as [|c cs IH]; [done|].
    rewrite filter_cons. case_decide as Hboth; [by destruct Hboth|done].
  - apply lookup_delete_eq.
  - intros k Hk. by apply lookup_delete_ne.
  - intros k Hk. by apply lookup_delete_ne.
  - intros c Hc. rewrite list_elem_of_filter. tauto.
Qed.

End StoreFacts.

(** ** Ordering by sequence number *)

Section SortFacts.
Import Storage.

Definition seq_le (a b : Capture) : Prop := sequenceNum a ≤ sequenceNum b.

#[local] Instance seq_le_trans : Transitive seq_le.
Proof. unfold seq_le. intros a b c; lia. Qed.

Lemma insert_by_seq_perm c l : insert_by_seq c l ≡ₚ c :: l.
Proof.
  induction l as [|c' l IH]; simpl; [done|].
  case_decide; [|done]. rewrite IH. apply Permutation_swap.
Qed.

Lemma insert_by_seq_sorted c l :
  StronglySorted seq_le l → StronglySorted seq_le (insert_by_seq c l).
Proof.
  induction 1 as [|c' l Hs IH Hall]; simpl; [repeat constructor|].
  case_decide as Hlt.
  - constructor; [done|]. rewrite insert_by_seq_perm.
    constructor; [unfold seq_le; lia|done].
  - constructor; [by constructor|].
    assert (seq_le c c') as Hcc' by (unfold seq_le; lia).
    constructor; [done|]. eapply Forall_impl; [exact Hall|].
    intros x Hx. by etrans.
Qed.

Lemma sort_by_seq_perm l : sort_by_seq l ≡ₚ l.
Proof.
  induction l as [|c l IH]; simpl; [done|].
  by rewrite insert_by_seq_perm, IH.
Qed.

Lemma sort_by_seq_sorted l : StronglySorted seq_le (sort_by_seq l).
Proof.
  induction l as [|c l IH]; simpl; [constructor|]. by apply insert_by_seq_sorted.
Qed.

Lemma elem_of_sort_by_seq c l : c ∈ sort_by_seq l ↔ c ∈ l.
Proof. by rewrite sort_by_seq_perm. Qed.

(** A gap is recorded for exactly the adjacent pairs that do not
    continue the numbering. *)
Definition gap_between (a b : Capture) : Gap :=
  {| after := sequenceNum a; before := sequenceNum b;
     missing := sequenceNum b - sequenceNum a - 1 |}.

Lemma elem_of_gaps_after prev rest g :
  g ∈ gaps_after prev rest ↔
  ∃ (i : nat) (a b : Capture), (prev :: rest) !! i = Some a ∧ (prev :: rest) !! S i = Some b ∧
    sequenceNum b ≠ sequenceNum a + 1 ∧ g = gap_between a b.
Proof.
  revert prev. induction rest as [|c rest IH]; intros prev; simpl.
  - split; [by intros ?%elem_of_nil|]. by intros (i & a & b & _ & Hb & _).
  - rewrite elem_of_app, IH. split.
    + intros [Hg|(i & a & b & Ha & Hb & Hne & ->)].
      * case_decide as Hne; [|by apply elem_of_nil in Hg].
        apply list_elem_of_singleton in Hg as ->.
        exists 0%nat, prev, c. repeat split; [done|]. unfold gap_between. f_equal; lia.
      * exists (S i), a, b. done.
    + intros (i & a & b & Ha & Hb & Hne & ->). destruct i as [|i]; simpl in *.
      * left. simplify_eq. rewrite decide_True by done.
        apply list_elem_of_singleton. unfold gap_between. f_equal; lia.
      * right. exists i, a, b. done.
Qed.

Lemma elem_of_findSequenceGaps cs g :
  g ∈ findSequenceGaps cs ↔
  ∃ (i : nat) (a b : Capture), cs !! i = Some a ∧ cs !! S i = Some b ∧
    sequenceNum b ≠ sequenceNum a + 1 ∧ g = gap_between a b.
Proof.
  destruct cs as [|c cs]; simpl; [|apply elem_of_gaps_after].
  split; [by intros ?%elem_of_nil|]. by intros (i & a & b & Ha & _).
Qed.

End SortFacts.

(** ** The recovery scan *)

Section RecoveryFacts.
Import Storage.

(** Every record of [sessions] is stored under its own [id] (the store's
    key path). *)
Definition keyed (d : DB) : Prop := ∀ k s, sessions d !! k = Some s → s_id s = k.

Definition sum_missing (gs : list Gap) : Z := foldl (λ sum g, sum + missing g) 0 gs.

Lemma elem_of_sessions_in_key_order d s :
  s ∈ sessions_in_key_order d ↔ ∃ k, sessions d !! k = Some s.
Proof.
  unfold sessions_in_key_order. rewrite merge_sort_Permutation, list_elem_of_fmap.
  split.
  - intros ([k s'] & -> & Hin). exists k. by apply elem_of_map_to_list.
  - intros (k & Hk). exists (k, s). split; [done|]. by apply elem_of_map_to_list.
Qed.

Lemma elem_of_getSessionsByStatus sts d s :
  s ∈ getSessionsByStatus sts d ↔ (∃ k, sessions d !! k = Some s) ∧ status s ∈ sts.
Proof.
  unfold getSessionsByStatus. rewrite list_elem_of_bind. split.
  - intros (st & Hin & Hst). apply list_elem_of_filter in Hin as [<- Hin].
    split; [|done]. by apply elem_of_sessions_in_key_order.
  - intros [Hk Hst]. exists (status s). split; [|done].
    apply list_elem_of_filter. split; [done|]. by apply elem_of_sessions_in_key_order.
Qed.

Lemma recovered_captures d d' s : captures d' = captures d → recovered d' s = recovered d s.
Proof. intros Hc. unfold recovered, getSessionCaptures. by rewrite Hc. Qed.

Lemma s_id_recovered d s : s_id (recovered d s) = s_id s.
Proof. unfold recovered. by case_decide. Qed.

(** The loop of [checkForRecovery] only writes [sessions], so every
    iteration sees the captures of the initial database. *)
Lemma checkForRecovery_loop d l acc d0 :
  captures d0 = captures d →
  foldl (λ acc session,
           let s' := recovered acc.2 session in
           (acc.1 ++ [s'], updateSession s' acc.2)) (acc, d0) l
  = (acc ++ (recovered d <$> l),
     foldl (λ d1 session, updateSession (recovered d session) d1) d0 l).
Proof.
  revert acc d0. induction l as [|x l IH]; intros acc d0 Hc; simpl.
  - by rewrite app_nil_r.
  - rewrite IH by done. rewrite (recovered_captures d d0) by done.
    by rewrite <- app_assoc.
Qed.

Lemma lookup_recovered_loop d l d0 s :
  (∀ x, x ∈ l → s_id x = s_id s → x = s) → s ∈ l →
  sessions (foldl (λ d1 session, updateSession (recovered d session) d1) d0 l)
    !! s_id s = Some (recovered d s).
Proof.
  revert d0. induction l as [|x l IH] using rev_ind; intros d0 Huniq Hin.
  - by apply elem_of_nil in Hin.
  - rewrite foldl_app. cbn [foldl]. unfold updateSession at 1, set_sessions.
    cbn [sessions]. rewrite s_id_recovered.
    destruct (decide (s_id x = s_id s)) as [Heq|Hne].
    + rewrite (Huniq x) by (done || (apply elem_of_app; right; by left)).
      apply lookup_insert_eq.
    + rewrite lookup_insert_ne by done. apply IH.
      * intros y Hy. apply Huniq. apply elem_of_app. by left.
      * apply elem_of_app in Hin as [Hin|Hin]; [done|].
        apply list_elem_of_singleton in Hin. by subst.
Qed.

(** C6 (as amended). For every stored session whose status is
    [recording] or [publishing], the scan loads its captures in ascending
    [sequenceNum] order, records one gap [{after, before, missing}] with
    [missing = before - after - 1] for each adjacent pair that does not
    continue the numbering, sets the status to [paused], persists the
    session and returns it.  [recoveryInfo] (sum of the gap sizes, time of
    the last capture, the gaps) is attached when there is at least one gap;
    without gaps the session keeps the [recoveryInfo] it had.  The
    sequence 1, 2, 4, 5 gives the one gap [{after: 2, before: 4,
    missing: 1}]. *)
Theorem checkForRecovery_active_session (d : DB) (s : Session) :
  keyed d →
  sessions d !! s_id s = Some s →
  status s = recording ∨ status s = publishing →
  let cs := getSessionCaptures (s_id s) d in
  let gs := findSequenceGaps cs in
  let s' := recovered d s in
  StronglySorted seq_le cs ∧
  cs ≡ₚ by_session (s_id s) (captures d) ∧
  (∀ g, g ∈ gs ↔
     ∃ (i : nat) (a b : Capture), cs !! i = Some a ∧ cs !! S i = Some b ∧
       sequenceNum b ≠ sequenceNum a + 1 ∧
       g = {| after := sequenceNum a; before := sequenceNum b;
              missing := sequenceNum b - sequenceNum a - 1 |}) ∧
  status s' = paused ∧
  recoveryInfo s' =
    (match gs with
     | [] => recoveryInfo s
     | _ :: _ =>
         Some {| potentialMissedFrames := sum_missing gs;
                 ri_lastCaptureTime := (λ c : Capture, timestamp c) <$> last cs;
                 gaps := gs |}
     end) ∧
  s' ∈ (checkForRecovery d).1 ∧
  sessions (checkForRecovery d).2 !! s_id s = Some s' ∧
  (∀ l : list Capture,
     (λ c : Capture, sequenceNum c) <$> l = [1; 2; 4; 5] →
     findSequenceGaps l = [ {| after := 2; before := 4; missing := 1 |} ]).
Proof.
  intros Hkeyed Hs Hstatus cs gs s'.
  assert (s ∈ getSessionsByStatus [recording; publishing] d) as Hin.
  { apply elem_of_getSessionsByStatus. split; [by eexists|].
    destruct Hstatus as [-> | ->]; set_solver. }
  unfold checkForRecovery. rewrite (checkForRecovery_loop d) by done.
  cbn [fst snd app]. split_and!.
  - apply sort_by_seq_sorted.
  - apply sort_by_seq_perm.
  - intros g. apply elem_of_findSequenceGaps.
  - reflexivity.
  - unfold s', recovered. fold cs. fold gs.
    destruct gs as [|g gs']; simpl; [done|]. reflexivity.
  - apply list_elem_of_fmap. by exists s.
  - apply lookup_recovered_loop; [|done].
    intros x Hx Hid. apply elem_of_getSessionsByStatus in Hx as [[k Hk] _].
    pose proof (Hkeyed _ _ Hk) as Hkx. congruence.
  - intros l Hl.
    destruct l as [|c1 [|c2 [|c3 [|c4 [|c5 l]]]]]; simplify_eq/=.
    repeat case_decide; try lia; try done.
    all: repeat match goal with H : sequenceNum _ = _ |- _ => rewrite H end; done.
Qed.

End RecoveryFacts.

(** ** The remote content API *)

Record Config := {
  token : string;
  repo : string;
  branch : option string;
  contributor : option string
}.

(** File contents are kept symbolically: what matters below is which
    document was written where, not its bytes. *)
Inductive Content :=
| ImageBase64 (payload : list N)                       (* [btoa] of the image bytes *)
| CsvDocument (rows : list Capture)                    (* [generateCSV(captures)] *)
| MetadataDocument (sid : string) (totalCaptures publishedCaptures failedCaptures : Z)
| CoverageIndex (features : list (string * Z)).        (* session id, image count *)

Record RemoteFile := { sha : N; content : Content }.

Inductive Request :=
| GetUser
| GetRepo
| GetRateLimit
| GetContents (path : string)
| PutContents (path : string) (body : Content) (body_sha : option N)
| GetRawIndex.

Inductive Body :=
| UserBody (login : string)
| RepoBody (push : bool)                  (* [permissions?.push] *)
| RateLimitBody (remaining limit reset : Z)
| FileBody (file_sha : N) (download_url : string)
| WrittenBody (download_url : string) (file_sha : N) (path : string)
| IndexBody (features : list (string * Z))
| MessageBody (msg : option string).      (* the error document [{message}] *)

Record Response := { r_status : Z; r_body : Body }.

(** [response.ok] *)
Definition r_ok (r : Response) : bool := (200 <=? r_status r) && (r_status r <=? 299).

(** What the transport does to the next request: nothing, a failure of
    [fetch] itself, or an error status with a message. *)
Inductive Fault :=
| NoFault
| NetworkError (msg : string)
| HttpError (status : Z) (msg : option string).

Record Remote := {
  files : gmap string RemoteFile;
  next_sha : N;
  token_valid : bool;
  user_login : string;
  repo_visible : bool;
  can_push : bool;
  rate_remaining : Z;
  rate_limit : Z;
  rate_reset : Z;
  faults : list Fault;      (* consumed one per request; empty: no fault *)
  latency : Z               (* ms between a request and its response *)
}.

Definition raw_url (path : string) : string :=
  "https://raw.githubusercontent.com/" +:+ path.

Definition set_files (f : gmap string RemoteFile) (n : N) (r : Remote) : Remote :=
  {| files := f; next_sha := n; token_valid := token_valid r;
     user_login := user_login r; repo_visible := repo_visible r;
     can_push := can_push r; rate_remaining := rate_remaining r;
     rate_limit := rate_limit r; rate_reset := rate_reset r;
     faults := faults r; latency := latency r |}.

Definition set_faults (fs : list Fault) (r : Remote) : Remote :=
  {| files := files r; next_sha := next_sha r; token_valid := token_valid r;
     user_login := user_login r; repo_visible := repo_visible r;
     can_push := can_push r; rate_remaining := rate_remaining r;
     rate_limit := rate_limit r; rate_reset := rate_reset r;
     faults := fs; latency := latency r |}.

(** The server when the transport does not interfere.  A write to an
    existing path needs the current [sha] (422 without one, 409 with a
    wrong one); a successful write stores the content under a fresh [sha]. *)
Definition serve (q : Request) (r : Remote) : Response * Remote :=
  match q with
  | GetUser =>
      if token_valid r then ({| r_status := 200; r_body := UserBody (user_login r) |}, r)
      else ({| r_status := 401; r_body := MessageBody (Some "Bad credentials") |}, r)
  | GetRepo =>
      if token_valid r && repo_visible r
      then ({| r_status := 200; r_body := RepoBody (can_push r) |}, r)
      else ({| r_status := 404; r_body := MessageBody (Some "Not Found") |}, r)
  | GetRateLimit =>
      ({| r_status := 200;
          r_body := RateLimitBody (rate_remaining r) (rate_limit r) (rate_reset r) |}, r)
  | GetContents path =>
      match files r !! path with
      | Some f => ({| r_status := 200; r_body := FileBody (sha f) (raw_url path) |}, r)
      | None => ({| r_status := 404; r_body := MessageBody (Some "Not Found") |}, r)
      end
  | PutContents path body given =>
      let write status :=
        ({| r_status := status;
            r_body := WrittenBody (raw_url path) (next_sha r) path |},
         set_files (<[path := {| sha := next_sha r; content := body |}]> (files r))
                   (N.succ (next_sha r)) r) in
      match files r !! path, given with
      | None, _ => write 201
      | Some f, None =>
          ({| r_status := 422;
              r_body := MessageBody (Some "Invalid request. sha wasn't supplied.") |}, r)
      | Some f, Some s =>
          if decide (s = sha f) then write 200
          else ({| r_status := 409;
                   r_body := MessageBody (Some (path +:+ " does not match")) |}, r)
      end
  | GetRawIndex =>
      match files r !! "coverage-index.geojson" with
      | Some {| content := CoverageIndex fs |} =>
          ({| r_status := 200; r_body := IndexBody fs |}, r)
      | _ => ({| r_status := 404; r_body := MessageBody None |}, r)
      end
  end.

(** ** The publisher's world *)

(** [publisherState].  The three callbacks are external; only whether one
    is registered matters here. *)
Record PublisherState := {
  isPublishing : bool;
  isPaused : bool;
  isProcessing : bool;
  currentSession : option Session;
  config : option Config;
  queue : list Capture;
  completed : Z;
  failed : Z;
  total : Z;
  p_startTime : option Time;
  onProgress : bool;
  onComplete : bool;
  onError : bool
}.

(** What [uploadImage] returns. *)
Record UploadResult := { url : option string; skipped : bool }.

(** Observable effects, in the order they happen. *)
Inductive Event :=
| EFetch (q : Request)                                  (* a request is sent *)
| EDelay (ms : Z)                                       (* [delay(ms)] *)
| EWaitOnline                                           (* [waitForOnline()] while offline *)
| EAttemptFailed (attempt maxRetries : Z) (e : Err)     (* the [debugError] of a failed attempt *)
| EProgress (running : bool) (status : option string)   (* [onProgress(progress)] *)
| EComplete (completed failed total : Z)                (* [onComplete({...})] *)
| EError (e : Err) (item : option Capture).             (* [onError(error, capture)] *)

Record World := {
  db : DB;
  remote : Remote;
  pub : PublisherState;
  trace : list Event;
  clock : Time;             (* [Date.now()] *)
  online : bool;            (* [navigator.onLine] *)
  reconnect_after : Z       (* ms until the [online] event, when offline *)
}.

Definition with_db (f : DB → DB) (w : World) : World :=
  {| db := f (db w); remote := remote w; pub := pub w; trace := trace w;
     clock := clock w; online := online w; reconnect_after := reconnect_after w |}.

Definition with_remote (f : Remote → Remote) (w : World) : World :=
  {| db := db w; remote := f (remote w); pub := pub w; trace := trace w;
     clock := clock w; online := online w; reconnect_after := reconnect_after w |}.

Definition with_pub (f : PublisherState → PublisherState) (w : World) : World :=
  {| db := db w; remote := remote w; pub := f (pub w); trace := trace w;
     clock := clock w; online := online w; reconnect_after := reconnect_after w |}.

Definition log (ev : Event) (w : World) : World :=
  {| db := db w; remote := remote w; pub := pub w; trace := trace w ++ [ev];
     clock := clock w; online := online w; reconnect_after := reconnect_after w |}.

(** [ms] milliseconds pass. *)
Definition elapse (ms : Z) (w : World) : World :=
  {| db := db w; remote := remote w; pub := pub w; trace := trace w;
     clock := clock w + ms; online := online w; reconnect_after := reconnect_after w |}.

Definition go_online (w : World) : World :=
  {| db := db w; remote := remote w; pub := pub w; trace := trace w;
     clock := clock w; online := true; reconnect_after := reconnect_after w |}.

(** ** Asynchronous computations

    An [async] function runs until it settles or until it awaits a timer or
    the network; then it is suspended with the time it needs and its
    continuation, which is resumed on the world as it is by then. *)
Inductive Step (A : Type) :=
| Done (a : A) (w : World)
| Throw (e : Err) (w : World)
| Await (ms : Z) (w : World) (k : World → Step A).
Arguments Done {A} a w.
Arguments Throw {A} e w.
Arguments Await {A} ms w k.

Definition M (A : Type) := World → Step A.

Definition ret {A} (a : A) : M A := λ w, Done a w.
Definition throw {A} (e : Err) : M A := λ w, Throw e w.

Fixpoint bind_step {A B} (s : Step A) (f : A → M B) : Step B :=
  match s with
  | Done a w => f a w
  | Throw e w => Throw e w
  | Await ms w k => Await ms w (λ w', bind_step (k w') f)
  end.

Definition bind {A B} (m : M A) (f : A → M B) : M B := λ w, bind_step (m w) f.

(** [try { m } catch (e) { h e }] *)
Fixpoint catch_step {A} (s : Step A) (h : Err → M A) : Step A :=
  match s with
  | Done a w => Done a w
  | Throw e w => h e w
  | Await ms w k => Await ms w (λ w', catch_step (k w') h)
  end.

Definition try_catch {A} (m : M A) (h : Err → M A) : M A := λ w, catch_step (m w) h.

(** [try { m } finally { fin }], for a [fin] that only assigns. *)
Fixpoint finally_step {A} (s : Step A) (fin : World → World) : Step A :=
  match s with
  | Done a w => Done a (fin w)
  | Throw e w => Throw e (fin w)
  | Await ms w k => Await ms w (λ w', finally_step (k w') fin)
  end.

Definition try_finally {A} (m : M A) (fin : World → World) : M A :=
  λ w, finally_step (m w) fin.

Notation "'let*' x ':=' m 'in' f" := (bind m (λ x, f))
  (at level 10, x name, m at level 100, f at level 200).

Definition gets {A} (f : World → A) : M A := λ w, Done (f w) w.
Definition modify (f : World → World) : M unit := λ w, Done tt (f w).
Definition emit (ev : Event) : M unit := modify (log ev).

(** [delay(ms)]: a timer. *)
Definition delay (ms : Z) : M unit :=
  λ w, Await ms (log (EDelay ms) w) (λ w', Done tt w').

(** [waitForOnline()] *)
Definition waitForOnline : M unit :=
  λ w, if online w then Done tt w
       else Await (reconnect_after w) (log EWaitOnline w) (λ w', Done tt (go_online w')).

(** [fetch]: the request leaves, the response (or the failure) arrives
    [latency] later.  The head of the fault script decides what the
    transport does. *)
Definition respond (q : Request) (w : World) : Step Response :=
  match faults (remote w) with
  | NetworkError msg :: fs => Throw (Error msg) (with_remote (set_faults fs) w)
  | HttpError st msg :: fs =>
      Done {| r_status := st; r_body := MessageBody msg |} (with_remote (set_faults fs) w)
  | NoFault :: fs =>
      let '(r, rem) := serve q (set_faults fs (remote w)) in
      Done r (with_remote (λ _, rem) w)
  | [] =>
      let '(r, rem) := serve q (remote w) in
      Done r (with_remote (λ _, rem) w)
  end.

Definition fetch (q : Request) : M Response :=
  λ w, Await (latency (remote w)) (log (EFetch q) w) (respond q).

Arguments bind : simpl never.
Arguments try_catch : simpl never.
Arguments try_finally : simpl never.
Arguments fetch : simpl never.

(** Running a computation on its own, with nothing else scheduled: every
    wait just passes. *)
Fixpoint run {A} (s : Step A) : Settled A * World :=
  match s with
  | Done a w => (Resolved a, w)
  | Throw e w => (Rejected e, w)
  | Await ms w k => run (k (elapse ms w))
  end.

Section RunLaws.
Context {A B : Type}.

Lemma run_bind_step (s : Step A) (f : A → M B) :
  run (bind_step s f) =
  match run s with
  | (Resolved a, w') => run (f a w')
  | (Rejected e, w') => (Rejected e, w')
  end.
Proof. induction s as [a w|e w|ms w k IH]; simpl; [by destruct (run (f a w))|done|apply IH]. Qed.

Lemma run_bind (m : M A) (f : A → M B) w :
  run (bind m f w) =
  match run (m w) with
  | (Resolved a, w') => run (f a w')
  | (Rejected e, w') => (Rejected e, w')
  end.
Proof. apply run_bind_step. Qed.

Lemma run_catch_step (s : Step A) (h : Err → M A) :
  run (catch_step s h) =
  match run s with
  | (Resolved a, w') => (Resolved a, w')
  | (Rejected e, w') => run (h e w')
  end.
Proof. induction s as [a w|e w|ms w k IH]; simpl; [done|by destruct (run (h e w))|apply IH]. Qed.

Lemma run_try_catch (m : M A) (h : Err → M A) w :
  run (try_catch m h w) =
  match run (m w) with
  | (Resolved a, w') => (Resolved a, w')
  | (Rejected e, w') => run (h e w')
  end.
Proof. apply run_catch_step. Qed.

Lemma run_finally_step (s : Step A) (fin : World → World) :
  run (finally_step s fin) = ((run s).1, fin (run s).2).
Proof. induction s as [a w|e w|ms w k IH]; simpl; [done|done|apply IH]. Qed.

End RunLaws.

(** ** publisher.js *)

Module Publisher.

(** *** Strings *)

(** [s.includes(sub)] *)
Fixpoint includes (s sub : string) : bool :=
  String.prefix sub s ||
  match s with
  | EmptyString => false
  | String _ s' => includes s' sub
  end.

Definition newline : string := String (Ascii.ascii_of_nat 10) EmptyString.

(** [s.padStart(n, '0')] *)
Definition padStart (n : nat) (s : string) : string :=
  String.concat EmptyString (replicate (n - String.length s) "0") +:+ s.

(** [message || fallback] on an optional string. *)
Definition or_else (m : option string) (fallback : string) : string :=
  match m with
  | Some s => if decide (s = EmptyString) then fallback else s
  | None => fallback
  end.

(** [Date.prototype.toLocaleTimeString]: how a time of day is written is
    the locale's. *)
Class Locale := toLocaleTimeString : Time → string.

(** *** Assignments to [publisherState] *)

Definition set_isPublishing (b : bool) (p : PublisherState) : PublisherState :=
  {| isPublishing := b; isPaused := isPaused p; isProcessing := isProcessing p;
     currentSession := currentSession p; config := config p; queue := queue p;
     completed := completed p; failed := failed p; total := total p;
     p_startTime := p_startTime p; onProgress := onProgress p;
     onComplete := onComplete p; onError := onError p |}.

Definition set_isPaused (b : bool) (p : PublisherState) : PublisherState :=
  {| isPublishing := isPublishing p; isPaused := b; isProcessing := isProcessing p;
     currentSession := currentSession p; config := config p; queue := queue p;
     completed := completed p; failed := failed p; total := total p;
     p_startTime := p_startTime p; onProgress := onProgress p;
     onComplete := onComplete p; onError := onError p |}.

Definition set_isProcessing (b : bool) (p : PublisherState) : PublisherState :=
  {| isPublishing := isPublishing p; isPaused := isPaused p; isProcessing := b;
     currentSession := currentSession p; config := config p; queue := queue p;
     completed := completed p; failed := failed p; total := total p;
     p_startTime := p_startTime p; onProgress := onProgress p;
     onComplete := onComplete p; onError := onError p |}.

Definition set_currentSession (s : option Session) (p : PublisherState) : PublisherState :=
  {| isPublishing := isPublishing p; isPaused := isPaused p;
     isProcessing := isProcessing p;
     currentSession := s; config := config p; queue := queue p;
     completed := completed p; failed := failed p; total := total p;
     p_startTime := p_startTime p; onProgress := onProgress p;
     onComplete := onComplete p; onError := onError p |}.

Definition set_config (c : option Config) (p : PublisherState) : PublisherState :=
  {| isPublishing := isPublishing p; isPaused := isPaused p;
     isProcessing := isProcessing p;
     currentSession := currentSession p; config := c; queue := queue p;
     completed := completed p; failed := failed p; total := total p;
     p_startTime := p_startTime p; onProgress := onProgress p;
     onComplete := onComplete p; onError := onError p |}.

Definition set_queue (q : list Capture) (p : PublisherState) : PublisherState :=
  {| isPublishing := isPublishing p; isPaused := isPaused p;
     isProcessing := isProcessing p;
     currentSession := currentSession p; config := config p; queue := q;
     completed := completed p; failed := failed p; total := total p;
     p_startTime := p_startTime p; onProgress := onProgress p;
     onComplete := onComplete p; onError := onError p |}.

Definition set_completed (n : Z) (p : PublisherState) : PublisherState :=
  {| isPublishing := isPublishing p; isPaused := isPaused p;
     isProcessing := isProcessing p;
     currentSession := currentSession p; config := config p; queue := queue p;
     completed := n; failed := failed p; total := total p;
     p_startTime := p_startTime p; onProgress := onProgress p;
     onComplete := onComplete p; onError := onError p |}.

Definition set_failed (n : Z) (p : PublisherState) : PublisherState :=
  {| isPublishing := isPublishing p; isPaused := isPaused p;
     isProcessing := isProcessing p;
     currentSession := currentSession p; config := config p; queue := queue p;
     completed := completed p; failed := n; total := total p;
     p_startTime := p_startTime p; onProgress := onProgress p;
     onComplete := onComplete p; onError := onError p |}.

(** *** Storage calls as asynchronous steps *)

Definition getSession (sid : string) : M (option Session) :=
  gets (λ w, Storage.getSession sid (db w)).

Definition updateSession (s : Session) : M unit :=
  modify (with_db (Storage.updateSession s)).

Definition savePublishState (st : PublishState) : M unit :=
  modify (with_db (Storage.savePublishState st)).

Definition markCapturePublished (captureId : Z) (u : option string) : M Capture :=
  λ w, match Storage.markCapturePublished captureId u (db w) with
       | (Resolved c, d) => Done c (with_db (λ _, d) w)
       | (Rejected e, _) => Throw e w
       end.

(** *** Progress *)

(** [reportProgress(status)]: [getPublishProgress()] is [null] when no job
    is running, and assigning [status] on it then throws. *)
Definition reportProgress (st : option string) : M unit :=
  let* p := gets pub in
  if onProgress p then
    if isPublishing p then emit (EProgress true st)
    else match st with
         | Some _ => throw (Error "Cannot set properties of null (setting 'status')")
         | None => emit (EProgress false None)
         end
  else ret tt.

(** *** Remote API helpers *)

Record Validation := {
  valid : bool;
  errors : list string;
  v_user : option string;
  v_remaining : option Z
}.

Definition invalid (reason : string) : Validation :=
  {| valid := false; errors := [reason]; v_user := None; v_remaining := None |}.

Section WithLocale.
Context `{!Locale}.

(** [validateGitHubAccess] *)
Definition validateGitHubAccess (cfg : Config) : M Validation :=
  try_catch
    (let* userResponse := fetch GetUser in
     if decide (r_status userResponse = 401) then
       ret (invalid "GitHub token is invalid or expired")
     else if negb (r_ok userResponse) then
       ret (invalid ("GitHub API error: " +:+ decimal (r_status userResponse)))
     else
     let* repoResponse := fetch GetRepo in
     if decide (r_status repoResponse = 404) then
       ret (invalid "Repository not found or no access")
     else if negb (r_ok repoResponse) then
       ret (invalid ("Repository access error: " +:+ decimal (r_status repoResponse)))
     else
     match r_body repoResponse with
     | RepoBody true =>
         let* rateLimitResponse := fetch GetRateLimit in
         match r_body rateLimitResponse with
         | RateLimitBody remaining limit reset =>
             let errs :=
               if decide (remaining < 100) then
                 [ "Low API quota: " +:+ decimal remaining +:+ " remaining. Resets at "
                   +:+ toLocaleTimeString (reset * 1000) ]
               else [] in
             ret {| valid := bool_decide (length errs = 0%nat);
                    errors := errs;
                    v_user := match r_body userResponse with
                              | UserBody l => Some l
                              | _ => None
                              end;
                    v_remaining := Some remaining |}
         | _ => throw (Error "Cannot read properties of undefined (reading 'core')")
         end
     | _ => ret (invalid "Token does not have write access to repository")
     end)
    (λ error, ret (invalid ("Network error: " +:+ message error))).

Record Probe := {
  p_exists : bool;
  p_sha : option N;
  p_downloadUrl : option string;
  p_error : option string
}.

Definition null_config : Err := Error "Cannot read properties of null (reading 'repo')".

(** [fileExists]: anything but a 200 answer, a failed request included,
    counts as absent. *)
Definition fileExists (cfg : option Config) (path : string) : M Probe :=
  match cfg with
  | None => throw null_config
  | Some _ =>
      try_catch
        (let* response := fetch (GetContents path) in
         if decide (r_status response = 200) then
           match r_body response with
           | FileBody s u =>
               ret {| p_exists := true; p_sha := Some s; p_downloadUrl := Some u;
                      p_error := None |}
           | _ =>
               ret {| p_exists := true; p_sha := None; p_downloadUrl := None;
                      p_error := None |}
           end
         else
           ret {| p_exists := false; p_sha := None; p_downloadUrl := None;
                  p_error := None |})
        (λ error,
           ret {| p_exists := false; p_sha := None; p_downloadUrl := None;
                  p_error := Some (message error) |})
  end.

Record Written := { w_url : string; w_sha : N; w_path : string }.

(** Reading [data.content.{download_url, sha, path}] off a response. *)
Definition written_of (r : Response) : M Written :=
  match r_body r with
  | WrittenBody u s p => ret {| w_url := u; w_sha := s; w_path := p |}
  | _ => throw (Error "Cannot read properties of undefined (reading 'download_url')")
  end.

Definition error_message (r : Response) : option string :=
  match r_body r with
  | MessageBody m => m
  | _ => None
  end.

(** [uploadFile] (the commit message is not modelled). *)
Definition uploadFile (cfg : option Config) (path : string) (body : Content)
    (existingSha : option N) : M Written :=
  match cfg with
  | None => throw null_config
  | Some _ =>
      let* response := fetch (PutContents path body existingSha) in
      if negb (r_ok response) then
        let rethrow : M Written :=
          throw (Error (or_else (error_message response)
                          ("Upload failed: " +:+ decimal (r_status response)))) in
        if bool_decide (r_status response = 422)
           && from_option (λ m, includes m "sha") false (error_message response)
        then
          let* existing := fileExists cfg path in
          match p_exists existing, p_sha existing with
          | true, Some s =>
              let* retryResponse := fetch (PutContents path body (Some s)) in
              if r_ok retryResponse then written_of retryResponse
              else throw (Error (or_else (error_message retryResponse)
                                   ("Upload retry failed: "
                                    +:+ decimal (r_status retryResponse))))
          | _, _ => rethrow
          end
        else rethrow
      else written_of response
  end.

(** The deterministic path of a capture's image. *)
Definition image_path (sid : string) (c : CaptureData) : string :=
  "sessions/" +:+ sid +:+ "/images/" +:+ padStart 6 (decimal (sequenceNum c)) +:+ ".jpg".

Definition hasImageData (c : CaptureData) : bool := bool_decide (is_Some (imageData c)).

Definition hasImageBlob (c : CaptureData) : bool :=
  match imageBlob c with
  | Some b => bool_decide (0 < blob_size b)
  | None => false
  end.

(** [blobToBase64]; the result stands for the base64 text of the bytes. *)
Definition blobToBase64 (b : Blob) : M (list N) :=
  if decide (blob_size b = 0) then throw (Error "Blob is empty")
  else match blob_read b with
       | Some bytes => ret bytes
       | None => throw (Error "FileReader failed")
       end.

(** [uploadImage] *)
Definition uploadImage (cfg : option Config) (c : CaptureData) (sid : string)
    : M UploadResult :=
  let path := image_path sid c in
  if negb (hasImageData c) && negb (hasImageBlob c) then
    throw (Error ("Capture #" +:+ decimal (sequenceNum c) +:+ " has no valid image data"))
  else
  let* existing := fileExists cfg path in
  if p_exists existing then
    ret {| url := p_downloadUrl existing; skipped := true |}
  else
  let* base64 :=
    if hasImageData c then ret (default [] (imageData c))
    else if hasImageBlob c then
      match imageBlob c with
      | Some b =>
          try_catch (blobToBase64 b)
            (λ _, throw (Error ("Image #" +:+ decimal (sequenceNum c) +:+
                    " data is corrupted. This session was created with an older app version. Please delete it and create a new session.")))
      | None => ret []
      end
    else ret [] in
  if decide (base64 = []) then
    throw (Error ("Failed to convert image #" +:+ decimal (sequenceNum c) +:+ " to base64"))
  else
  let* result := uploadFile cfg path (ImageBase64 base64) None in
  ret {| url := Some (w_url result); skipped := false |}.

(** *** The retry policy *)

Definition isRateLimited (errorMessage : string) : bool :=
  includes errorMessage "rate limit" ||
  includes errorMessage "403" ||
  includes errorMessage "secondary rate limit".

(** [error?.message || String(error) || 'Unknown error'] *)
Definition errorMessage_of (e : Err) : string :=
  if decide (message e = EmptyString) then "Error" else message e.

Definition null_session : Err := Error "Cannot read properties of null (reading 'id')".

(** One pass of the [for] loop of [uploadWithRetry]: the result of the
    attempt, or the error it was caught with, after the wait that follows. *)
Definition attempt_upload (capture : Capture) (maxRetries attempt : Z)
    : M (UploadResult + Err) :=
  try_catch
    (let* on := gets online in
     let* _ := (if on then ret tt else waitForOnline) in
     let* p := gets pub in
     match currentSession p with
     | None => throw null_session
     | Some session =>
         let* result := uploadImage (config p) capture (s_id session) in
         ret (inl result)
     end)
    (λ error,
       let* _ := emit (EAttemptFailed attempt maxRetries error) in
       if isRateLimited (errorMessage_of error) then
         let* _ := reportProgress (Some "Rate limited. Waiting...") in
         let* _ := delay 60000 in
         ret (inr error)
       else if decide (attempt < maxRetries) then
         let* _ := delay (Z.min (1000 * 2 ^ attempt) 60000) in
         ret (inr error)
       else ret (inr error)).

Fixpoint retry_loop (capture : Capture) (maxRetries : Z) (remaining : nat)
    (attempt : Z) (lastError : option Err) : M UploadResult :=
  match remaining with
  | O => throw (default (Error "Upload failed after all retries") lastError)
  | S n =>
      let* outcome := attempt_upload capture maxRetries attempt in
      match outcome with
      | inl result => ret result
      | inr error => retry_loop capture maxRetries n (attempt + 1) (Some error)
      end
  end.

(** [uploadWithRetry(capture, maxRetries = 5)] *)
Definition uploadWithRetry (capture : Capture) : M UploadResult :=
  retry_loop capture 5 5 1 None.

(** *** The coverage index *)

Definition usable_gps (c : Capture) : bool :=
  match gps c with
  | Some g => bool_decide (lat g ≠ 0) && bool_decide (lng g ≠ 0)
  | None => false
  end.

(** [loadCoverageIndex]: the features of the stored index, or none. *)
Definition loadCoverageIndex (cfg : option Config) : M (list (string * Z)) :=
  match cfg with
  | None => throw null_config
  | Some _ =>
      try_catch
        (let* response := fetch GetRawIndex in
         match r_ok response, r_body response with
         | true, IndexBody fs => ret fs
         | _, _ => ret []
         end)
        (λ _, ret [])
  end.

(** [updateCoverageIndex]: never throws. *)
Definition updateCoverageIndex (session : Session) (captures : list Capture)
    (cfg : option Config) : M unit :=
  try_catch
    (let* features := loadCoverageIndex cfg in
     let coordinates := filter (λ c, usable_gps c = true) captures in
     if decide (length coordinates < 2)%nat then ret tt
     else
       let features' :=
         filter (λ f : string * Z, f.1 ≠ s_id session) features
         ++ [ (s_id session, Z.of_nat (length captures)) ] in
       let* existing := fileExists cfg "coverage-index.geojson" in
       let* _ := uploadFile cfg "coverage-index.geojson" (CoverageIndex features')
                   (if p_exists existing then p_sha existing else None) in
       ret tt)
    (λ _, ret tt).

(** *** Finishing *)

Definition final_status (failedCount : Z) : Status :=
  if decide (0 < failedCount) then partially_published else published.

(** The [try] block of [finishPublish]. *)
Definition finish_steps (session : Session) (cfg : option Config) : M unit :=
  let* _ := reportProgress (Some "Uploading metadata...") in
  let* captures := gets (λ w, Storage.getSessionCaptures (s_id session) (db w)) in
  let csvPath := "sessions/" +:+ s_id session +:+ "/data.csv" in
  let* existingCsv := fileExists cfg csvPath in
  let* _ := uploadFile cfg csvPath (CsvDocument captures)
              (if p_exists existingCsv then p_sha existingCsv else None) in
  let* p := gets pub in
  let metadata :=
    MetadataDocument (s_id session) (Z.of_nat (length captures)) (completed p) (failed p) in
  let metadataPath := "sessions/" +:+ s_id session +:+ "/metadata.json" in
  let* existingMetadata := fileExists cfg metadataPath in
  let* _ := uploadFile cfg metadataPath metadata
              (if p_exists existingMetadata then p_sha existingMetadata else None) in
  let* _ := updateCoverageIndex session captures cfg in
  let* p := gets pub in
  let session' := Storage.set_status (final_status (failed p)) session in
  (* [session] is the object [publisherState.currentSession] refers to *)
  let* _ := modify (with_pub (λ p0,
              set_currentSession ((λ _, session') <$> currentSession p0) p0)) in
  let* _ := updateSession session' in
  let* now := gets clock in
  let* p := gets pub in
  let* _ := savePublishState
              {| ps_sessionId := s_id session;
                 publishStarted := default 0 (p_startTime p);
                 totalToUpload := total p;
                 ps_completed := completed p;
                 ps_failed := failed p;
                 inProgress := false;
                 completedAt := Some now |} in
  let* _ := modify (with_pub (set_isPublishing false)) in
  let* p := gets pub in
  if onComplete p then emit (EComplete (completed p) (failed p) (total p)) else ret tt.

(** [finishPublish] *)
Definition finishPublish : M unit :=
  let* p := gets pub in
  match currentSession p with
  | None => throw null_session
  | Some session =>
      try_catch (finish_steps session (config p))
        (λ error,
           let* _ := modify (with_pub (set_isPublishing false)) in
           let* p := gets pub in
           if onError p then emit (EError error None) else ret tt)
  end.

(** *** The drain loop *)

Inductive Flow := Continue | Break.

(** The [try] block of one iteration, for the capture at the head of the
    queue. *)
Definition upload_item (capture : Capture) (currentSessionId : option string) : M Flow :=
  let* _ := reportProgress
              (Some ("Uploading image " +:+ decimal (sequenceNum capture) +:+ "...")) in
  let* result := uploadWithRetry capture in
  let* p := gets pub in
  if decide (s_id <$> currentSession p ≠ currentSessionId) then ret Break
  else
  let* _ := markCapturePublished (c_id capture) (url result) in
  let* _ := modify (with_pub (λ p0,
              set_queue (tail (queue p0)) (set_completed (completed p0 + 1) p0))) in
  let* p := gets pub in
  match currentSession p with
  | None => throw null_session
  | Some session =>
      let* _ := savePublishState
                  {| ps_sessionId := s_id session;
                     publishStarted := default 0 (p_startTime p);
                     totalToUpload := total p;
                     ps_completed := completed p;
                     ps_failed := failed p;
                     inProgress := true;
                     completedAt := None |} in
      let* _ := reportProgress None in
      let* _ := delay 500 in
      ret Continue
  end.

(** The [catch] block of one iteration. *)
Definition item_failed (capture : option Capture) (error : Err) : M Flow :=
  let* _ := modify (with_pub (λ p0,
              set_queue (tail (queue p0)) (set_failed (failed p0 + 1) p0))) in
  let* p := gets pub in
  let* _ := (if onError p then emit (EError error capture) else ret tt) in
  ret Continue.

(** The body of the [while] loop. *)
Definition process_item : M Flow :=
  let* on := gets online in
  let* go :=
    (if on then ret true
     else
       let* _ := reportProgress (Some "Waiting for network...") in
       let* _ := waitForOnline in
       gets (λ w, isPublishing (pub w))) in
  if negb go then ret Break
  else
  let* p := gets pub in
  let currentSessionId := s_id <$> currentSession p in
  match queue p with
  | capture :: _ =>
      try_catch (upload_item capture currentSessionId) (item_failed (Some capture))
  | [] =>
      item_failed None (Error "Cannot read properties of undefined (reading 'sequenceNum')")
  end.

(** The [while] loop; every pass that continues takes the head off the
    queue, so [fuel] beyond the queue's length is never used up. *)
Fixpoint drain (fuel : nat) : M unit :=
  match fuel with
  | O => ret tt
  | S n =>
      let* p := gets pub in
      if bool_decide (0 < length (queue p))%nat && isPublishing p && negb (isPaused p) then
        let* flow := process_item in
        match flow with
        | Continue => drain n
        | Break => ret tt
        end
      else ret tt
  end.

(** [processQueue] *)
Definition processQueue : M unit :=
  let* p := gets pub in
  if isProcessing p then ret tt
  else
    let* _ := modify (with_pub (set_isProcessing true)) in
    try_finally
      (let* p := gets pub in
       let* _ := drain (S (length (queue p))) in
       let* p := gets pub in
       if bool_decide (length (queue p) = 0%nat) && isPublishing p
       then finishPublish else ret tt)
      (with_pub (set_isProcessing false)).

(** *** Starting, pausing, cancelling *)

Record Callbacks := { cb_onProgress : bool; cb_onComplete : bool; cb_onError : bool }.

Definition hasBlob (c : Capture) : bool :=
  match imageBlob c with
  | Some b => bool_decide (0 < blob_size b)
  | None => false
  end.

(** [startPublish], up to the point where it launches [processQueue]
    without awaiting it; it resolves with [total]. *)
Definition startPublish (sessionId : string) (cfg : Config) (cbs : Callbacks) : M Z :=
  let* p := gets pub in
  if isPublishing p || isProcessing p then throw (Error "Already publishing")
  else
  let* validation := validateGitHubAccess cfg in
  if negb (valid validation) then
    throw (Error (String.concat newline (errors validation)))
  else
  let* found := getSession sessionId in
  match found with
  | None => throw (Error "Session not found")
  | Some session =>
      let* captures := gets (λ w, Storage.getUnpublishedCaptures sessionId (db w)) in
      if decide (length captures = 0%nat) then throw (Error "No captures to publish")
      else
      let capturesWithBlobs := filter (λ c, hasBlob c = true) captures in
      let* now := gets clock in
      let* _ := modify (with_pub (λ _,
                  {| isPublishing := true; isPaused := false; isProcessing := false;
                     currentSession := Some session; config := Some cfg;
                     queue := capturesWithBlobs;
                     completed := 0; failed := 0;
                     total := Z.of_nat (length capturesWithBlobs);
                     p_startTime := Some now;
                     onProgress := cb_onProgress cbs;
                     onComplete := cb_onComplete cbs;
                     onError := cb_onError cbs |})) in
      let* _ := savePublishState
                  {| ps_sessionId := sessionId;
                     publishStarted := now;
                     totalToUpload := Z.of_nat (length capturesWithBlobs);
                     ps_completed := 0; ps_failed := 0;
                     inProgress := true; completedAt := None |} in
      let session' := Storage.set_status publishing session in
      let* _ := modify (with_pub (set_currentSession (Some session'))) in
      let* _ := updateSession session' in
      ret (Z.of_nat (length capturesWithBlobs))
  end.

(** [startPublish] together with the drain it launches, run to the end. *)
Definition publish (sessionId : string) (cfg : Config) (cbs : Callbacks) : M Z :=
  let* n := startPublish sessionId cfg cbs in
  let* _ := processQueue in
  ret n.

End WithLocale.

(** [pausePublish] *)
Definition pausePublish : M unit :=
  let* _ := modify (with_pub (set_isPaused true)) in
  reportProgress (Some "Paused").

(** [resumePublish] *)
Definition resumePublish : M unit :=
  let* p := gets pub in
  if isPaused p && isPublishing p then
    let* _ := modify (with_pub (set_isPaused false)) in
    let* p := gets pub in
    if negb (isProcessing p) then processQueue else ret tt
  else ret tt.

(** The polling loop of [cancelPublish]. *)
Fixpoint cancel_wait (fuel : nat) (waitCount : Z) : M unit :=
  match fuel with
  | O => ret tt
  | S n =>
      let* p := gets pub in
      if isProcessing p && bool_decide (waitCount < 50) then
        let* _ := delay 100 in
        cancel_wait n (waitCount + 1)
      else ret tt
  end.

(** [cancelPublish] *)
Definition cancelPublish : M unit :=
  let* p := gets pub in
  let sessionId := s_id <$> currentSession p in
  let* _ := modify (with_pub (λ p0,
              set_queue [] (set_isPaused false (set_isPublishing false p0)))) in
  let* _ := cancel_wait 51 0 in
  let* _ :=
    match sessionId with
    | Some sid =>
        let* found := getSession sid in
        match found with
        | Some session => updateSession (Storage.set_status stopped session)
        | None => ret tt
        end
    | None => ret tt
    end in
  modify (with_pub (λ p0, set_config None (set_currentSession None p0))).

Arguments reportProgress : simpl never.
Arguments validateGitHubAccess : simpl never.
Arguments fileExists : simpl never.
Arguments uploadFile : simpl never.
Arguments uploadImage : simpl never.
Arguments attempt_upload : simpl never.
Arguments uploadWithRetry : simpl never.
Arguments loadCoverageIndex : simpl never.
Arguments updateCoverageIndex : simpl never.
Arguments finish_steps : simpl never.
Arguments finishPublish : simpl never.
Arguments upload_item : simpl never.
Arguments item_failed : simpl never.
Arguments process_item : simpl never.
Arguments processQueue : simpl never.
Arguments startPublish : simpl never.
Arguments cancelPublish : simpl never.


(** *** Base64 *)

(** [bytes.subarray(begin, end)] *)
Definition subarray (bytes : list N) (begin end_ : nat) : list N :=
  take (end_ - begin) (drop begin bytes).

(** The [for] loop of [arrayBufferToBase64] and [blobToBase64]: the
    character codes of [binary] after the passes from [i] on. *)
Fixpoint binary_from (chunkSize fuel i : nat) (bytes binary : list N) : list N :=
  match fuel with
  | O => binary
  | S n =>
      if decide (i < length bytes)%nat then
        let chunk := subarray bytes i (Nat.min (i + chunkSize) (length bytes)) in
        binary_from chunkSize n (i + chunkSize) bytes (binary ++ chunk)
      else binary
  end.

Definition base64_alphabet : string :=
  "ABCDEFGHIJKLMNOPQRSTUVWXYZabcdefghijklmnopqrstuvwxyz0123456789+/".

Definition base64_digit (n : N) : Ascii.ascii :=
  default (Ascii.ascii_of_nat 61) (String.get (N.to_nat n) base64_alphabet).

(** [btoa] on a binary string given by its character codes (all below
    256): three bytes give four digits, the last group is padded. *)
Fixpoint btoa (binary : list N) : string :=
  match binary with
  | [] => EmptyString
  | [a] =>
      String (base64_digit (N.shiftr a 2))
        (String (base64_digit (N.land (N.shiftl a 4) 63)) "==")
  | [a; b] =>
      String (base64_digit (N.shiftr a 2))
        (String (base64_digit (N.land (N.lor (N.shiftl a 4) (N.shiftr b 4)) 63))
           (String (base64_digit (N.land (N.shiftl b 2) 63)) "="))
  | a :: b :: c :: rest =>
      String (base64_digit (N.shiftr a 2))
        (String (base64_digit (N.land (N.lor (N.shiftl a 4) (N.shiftr b 4)) 63))
           (String (base64_digit (N.land (N.lor (N.shiftl b 2) (N.shiftr c 6)) 63))
              (String (base64_digit (N.land c 63)) (btoa rest))))
  end.

(** [arrayBufferToBase64] *)
Definition arrayBufferToBase64 (buffer : list N) : string :=
  let chunkSize := Z.to_nat 8192 in
  btoa (binary_from chunkSize (S (length buffer)) 0 buffer []).

(** *** Durations *)

(** [Math.round(a / b)] for whole numbers [a ≥ 0] and [b > 0]. *)
Definition round_div (a b : Z) : Z := (2 * a + b) `div` (2 * b).

(** [formatDuration] of a whole number of seconds. *)
Definition formatDuration (seconds : Z) : string :=
  if decide (seconds < 60) then decimal seconds +:+ "s"
  else if decide (seconds < 3600) then decimal (round_div seconds 60) +:+ "m"
  else
    let hours := seconds `div` 3600 in
    let mins := round_div (seconds `mod` 3600) 60 in
    decimal hours +:+ "h " +:+ decimal mins +:+ "m".


(** *** The CSV document *)

Section Csv.

(** A capture's [timestamp] is an ISO string and its coordinates and
    readings are numbers; how they are written is the platform's. *)
Variable toISOString : Time → string.
Variable numberToString : Z → string.

Definition comma : Ascii.ascii := Ascii.ascii_of_nat 44.
Definition line_feed : Ascii.ascii := Ascii.ascii_of_nat 10.

Definition headers : list string :=
  ["sequence"; "timestamp"; "gps_lat"; "gps_lng"; "gps_accuracy"; "gps_stale";
   "image_url"; "accel_x"; "accel_y"; "accel_z"].

(** One element of [rows], each cell as [join] writes it. *)
Definition csv_row (c : Capture) : list string :=
  [ decimal (sequenceNum c);
    toISOString (timestamp c);
    from_option (λ g, numberToString (lat g)) EmptyString (gps c);
    from_option (λ g, numberToString (lng g)) EmptyString (gps c);
    from_option (λ g, numberToString (accuracy g)) EmptyString (gps c);
    from_option (λ g, if stale g then "true" else "false") EmptyString (gps c);
    or_else (publishedUrl c) EmptyString;
    from_option (λ a, numberToString (ax a)) EmptyString (accel c);
    from_option (λ a, numberToString (ay a)) EmptyString (accel c);
    from_option (λ a, numberToString (az a)) EmptyString (accel c) ].

(** [generateCSV] *)
Definition generateCSV (captures : list Capture) : string :=
  String.concat (String line_feed EmptyString)
    (String.concat (String comma EmptyString) headers
     :: ((λ r, String.concat (String comma EmptyString) r) <$> (csv_row <$> captures))).

End Csv.

End Publisher.

(** ** The recorder (app.js)

    The part of [AppState] that the recording functions read and write,
    and what these functions do to it and to the database.  The camera, the
    sensors, the wake lock, the timers and the page are outside: a frame is
    what they hand to [captureFrame], and they are taken to raise no
    error.  A field of [AppState] whose name another record has taken
    carries the prefix [app_]. *)
Module Recorder.

Record AppState := {
  isRecording : bool;
  app_isPaused : bool;
  app_currentSession : option Session;    (* the object in memory *)
  app_sequenceNum : Z;
  app_startTime : option Time;
  recoverySession : option Session;
  app_settings : Storage.SettingsInput
}.

(** What the devices give to one call of [captureFrame]: the image of
    [captureImage()] ([None]: no image), the sensor readings, the time. *)
Record Frame := {
  frame_image : option Blob;
  frame_gps : option GpsFix;
  frame_accel : option Accel;
  frame_time : Time
}.

Definition set_flags (recording paused_ : bool) (app : AppState) : AppState :=
  {| isRecording := recording; app_isPaused := paused_;
     app_currentSession := app_currentSession app;
     app_sequenceNum := app_sequenceNum app; app_startTime := app_startTime app;
     recoverySession := recoverySession app; app_settings := app_settings app |}.

Definition set_session (s : option Session) (n : Z) (t : option Time) (app : AppState)
    : AppState :=
  {| isRecording := isRecording app; app_isPaused := app_isPaused app;
     app_currentSession := s; app_sequenceNum := n; app_startTime := t;
     recoverySession := recoverySession app; app_settings := app_settings app |}.

Definition set_recovery (s : option Session) (app : AppState) : AppState :=
  {| isRecording := isRecording app; app_isPaused := app_isPaused app;
     app_currentSession := app_currentSession app;
     app_sequenceNum := app_sequenceNum app; app_startTime := app_startTime app;
     recoverySession := s; app_settings := app_settings app |}.

Definition set_duration (n : Z) (s : Session) : Session :=
  {| s_id := s_id s; s_name := s_name s; createdAt := createdAt s;
     status := status s;
     captureCount := captureCount s; totalBytes := totalBytes s;
     avgImageSize := avgImageSize s; duration := n;
     startTime := startTime s; lastCaptureTime := lastCaptureTime s;
     s_settings := s_settings s; recoveryInfo := recoveryInfo s |}.

(** [AppState.currentSession.status = st; await Storage.updateSession(...)]:
    the object in memory is changed and written as it is. *)
Definition write_status (st : Status) (app : AppState) (d : DB) : AppState * DB :=
  match app_currentSession app with
  | Some session =>
      let session' := Storage.set_status st session in
      (set_session (Some session') (app_sequenceNum app) (app_startTime app) app,
       Storage.updateSession session' d)
  | None => (app, d)
  end.

(** [stopRecording] *)
Definition stopRecording (now : Time) (st : AppState * DB) : AppState * DB :=
  let app := set_flags false false st.1 in
  match app_currentSession app with
  | Some session =>
      let session' :=
        set_duration ((now - default 0 (app_startTime app)) `div` 1000)
          (Storage.set_status stopped session) in
      (set_session (Some session') (app_sequenceNum app) (app_startTime app) app,
       Storage.updateSession session' st.2)
  | None => (app, st.2)
  end.

(** [startRecording(sessionName)]; [name] is the display name. *)
Definition startRecording (now : Time) (name : string) (st : AppState * DB)
    : AppState * DB :=
  if isRecording st.1 then st
  else
    match Storage.createSession now name (app_settings st.1) st.2 with
    | (Resolved session, d') =>
        (set_flags true false (set_session (Some session) 0 (Some now) st.1), d')
    | (Rejected _, d') => stopRecording now (st.1, d')
    end.

(** [pauseRecording] *)
Definition pauseRecording (st : AppState * DB) : AppState * DB :=
  if negb (isRecording st.1) || app_isPaused st.1 then st
  else write_status paused (set_flags (isRecording st.1) true st.1) st.2.

(** [resumeRecording] *)
Definition resumeRecording (st : AppState * DB) : AppState * DB :=
  match app_currentSession st.1 with
  | Some _ =>
      if app_isPaused st.1 then write_status recording (set_flags true false st.1) st.2
      else st
  | None => st
  end.

(** [captureFrame]: a failure of [saveCapture] is caught and logged. *)
Definition captureFrame (st : AppState * DB) (f : Frame) : AppState * DB :=
  if negb (isRecording st.1) || app_isPaused st.1 then st
  else
    match frame_image f with
    | None => st
    | Some imageBlob =>
        let n := app_sequenceNum st.1 + 1 in
        let app := set_session (app_currentSession st.1) n (app_startTime st.1) st.1 in
        match app_currentSession st.1 with
        | Some session =>
            let capture :=
              {| sessionId := s_id session; sequenceNum := n;
                 timestamp := frame_time f;
                 gps := frame_gps f; accel := frame_accel f;
                 imageData := None; imageBlob := Some imageBlob;
                 imageSizeBytes := Some (blob_size imageBlob);
                 c_published := false; publishedUrl := None |} in
            (app, (Storage.saveCapture (frame_time f) capture st.2).2)
        | None => (app, st.2)
        end
    end.

(** [checkRecovery]: the first recoverable session is offered for resuming. *)
Definition checkRecovery (st : AppState * DB) : AppState * DB :=
  let '(found, d') := Storage.checkForRecovery st.2 in
  (set_recovery (match found with s :: _ => Some s | [] => recoverySession st.1 end) st.1,
   d').

(** [resumeRecoverySession]: [AppState.recoverySession] and
    [AppState.currentSession] are one object afterwards. *)
Definition resumeRecoverySession (now : Time) (st : AppState * DB) : AppState * DB :=
  match recoverySession st.1 with
  | None => st
  | Some session =>
      let session' := Storage.set_status recording session in
      (set_flags true false
         (set_session (Some session') (captureCount session)
            (Some (now - duration session * 1000))
            (set_recovery (Some session') st.1)),
       Storage.updateSession session' st.2)
  end.

End Recorder.

(** ** What a computation leaves alone *)

Section Frames.

(** [m] run on its own takes every world to an [R]-related one. *)
Definition keeps {A} (R : relation World) (m : M A) : Prop :=
  ∀ w, R w (run (m w)).2.

(** The local database and [publisherState] are untouched and the trace
    grows by events that satisfy [P]. *)
Definition frame (P : Event → Prop) (w w1 : World) : Prop :=
  db w1 = db w ∧ pub w1 = pub w ∧
  ∃ evs, trace w1 = trace w ++ evs ∧ Forall P evs.

(** No remote file is written. *)
Definition same_files (w w1 : World) : Prop :=
  files (remote w1) = files (remote w).

#[global] Instance frame_preorder P : PreOrder (frame P).
Proof.
  split.
  - intros w. repeat split. exists []. by rewrite app_nil_r.
  - intros w1 w2 w3 (Hd1 & Hp1 & evs1 & Ht1 & Hf1) (Hd2 & Hp2 & evs2 & Ht2 & Hf2).
    repeat split; [congruence..|]. exists (evs1 ++ evs2).
    rewrite Ht2, Ht1, app_assoc. split; [done|]. by apply Forall_app.
Qed.

#[global] Instance same_files_preorder : PreOrder same_files.
Proof. split; [by intros w|]. intros w1 w2 w3. unfold same_files. congruence. Qed.

Definition both (R1 R2 : relation World) : relation World := λ w w1, R1 w w1 ∧ R2 w w1.

#[global] Instance both_preorder R1 R2 `{!PreOrder R1, !PreOrder R2} : PreOrder (both R1 R2).
Proof.
  split; [by split|]. intros w1 w2 w3 [? ?] [? ?]. split; by etrans.
Qed.

Lemma frame_mono (P Q : Event → Prop) w w1 :
  (∀ ev, P ev → Q ev) → frame P w w1 → frame Q w w1.
Proof.
  intros HPQ (Hd & Hp & evs & Ht & Hf). repeat split; [done..|].
  exists evs. split; [done|]. eapply Forall_impl; eauto.
Qed.

Context {A B : Type} (R : relation World) `{!PreOrder R}.

Lemma keeps_ret (a : A) : keeps R (ret a).
Proof. by intros w. Qed.

Lemma keeps_throw (e : Err) : keeps R (throw (A:=A) e).
Proof. by intros w. Qed.

Lemma keeps_gets (f : World → A) : keeps R (gets f).
Proof. by intros w. Qed.

Lemma keeps_bind (m : M A) (f : A → M B) :
  keeps R m → (∀ a, keeps R (f a)) → keeps R (bind m f).
Proof.
  intros Hm Hf w. rewrite run_bind. specialize (Hm w).
  destruct (run (m w)) as [[a|e] w1]; simpl in *; [|done].
  etrans; [exact Hm|apply Hf].
Qed.

Lemma keeps_try_catch (m : M A) (h : Err → M A) :
  keeps R m → (∀ e, keeps R (h e)) → keeps R (try_catch m h).
Proof.
  intros Hm Hh w. rewrite run_try_catch. specialize (Hm w).
  destruct (run (m w)) as [[a|e] w1]; simpl in *; [done|].
  etrans; [exact Hm|apply Hh].
Qed.

End Frames.

(** Splitting a run that resolved. *)
Lemma run_bind_resolved {A B} (m : M A) (f : A → M B) w b w' :
  run (bind m f w) = (Resolved b, w') →
  ∃ a w1, run (m w) = (Resolved a, w1) ∧ run (f a w1) = (Resolved b, w').
Proof.
  rewrite run_bind. destruct (run (m w)) as [[a|e] w1]; [|done]. eauto.
Qed.

Section PrimitiveFrames.
Import Publisher.

(** The requests that only read. *)
Definition is_read (q : Request) : Prop :=
  match q with PutContents _ _ _ => False | _ => True end.

Definition is_read_fetch (ev : Event) : Prop :=
  match ev with EFetch q => is_read q | _ => False end.

Lemma serve_read q r : is_read q → (serve q r).2 = r.
Proof.
  destruct q; simpl; try done; intros _; repeat case_match; done.
Qed.

(** What [fetch] does, by the head of the fault script. *)
Lemma run_fetch q w :
  let w0 := elapse (latency (remote w)) (log (EFetch q) w) in
  run (fetch q w) =
  match faults (remote w) with
  | NetworkError msg :: fs => (Rejected (Error msg), with_remote (set_faults fs) w0)
  | HttpError st msg :: fs =>
      (Resolved {| r_status := st; r_body := MessageBody msg |},
       with_remote (set_faults fs) w0)
  | NoFault :: fs =>
      (Resolved (serve q (set_faults fs (remote w))).1,
       with_remote (λ _, (serve q (set_faults fs (remote w))).2) w0)
  | [] =>
      (Resolved (serve q (remote w)).1, with_remote (λ _, (serve q (remote w)).2) w0)
  end.
Proof.
  unfold fetch; simpl. unfold respond; simpl.
  destruct (faults (remote w)) as [|[|msg|st msg] fs]; simpl; try done.
  - by destruct (serve q (remote w)).
  - by destruct (serve q (set_faults fs (remote w))).
Qed.

Lemma fetch_frame (P : Event → Prop) q : P (EFetch q) → keeps (frame P) (fetch q).
Proof.
  intros HP w. rewrite run_fetch.
  assert (∀ f, frame P w (with_remote f (elapse (latency (remote w)) (log (EFetch q) w))))
    as Hf.
  { intros f. repeat split. exists [EFetch q]. split; [done|]. by constructor. }
  destruct (faults (remote w)) as [|[|msg|st msg] fs]; simpl; apply Hf.
Qed.

Lemma fetch_same_files q : is_read q → keeps same_files (fetch q).
Proof.
  intros Hq w. rewrite run_fetch. unfold same_files.
  destruct (faults (remote w)) as [|[|msg|st msg] fs]; simpl; try done;
    by rewrite serve_read.
Qed.

Lemma fetch_reads q :
  is_read q → keeps (both (frame is_read_fetch) same_files) (fetch q).
Proof. intros Hq w. split; [by apply fetch_frame|by apply fetch_same_files]. Qed.

End PrimitiveFrames.

(** ** What a computation resolves with *)

Section Ensures.
Context {A B : Type}.

(** Whenever [m], run on its own, resolves, its value satisfies [Q]. *)
Definition ensures (Q : A → Prop) (m : M A) : Prop :=
  ∀ w a w', run (m w) = (Resolved a, w') → Q a.

Lemma ensures_ret (Q : A → Prop) a : Q a → ensures Q (ret a).
Proof. intros HQ w a' w' [= <- _]. done. Qed.

Lemma ensures_throw (Q : A → Prop) e : ensures Q (throw e).
Proof. by intros w a' w'. Qed.

Lemma ensures_try_catch (Q : A → Prop) m h :
  ensures Q m → (∀ e, ensures Q (h e)) → ensures Q (try_catch m h).
Proof.
  intros Hm Hh w a w'. rewrite run_try_catch.
  destruct (run (m w)) as [[a0|e] w1] eqn:Hrun.
  - intros [= <- <-]. eapply Hm, Hrun.
  - apply Hh.
Qed.

End Ensures.

Lemma ensures_bind {A B} (Q : B → Prop) (m : M A) (f : A → M B) :
  (∀ a, ensures Q (f a)) → ensures Q (bind m f).
Proof.
  intros Hf w b w' (a & w1 & _ & Hrun)%run_bind_resolved. eapply Hf, Hrun.
Qed.

(** ** Validation *)

Section ValidationFacts.
Import Publisher.
Context `{!Locale}.

Definition reads_only : relation World := both (frame is_read_fetch) same_files.

(** Validation only reads: it touches neither the local stores nor the
    publisher state nor any remote file, and sends no write. *)
Lemma validate_reads cfg : keeps reads_only (validateGitHubAccess cfg).
Proof.
  unfold validateGitHubAccess.
  apply keeps_try_catch; [apply _| |intros e; apply keeps_ret; apply _].
  apply keeps_bind; [apply _|by apply fetch_reads|intros userResponse].
  case_decide; [apply keeps_ret; apply _|].
  destruct (negb (r_ok userResponse)); [apply keeps_ret; apply _|].
  apply keeps_bind; [apply _|by apply fetch_reads|intros repoResponse].
  case_decide; [apply keeps_ret; apply _|].
  destruct (negb (r_ok repoResponse)); [apply keeps_ret; apply _|].
  destruct (r_body repoResponse) as [| [|] | | | | |]; try (apply keeps_ret; apply _).
  apply keeps_bind; [apply _|by apply fetch_reads|intros rateLimitResponse].
  destruct (r_body rateLimitResponse); try (apply keeps_throw; apply _).
  apply keeps_ret; apply _.
Qed.

(** A validation is consistent: it is invalid exactly when it carries a
    reason. *)
Definition consistent (v : Validation) : Prop := valid v = false ↔ errors v ≠ [].

Lemma validate_consistent cfg : ensures consistent (validateGitHubAccess cfg).
Proof.
  assert (∀ reason, consistent (invalid reason)) as Hinv by (by split).
  unfold validateGitHubAccess.
  apply ensures_try_catch; [|intros e; by apply ensures_ret].
  apply ensures_bind; intros userResponse.
  case_decide; [by apply ensures_ret|].
  destruct (negb (r_ok userResponse)); [by apply ensures_ret|].
  apply ensures_bind; intros repoResponse.
  case_decide; [by apply ensures_ret|].
  destruct (negb (r_ok repoResponse)); [by apply ensures_ret|].
  destruct (r_body repoResponse) as [| [|] | | | | |]; try by apply ensures_ret.
  apply ensures_bind; intros rateLimitResponse.
  destruct (r_body rateLimitResponse); try apply ensures_throw.
  apply ensures_ret. unfold consistent; simpl. case_decide; simpl; split; done.
Qed.

(** Validation never rejects: a failure of the transport becomes a
    reason. *)
Lemma validate_resolves cfg w : ∃ v, (run (validateGitHubAccess cfg w)).1 = Resolved v.
Proof.
  unfold validateGitHubAccess. rewrite run_try_catch.
  destruct (run _) as [[v|e] w1]; simpl; eauto.
Qed.

End ValidationFacts.

Section StartPublishFacts.
Import Publisher.
Context `{!Locale}.

Lemma run_fetch_read q w :
  faults (remote w) = [] → is_read q →
  run (fetch q w) =
  (Resolved (serve q (remote w)).1, elapse (latency (remote w)) (log (EFetch q) w)).
Proof.
  intros Hf Hq. rewrite run_fetch, Hf. simpl. rewrite serve_read by done.
  by destruct w.
Qed.

(** The three reasons on a transport without faults. *)
Lemma validate_reasons cfg w v w1 :
  run (validateGitHubAccess cfg w) = (Resolved v, w1) →
  faults (remote w) = [] →
  (token_valid (remote w) = false →
     valid v = false ∧ errors v = ["GitHub token is invalid or expired"]) ∧
  (token_valid (remote w) = true → repo_visible (remote w) = true →
   can_push (remote w) = false →
     valid v = false ∧ errors v = ["Token does not have write access to repository"]) ∧
  (token_valid (remote w) = true → repo_visible (remote w) = true →
   can_push (remote w) = true → rate_remaining (remote w) < 100 →
     valid v = false ∧
     errors v = ["Low API quota: " +:+ decimal (rate_remaining (remote w))
                 +:+ " remaining. Resets at "
                 +:+ toLocaleTimeString (rate_reset (remote w) * 1000)]).
Proof.
  intros Hrun Hf. unfold validateGitHubAccess in Hrun.
  assert (∀ ms ev w0, remote (elapse ms (log ev w0)) = remote w0) as Hrem by done.
  rewrite run_try_catch, run_bind, run_fetch_read in Hrun by done.
  cbn [serve] in Hrun.
  destruct (token_valid (remote w)) eqn:Htok; cbn in Hrun.
  - rewrite decide_False in Hrun by done.
    rewrite run_bind, run_fetch_read in Hrun by done. cbn [serve] in Hrun.
    rewrite Hrem, Htok in Hrun.
    destruct (repo_visible (remote w)) eqn:Hvis; cbn in Hrun.
    + rewrite decide_False in Hrun by done.
      destruct (can_push (remote w)) eqn:Hpush; cbn in Hrun.
      * rewrite run_bind, run_fetch_read in Hrun by done. cbn in Hrun.
        split_and!; try done. intros _ _ _ Hlow.
        rewrite !decide_True in Hrun by done. cbn in Hrun. by simplify_eq.
      * split_and!; try done. intros _ _ _. by simplify_eq.
    + split_and!; done.
  - split_and!; try done. intros _. rewrite decide_True in Hrun by done.
    cbn in Hrun. by simplify_eq.
Qed.

(** C8. With no job running, validation always produces a verdict, and
    whenever the verdict is invalid [startPublish] rejects with an error
    whose message is the list of the reasons found, one per line; up to
    then only read requests were sent, no remote file was written, and the
    local stores and the publisher state are as before.  On a transport
    without faults an invalid token, a repository without push permission
    and a remaining quota below 100 each make the verdict invalid, with the
    matching reason. *)
Theorem startPublish_rejects_invalid (sessionId : string) (cfg : Config)
    (cbs : Callbacks) (w : World) :
  isPublishing (pub w) = false →
  isProcessing (pub w) = false →
  ∃ v w1,
    run (validateGitHubAccess cfg w) = (Resolved v, w1) ∧
    (valid v = false →
       errors v ≠ [] ∧
       run (startPublish sessionId cfg cbs w)
         = (Rejected (Error (String.concat newline (errors v))), w1) ∧
       db w1 = db w ∧ pub w1 = pub w ∧
       files (remote w1) = files (remote w) ∧
       ∃ evs, trace w1 = trace w ++ evs ∧ Forall is_read_fetch evs) ∧
    (faults (remote w) = [] →
       (token_valid (remote w) = false →
          valid v = false ∧ errors v = ["GitHub token is invalid or expired"]) ∧
       (token_valid (remote w) = true → repo_visible (remote w) = true →
        can_push (remote w) = false →
          valid v = false ∧
          errors v = ["Token does not have write access to repository"]) ∧
       (token_valid (remote w) = true → repo_visible (remote w) = true →
        can_push (remote w) = true → rate_remaining (remote w) < 100 →
          valid v = false ∧
          errors v = ["Low API quota: " +:+ decimal (rate_remaining (remote w))
                      +:+ " remaining. Resets at "
                      +:+ toLocaleTimeString (rate_reset (remote w) * 1000)])).
Proof.
  intros Hpub Hproc.
  destruct (validate_resolves cfg w) as [v Hv].
  destruct (run (validateGitHubAccess cfg w)) as [r w1] eqn:Hrun. simpl in Hv. subst r.
  exists v, w1. split; [done|]. split.
  - intros Hinvalid.
    pose proof (validate_reads cfg w) as [(Hdb & Hp & Htrace) Hfiles].
    rewrite Hrun in Hdb, Hp, Htrace, Hfiles. cbn [snd] in Hdb, Hp, Htrace, Hfiles.
    split_and!; try done.
    + by apply (validate_consistent cfg w v w1 Hrun).
    + unfold startPublish. rewrite run_bind. cbn. rewrite Hpub, Hproc. cbn.
      rewrite run_bind, Hrun. by rewrite Hinvalid.
  - intros Hf. by apply (validate_reasons cfg w v w1).
Qed.

Lemma filter_sorted (P : Capture → Prop) `{!∀ c, Decision (P c)} l :
  StronglySorted seq_le l → StronglySorted seq_le (filter P l).
Proof.
  induction 1 as [|c l Hs IH Hall]; [constructor|].
  rewrite filter_cons. case_decide; [|done].
  constructor; [done|]. apply Forall_forall. intros c' Hc'.
  apply list_elem_of_filter in Hc' as [_ Hc'].
  by eapply Forall_forall in Hall.
Qed.

(** The queue that [startPublish] builds once validation has passed: the
    unpublished captures of the session that have a non-empty [imageBlob],
    in ascending [sequenceNum] order; it rejects when the session has no
    unpublished capture at all. *)
Lemma startPublish_queue target cfg cbs w v w1 session :
  isPublishing (pub w) = false →
  isProcessing (pub w) = false →
  run (validateGitHubAccess cfg w) = (Resolved v, w1) →
  valid v = true →
  sessions (db w) !! target = Some session →
  let unpublished := Storage.getUnpublishedCaptures target (db w) in
  let q := filter (λ c, hasBlob c = true) unpublished in
  let out := run (startPublish target cfg cbs w) in
  (unpublished = [] → out.1 = Rejected (Error "No captures to publish")) ∧
  (unpublished ≠ [] →
     out.1 = Resolved (Z.of_nat (length q)) ∧ queue (pub out.2) = q) ∧
  StronglySorted seq_le q ∧
  (∀ c : Capture, c ∈ q ↔
     c ∈ captures (db w) ∧ sessionId c = target ∧
     c_published c = false ∧ hasBlob c = true).
Proof.
  intros Hpub Hproc Hrun Hvalid Hs unpublished q out.
  pose proof (validate_reads cfg w) as [(Hdb & _) _].
  rewrite Hrun in Hdb. cbn [snd] in Hdb.
  assert (out = run (bind (gets (λ w, Storage.getUnpublishedCaptures target (db w)))
            (λ captures,
               if decide (length captures = 0%nat) then throw (Error "No captures to publish")
               else
               let capturesWithBlobs := filter (λ c, hasBlob c = true) captures in
               let* now := gets clock in
               let* _ := modify (with_pub (λ _,
                  {| isPublishing := true; isPaused := false; isProcessing := false;
                     currentSession := Some session; config := Some cfg;
                     queue := capturesWithBlobs;
                     completed := 0; failed := 0;
                     total := Z.of_nat (length capturesWithBlobs);
                     p_startTime := Some now;
                     onProgress := cb_onProgress cbs;
                     onComplete := cb_onComplete cbs;
                     onError := cb_onError cbs |})) in
               let* _ := savePublishState
                  {| ps_sessionId := target;
                     publishStarted := now;
                     totalToUpload := Z.of_nat (length capturesWithBlobs);
                     ps_completed := 0; ps_failed := 0;
                     inProgress := true; completedAt := None |} in
               let session' := Storage.set_status publishing session in
               let* _ := modify (with_pub (set_currentSession (Some session'))) in
               let* _ := updateSession session' in
               ret (Z.of_nat (length capturesWithBlobs))) w1)) as ->.
  { unfold out, startPublish. rewrite run_bind. cbn [gets run]. rewrite Hpub, Hproc.
    cbn [orb]. rewrite run_bind, Hrun, Hvalid. cbn [negb].
    rewrite run_bind. unfold Publisher.getSession, Storage.getSession. cbn [gets run].
    by rewrite Hdb, Hs. }
  rewrite run_bind. cbn [gets run]. rewrite Hdb. fold unpublished.
  split_and!.
  - intros ->. done.
  - intros Hne. rewrite decide_False by (by destruct unpublished). by cbn.
  - apply filter_sorted, sort_by_seq_sorted.
  - intros c. unfold q, unpublished, Storage.getUnpublishedCaptures, Storage.by_session.
    rewrite list_elem_of_filter, elem_of_sort_by_seq, !list_elem_of_filter. tauto.
Qed.

End StartPublishFacts.

(** ** Idempotent upload of one image *)

Section UploadFacts.
Import Publisher.

(** The next request is answered by the server itself. *)
Definition faithful_next (r : Remote) : Prop :=
  match faults r with
  | [] | NoFault :: _ => True
  | _ => False
  end.

Definition pop_fault (r : Remote) : Remote := set_faults (tail (faults r)) r.

Definition has_payload (c : CaptureData) : bool := hasImageData c || hasImageBlob c.

Lemma run_fetch_faithful q w :
  faithful_next (remote w) →
  run (fetch q w) =
  (Resolved (serve q (pop_fault (remote w))).1,
   with_remote (λ _, (serve q (pop_fault (remote w))).2)
     (elapse (latency (remote w)) (log (EFetch q) w))).
Proof.
  intros Hnext. rewrite run_fetch. unfold faithful_next, pop_fault in *.
  destruct (faults (remote w)) as [|[| |] fs] eqn:Hf; try done; simpl.
  replace (set_faults [] (remote w)) with (remote w); [done|].
  destruct (remote w); simpl in *; by subst.
Qed.

Lemma serve_GetContents_present path f r :
  files r !! path = Some f →
  serve (GetContents path) r =
  ({| r_status := 200; r_body := FileBody (sha f) (raw_url path) |}, r).
Proof. intros Hf. simpl. by rewrite Hf. Qed.

Lemma serve_GetContents_absent path r :
  files r !! path = None →
  serve (GetContents path) r =
  ({| r_status := 404; r_body := MessageBody (Some "Not Found") |}, r).
Proof. intros Hf. simpl. by rewrite Hf. Qed.

(** The probe on a path that has content, answered by the server. *)
Lemma fileExists_present cfg path f w :
  files (remote w) !! path = Some f →
  faithful_next (remote w) →
  run (fileExists (Some cfg) path w) =
  (Resolved {| p_exists := true; p_sha := Some (sha f);
               p_downloadUrl := Some (raw_url path); p_error := None |},
   with_remote pop_fault (elapse (latency (remote w)) (log (EFetch (GetContents path)) w))).
Proof.
  intros Hf Hnext. unfold fileExists.
  rewrite run_try_catch, run_bind, run_fetch_faithful by done.
  rewrite (serve_GetContents_present path f) by done. cbn.
  rewrite decide_True by done. done.
Qed.

Lemma fileExists_absent cfg path w :
  files (remote w) !! path = None →
  faithful_next (remote w) →
  run (fileExists (Some cfg) path w) =
  (Resolved {| p_exists := false; p_sha := None; p_downloadUrl := None; p_error := None |},
   with_remote pop_fault (elapse (latency (remote w)) (log (EFetch (GetContents path)) w))).
Proof.
  intros Hf Hnext. unfold fileExists.
  rewrite run_try_catch, run_bind, run_fetch_faithful by done.
  rewrite (serve_GetContents_absent path) by done. cbn.
  rewrite decide_False by done. done.
Qed.

(** When the probe finds the path, [uploadImage] stops there. *)
Lemma uploadImage_skips cfg (c : CaptureData) sid f w :
  has_payload c = true →
  files (remote w) !! image_path sid c = Some f →
  faithful_next (remote w) →
  run (uploadImage (Some cfg) c sid w) =
  (Resolved {| url := Some (raw_url (image_path sid c)); skipped := true |},
   with_remote pop_fault
     (elapse (latency (remote w)) (log (EFetch (GetContents (image_path sid c))) w))).
Proof.
  intros Hpay Hf Hnext. unfold uploadImage.
  unfold has_payload in Hpay.
  destruct (hasImageData c) eqn:Hd, (hasImageBlob c) eqn:Hb; try done; cbn [negb andb];
    rewrite run_bind, (fileExists_present cfg _ f) by done; done.
Qed.

(** On a transport without faults, a call that resolves leaves content at
    the capture's path. *)
Lemma uploadImage_resolved_present cfg (c : CaptureData) sid w u w1 :
  faults (remote w) = [] →
  run (uploadImage (Some cfg) c sid w) = (Resolved u, w1) →
  is_Some (files (remote w1) !! image_path sid c) ∧ faults (remote w1) = [].
Proof.
  intros Hnf Hrun. unfold uploadImage in Hrun.
  assert (faithful_next (remote w)) as Hnext by (unfold faithful_next; by rewrite Hnf).
  assert (pop_fault (remote w) = remote w) as Hpop.
  { unfold pop_fault. rewrite Hnf. destruct (remote w); simpl in *; by subst. }
  destruct (negb (hasImageData c) && negb (hasImageBlob c)); [done|].
  rewrite run_bind in Hrun.
  destruct (files (remote w) !! image_path sid c) as [f|] eqn:Hf.
  - rewrite (fileExists_present cfg _ f) in Hrun by done. cbn in Hrun.
    simplify_eq. cbn [remote with_remote elapse log]. rewrite Hpop. by rewrite Hf, Hnf.
  - rewrite fileExists_absent in Hrun by done. cbn [p_exists] in Hrun.
    rewrite run_bind in Hrun.
    destruct (run (_ (with_remote pop_fault _))) as [[base64|e] w2] eqn:Hb64 in Hrun;
      [|done].
    assert (remote w2 = remote w) as Hrem.
    { destruct (hasImageData c); [cbn in Hb64; simplify_eq; by cbn|].
      destruct (hasImageBlob c); [|cbn in Hb64; simplify_eq; by cbn].
      destruct (imageBlob c) as [b|]; [|cbn in Hb64; simplify_eq; by cbn].
      rewrite run_try_catch in Hb64. unfold blobToBase64 in Hb64.
      destruct (decide (blob_size b = 0)); [done|]. destruct (blob_read b); [|done].
      cbn in Hb64. simplify_eq. by cbn. }
    case_decide; [done|]. rewrite run_bind in Hrun. unfold uploadFile in Hrun.
    rewrite run_bind, run_fetch in Hrun. rewrite Hrem, Hnf in Hrun.
    cbn [serve] in Hrun. rewrite Hf in Hrun. cbn in Hrun. simplify_eq. cbn.
    rewrite lookup_insert_eq. split; [by eexists|]. done.
Qed.

End UploadFacts.

(** ** The retry policy *)

Section RetryFacts.
Import Publisher.

Definition is_network (ev : Event) : Prop :=
  match ev with EFetch _ | EWaitOnline => True | _ => False end.

Lemma fetch_network q : keeps (frame is_network) (fetch q).
Proof. by apply fetch_frame. Qed.

Lemma waitForOnline_network : keeps (frame is_network) waitForOnline.
Proof.
  intros w. unfold waitForOnline. destruct (online w); simpl; [done|].
  repeat split. exists [EWaitOnline]. split; [done|]. by constructor.
Qed.

Lemma fileExists_network cfg path : keeps (frame is_network) (fileExists cfg path).
Proof.
  unfold fileExists. destruct cfg; [|apply keeps_throw; apply _].
  apply keeps_try_catch; [apply _| |intros e; apply keeps_ret; apply _].
  apply keeps_bind; [apply _|apply fetch_network|intros r].
  case_decide; [|apply keeps_ret; apply _].
  destruct (r_body r); apply keeps_ret; apply _.
Qed.

Lemma written_of_network r : keeps (frame is_network) (written_of r).
Proof. unfold written_of. destruct (r_body r); by intros w. Qed.

Lemma uploadFile_network cfg path body s :
  keeps (frame is_network) (uploadFile cfg path body s).
Proof.
  unfold uploadFile. destruct cfg; [|apply keeps_throw; apply _].
  apply keeps_bind; [apply _|apply fetch_network|intros r].
  destruct (negb (r_ok r)); [|apply written_of_network].
  destruct (_ && _); [|apply keeps_throw; apply _].
  apply keeps_bind; [apply _|apply fileExists_network|intros existing].
  destruct (p_exists existing), (p_sha existing); try (apply keeps_throw; apply _).
  apply keeps_bind; [apply _|apply fetch_network|intros r'].
  destruct (r_ok r'); [apply written_of_network|apply keeps_throw; apply _].
Qed.

Lemma uploadImage_network cfg c sid : keeps (frame is_network) (uploadImage cfg c sid).
Proof.
  unfold uploadImage.
  destruct (_ && _); [apply keeps_throw; apply _|].
  apply keeps_bind; [apply _|apply fileExists_network|intros existing].
  destruct (p_exists existing); [apply keeps_ret; apply _|].
  apply keeps_bind; [apply _| |intros base64].
  - destruct (hasImageData c); [apply keeps_ret; apply _|].
    destruct (hasImageBlob c); [|apply keeps_ret; apply _].
    destruct (imageBlob c) as [b|]; [|apply keeps_ret; apply _].
    apply keeps_try_catch; [apply _| |intros e; apply keeps_throw; apply _].
    unfold blobToBase64. case_decide; [apply keeps_throw; apply _|].
    destruct (blob_read b); [apply keeps_ret|apply keeps_throw]; apply _.
  - case_decide; [apply keeps_throw; apply _|].
    apply keeps_bind; [apply _|apply uploadFile_network|intros r].
    apply keeps_ret; apply _.
Qed.

(** The delays and the failed attempts recorded in a piece of trace. *)
Definition delays_of (evs : list Event) : list Z :=
  omap (λ ev, match ev with EDelay ms => Some ms | _ => None end) evs.

Definition failures_of (evs : list Event) : list (Z * Err) :=
  omap (λ ev, match ev with EAttemptFailed k _ e => Some (k, e) | _ => None end) evs.

Lemma delays_of_app l1 l2 : delays_of (l1 ++ l2) = delays_of l1 ++ delays_of l2.
Proof. apply omap_app. Qed.

Lemma failures_of_app l1 l2 : failures_of (l1 ++ l2) = failures_of l1 ++ failures_of l2.
Proof. apply omap_app. Qed.

Lemma network_no_delays evs : Forall is_network evs → delays_of evs = [].
Proof. induction 1 as [|[] evs Hev _ IH]; simpl in *; done. Qed.

Lemma network_no_failures evs : Forall is_network evs → failures_of evs = [].
Proof. induction 1 as [|[] evs Hev _ IH]; simpl in *; done. Qed.

(** The wait that follows the failure [e] of attempt number [attempt]: a
    fixed minute when [e] is classified as rate limiting; otherwise, when
    another attempt follows, [1000 * 2 ^ attempt] ms capped at a minute. *)
Definition wait_after (maxRetries attempt : Z) (e : Err) : list Z :=
  if isRateLimited (errorMessage_of e) then [60000]
  else if decide (attempt < maxRetries) then [Z.min (1000 * 2 ^ attempt) 60000]
  else [].

(** The waits after consecutive failures, the first being attempt
    [attempt]. *)
Fixpoint schedule (maxRetries attempt : Z) (errs : list Err) : list Z :=
  match errs with
  | [] => []
  | e :: errs' => wait_after maxRetries attempt e ++ schedule maxRetries (attempt + 1) errs'
  end.

Fixpoint numbered (attempt : Z) (errs : list Err) : list (Z * Err) :=
  match errs with
  | [] => []
  | e :: errs' => (attempt, e) :: numbered (attempt + 1) errs'
  end.

Lemma schedule_bounded maxRetries attempt errs :
  Forall (λ ms, ms ≤ 60000) (schedule maxRetries attempt errs).
Proof.
  revert attempt. induction errs as [|e errs IH]; intros attempt; simpl; [constructor|].
  apply Forall_app. split; [|apply IH]. unfold wait_after.
  destruct (isRateLimited _); [by repeat constructor|].
  case_decide; repeat constructor. lia.
Qed.

(** What a stretch of execution did: it kept the local stores and the
    publisher state and added [evs] to the trace. *)
Definition extends (w w' : World) (evs : list Event) : Prop :=
  db w' = db w ∧ pub w' = pub w ∧ trace w' = trace w ++ evs.

Lemma extends_trans w1 w2 w3 evs1 evs2 :
  extends w1 w2 evs1 → extends w2 w3 evs2 → extends w1 w3 (evs1 ++ evs2).
Proof.
  intros (? & ? & Ht1) (? & ? & Ht2). repeat split; [congruence..|].
  by rewrite Ht2, Ht1, app_assoc.
Qed.

Lemma frame_extends P w w' : frame P w w' → ∃ evs, extends w w' evs ∧ Forall P evs.
Proof. intros (? & ? & evs & ? & ?). exists evs. by repeat split. Qed.

(** [reportProgress] while a job is running. *)
Lemma run_reportProgress_running st w :
  isPublishing (pub w) = true →
  run (reportProgress st w) =
  (Resolved tt, if onProgress (pub w) then log (EProgress true st) w else w).
Proof.
  intros Hp. unfold reportProgress. rewrite run_bind. cbn. rewrite Hp.
  by destruct (onProgress (pub w)).
Qed.

(** One attempt: it resolves, with the upload's result and only network
    events, or with the error it failed with, after logging the failure and
    waiting as [wait_after] says. *)
Lemma attempt_upload_spec capture maxRetries attempt w :
  isPublishing (pub w) = true →
  ∃ out evs,
    run (attempt_upload capture maxRetries attempt w) = (Resolved out, (run (attempt_upload capture maxRetries attempt w)).2) ∧
    extends w (run (attempt_upload capture maxRetries attempt w)).2 evs ∧
    match out with
    | inl _ => failures_of evs = [] ∧ delays_of evs = []
    | inr e => failures_of evs = [(attempt, e)] ∧
               delays_of evs = wait_after maxRetries attempt e
    end.
Proof.
  intros Hpub. unfold attempt_upload. rewrite run_try_catch.
  set (body := bind (gets online) _).
  assert (keeps (frame is_network) body) as Hbody.
  { unfold body. apply keeps_bind; [apply _|apply keeps_gets; apply _|intros on].
    apply keeps_bind; [apply _| |intros _].
    { destruct on; [apply keeps_ret; apply _|apply waitForOnline_network]. }
    apply keeps_bind; [apply _|apply keeps_gets; apply _|intros p].
    destruct (currentSession p); [|apply keeps_throw; apply _].
    apply keeps_bind; [apply _|apply uploadImage_network|intros r].
    apply keeps_ret; apply _. }
  assert (ensures (λ o, ∃ r, o = inl r) body) as Hinl.
  { unfold body. apply ensures_bind; intros on. apply ensures_bind; intros _.
    apply ensures_bind; intros p. destruct (currentSession p); [|apply ensures_throw].
    apply ensures_bind; intros r. apply ensures_ret. by eexists. }
  specialize (Hbody w).
  destruct (run (body w)) as [[o|e] w1] eqn:Hrun; cbn [snd] in Hbody.
  - destruct (Hinl _ _ _ Hrun) as [r ->].
    apply frame_extends in Hbody as (evs & Hext & Hnet).
    exists (inl r), evs. cbn [snd]. split_and!; try done.
    + by apply network_no_failures.
    + by apply network_no_delays.
  - apply frame_extends in Hbody as (evs & Hext & Hnet).
    assert (isPublishing (pub w1) = true) as Hpub1.
    { destruct Hext as (_ & -> & _). done. }
    rewrite run_bind. cbn [emit modify run].
    set (w2 := log (EAttemptFailed attempt maxRetries e) w1).
    assert (extends w w2 (evs ++ [EAttemptFailed attempt maxRetries e])) as Hext2.
    { eapply extends_trans; [exact Hext|]. by repeat split. }
    assert (failures_of (evs ++ [EAttemptFailed attempt maxRetries e]) = [(attempt, e)])
      as Hfail.
    { by rewrite failures_of_app, network_no_failures. }
    assert (delays_of (evs ++ [EAttemptFailed attempt maxRetries e]) = []) as Hdel.
    { by rewrite delays_of_app, network_no_delays. }
    destruct (isRateLimited (errorMessage_of e)) eqn:Hrl.
    + rewrite run_bind, run_reportProgress_running by done.
      rewrite run_bind. cbn.
      exists (inr e). eexists. split; [done|]. split.
      * eapply extends_trans; [exact Hext2|].
        instantiate (1 := (if onProgress (pub w1)
                           then [EProgress true (Some "Rate limited. Waiting...")]
                           else []) ++ [EDelay 60000]).
        destruct (onProgress (pub w1)); repeat split; cbn; by rewrite <- ?app_assoc.
      * unfold wait_after. rewrite Hrl, failures_of_app, delays_of_app, Hfail, Hdel.
        by destruct (onProgress (pub w1)).
    + destruct (decide (attempt < maxRetries)) as [Hlt|Hge].
      * rewrite run_bind. cbn.
        exists (inr e). eexists. split; [done|]. split.
        -- eapply extends_trans; [exact Hext2|].
           instantiate (1 := [EDelay (Z.min (1000 * 2 ^ attempt) 60000)]).
           by repeat split.
        -- unfold wait_after. rewrite Hrl, decide_True by done.
           by rewrite failures_of_app, delays_of_app, Hfail, Hdel.
      * cbn. exists (inr e). eexists. split; [done|]. split.
        -- eapply extends_trans; [exact Hext2|]. instantiate (1 := []).
           repeat split. cbn. by rewrite app_nil_r.
        -- unfold wait_after. rewrite Hrl, decide_False by done.
           by rewrite failures_of_app, delays_of_app, Hfail, Hdel.
Qed.

Lemma last_cons_default {A} (x : A) l : last (x :: l) = Some (default x (last l)).
Proof.
  revert x. induction l as [|y l IH]; intros x; [done|].
  change (last (x :: y :: l)) with (last (y :: l)). rewrite IH.
  by destruct l.
Qed.

Lemma retry_loop_spec capture maxRetries n :
  ∀ attempt lastError w,
  isPublishing (pub w) = true →
  ∃ evs errs,
    extends w (run (retry_loop capture maxRetries n attempt lastError w)).2 evs ∧
    failures_of evs = numbered attempt errs ∧
    delays_of evs = schedule maxRetries attempt errs ∧
    match (run (retry_loop capture maxRetries n attempt lastError w)).1 with
    | Resolved _ => (length errs < n)%nat
    | Rejected e =>
        length errs = n ∧
        e = default (default (Error "Upload failed after all retries") lastError)
                    (last errs)
    end.
Proof.
  induction n as [|n IH]; intros attempt lastError w Hpub.
  - exists [], []. cbn. split_and!; try done. repeat split. by rewrite app_nil_r.
  - cbn [retry_loop]. rewrite run_bind.
    destruct (attempt_upload_spec capture maxRetries attempt w Hpub)
      as (out & evs1 & Hrun & Hext1 & Hout).
    rewrite Hrun. destruct out as [r|e].
    + exists evs1, []. cbn. destruct Hout as [-> ->]. split_and!; try done. lia.
    + destruct Hout as [Hf1 Hd1].
      set (w1 := (run (attempt_upload capture maxRetries attempt w)).2) in *.
      assert (isPublishing (pub w1) = true) as Hpub1.
      { destruct Hext1 as (_ & -> & _). done. }
      destruct (IH (attempt + 1) (Some e) w1 Hpub1) as (evs2 & errs2 & Hext2 & Hf2 & Hd2 & Hres).
      exists (evs1 ++ evs2), (e :: errs2). split_and!.
      * by eapply extends_trans.
      * by rewrite failures_of_app, Hf1, Hf2.
      * by rewrite delays_of_app, Hd1, Hd2.
      * destruct (run (retry_loop _ _ _ _ _ w1)) as [[r|e'] w2]; cbn in *; [lia|].
        destruct Hres as [<- ->]. split; [done|].
        rewrite last_cons_default. cbn. by destruct (last errs2).
Qed.

(** The world in which the drain loop calls [uploadWithRetry]: progress
    has just been reported for the capture. *)
Definition announced (capture : Capture) (w : World) : World :=
  (run (reportProgress
          (Some ("Uploading image " +:+ decimal (sequenceNum capture) +:+ "...")) w)).2.

(** C4 (as amended).  While a job is running, [uploadWithRetry] makes
    at most 5 attempts, numbered from 1.  After a failed attempt it waits
    exactly one minute when the failure is classified as rate limiting;
    any other failure of attempts 1 to 4 is followed, before the next
    attempt, by a wait of [1000 * 2 ^ attempt] ms capped at one minute, and
    any other failure of the 5th attempt by no wait at all.  No wait
    exceeds a minute.  It rejects only after the 5th failed attempt, with
    the error of that attempt.  The drain loop then counts the item as
    failed, takes it off the queue without marking it published, reports
    the error and goes on: the item is not in the queue any more. *)
Theorem uploadWithRetry_policy (capture : Capture) (w : World) :
  isPublishing (pub w) = true →
  let out := run (uploadWithRetry capture w) in
  (∃ evs errs,
     trace out.2 = trace w ++ evs ∧ db out.2 = db w ∧ pub out.2 = pub w ∧
     failures_of evs = numbered 1 errs ∧
     (length errs ≤ 5)%nat ∧
     delays_of evs = schedule 5 1 errs ∧
     Forall (λ ms, ms ≤ 60000) (delays_of evs) ∧
     match out.1 with
     | Resolved _ => (length errs < 5)%nat
     | Rejected e => length errs = 5%nat ∧ last errs = Some e
     end) ∧
  (∀ attempt e,
     wait_after 5 attempt e =
       if isRateLimited (errorMessage_of e) then [60000]
       else if decide (attempt < 5) then [Z.min (1000 * 2 ^ attempt) 60000]
       else []) ∧
  (∀ rest e w1,
     queue (pub w) = capture :: rest →
     online w = true →
     run (uploadWithRetry capture (announced capture w)) = (Rejected e, w1) →
     let item := run (process_item w) in
     item.1 = Resolved Continue ∧
     queue (pub item.2) = rest ∧
     failed (pub item.2) = failed (pub w) + 1 ∧
     completed (pub item.2) = completed (pub w) ∧
     db item.2 = db w ∧
     (onError (pub w) = true → last (trace item.2) = Some (EError e (Some capture)))).
Proof.
  intros Hpub out. split_and!.
  - destruct (retry_loop_spec capture 5 5 1 None w Hpub)
      as (evs & errs & (Hdb & Hp & Ht) & Hf & Hd & Hres).
    fold (uploadWithRetry capture) in *. fold out in Hdb, Hp, Ht, Hres.
    exists evs, errs. split_and!; try done.
    + destruct out.1; [lia|]. destruct Hres as [-> _]. done.
    + rewrite Hd. apply schedule_bounded.
    + destruct out.1 as [r|e]; [done|]. destruct Hres as [Hlen ->]. split; [done|].
      destruct errs; [done|]. rewrite last_cons_default. done.
  - done.
  - intros rest e w1 Hq Hon Hrun item. unfold item, process_item.
    rewrite run_bind. cbn [gets run]. rewrite Hon. rewrite run_bind. cbn [ret run negb].
    rewrite run_bind. cbn [gets run]. rewrite Hq.
    rewrite run_try_catch. unfold upload_item. rewrite run_bind.
    unfold announced in Hrun. rewrite run_reportProgress_running in * by done.
    cbn [snd] in Hrun. rewrite run_bind, Hrun.
    assert (db w1 = db w ∧ pub w1 = pub w) as [Hdb1 Hp1].
    { assert (isPublishing (pub (if onProgress (pub w)
              then log (EProgress true
                   (Some ("Uploading image " +:+ decimal (sequenceNum capture) +:+ "...")))
                   w else w)) = true) as Hpub' by (by destruct (onProgress (pub w))).
      destruct (retry_loop_spec capture 5 5 1 None _ Hpub') as (evs & errs & (Hdb & Hp & _) & _).
      fold (uploadWithRetry capture) in *. rewrite Hrun in Hdb, Hp. cbn [snd] in Hdb, Hp.
      by destruct (onProgress (pub w)). }
    unfold item_failed. rewrite run_bind. cbn [modify run]. rewrite run_bind. cbn [gets run].
    rewrite run_bind. cbn [pub with_pub onError set_queue set_failed].
    rewrite Hp1. destruct (onError (pub w)) eqn:Honerr; cbn; rewrite ?Hp1, ?Hq;
      split_and!; try done.
    by rewrite last_snoc.
Qed.

End RetryFacts.

(** ** Finishing a job *)

Section FinishFacts.
Import Publisher.

Definition any_event (ev : Event) : Prop := True.

Lemma network_any w w1 : frame is_network w w1 → frame any_event w w1.
Proof. by apply frame_mono. Qed.

Lemma reportProgress_any st : keeps (frame any_event) (reportProgress st).
Proof.
  intros w. unfold reportProgress. rewrite run_bind. cbn.
  destruct (onProgress (pub w)); [|done].
  destruct (isPublishing (pub w)); [|destruct st; [done|]];
    cbn; repeat split; eexists [_]; by split; [|repeat constructor].
Qed.

Lemma loadCoverageIndex_network cfg : keeps (frame is_network) (loadCoverageIndex cfg).
Proof.
  unfold loadCoverageIndex. destruct cfg; [|apply keeps_throw; apply _].
  apply keeps_try_catch; [apply _| |intros e; apply keeps_ret; apply _].
  apply keeps_bind; [apply _|apply fetch_network|intros r].
  destruct (r_ok r), (r_body r); apply keeps_ret; apply _.
Qed.

Lemma updateCoverageIndex_network session captures cfg :
  keeps (frame is_network) (updateCoverageIndex session captures cfg).
Proof.
  unfold updateCoverageIndex.
  apply keeps_try_catch; [apply _| |intros e; apply keeps_ret; apply _].
  apply keeps_bind; [apply _|apply loadCoverageIndex_network|intros features].
  case_decide; [apply keeps_ret; apply _|].
  apply keeps_bind; [apply _|apply fileExists_network|intros existing].
  apply keeps_bind; [apply _|apply uploadFile_network|intros r].
  apply keeps_ret; apply _.
Qed.

(** From a run that resolved to the relation the computation keeps. *)
Lemma keeps_run {A} (R : relation World) (m : M A) w a w1 :
  keeps R m → run (m w) = (Resolved a, w1) → R w w1.
Proof. intros Hk Hrun. specialize (Hk w). by rewrite Hrun in Hk. Qed.

Lemma frame_db_pub P w w1 : frame P w w1 → db w1 = db w ∧ pub w1 = pub w.
Proof. by intros (? & ? & _). Qed.

(** The steps of [finish_steps] up to the point where the final status
    is decided leave the local stores and the publisher state alone. *)
Lemma finish_steps_resolved session cfg w w' :
  run (finish_steps session cfg w) = (Resolved tt, w') →
  ∃ w6, db w6 = db w ∧ pub w6 = pub w ∧
    let session' := Storage.set_status (final_status (failed (pub w))) session in
    let w7 :=
      with_pub (set_isPublishing false)
        (with_db (Storage.savePublishState
                    {| ps_sessionId := s_id session;
                       publishStarted := default 0 (p_startTime (pub w));
                       totalToUpload := total (pub w);
                       ps_completed := completed (pub w);
                       ps_failed := failed (pub w);
                       inProgress := false;
                       completedAt := Some (clock w6) |})
           (with_db (Storage.updateSession session')
              (with_pub (λ p0, set_currentSession
                                 ((λ _, session') <$> currentSession p0) p0) w6))) in
    w' = if onComplete (pub w)
         then log (EComplete (completed (pub w)) (failed (pub w)) (total (pub w))) w7
         else w7.
Proof.
  intros Hrun. unfold finish_steps in Hrun.
  apply run_bind_resolved in Hrun as (? & w1 & H1 & Hrun).
  apply (keeps_run _ _ _ _ _ (reportProgress_any _)), frame_db_pub in H1 as [Hd1 Hp1].
  apply run_bind_resolved in Hrun as (captures & ? & [= <- <-] & Hrun).
  apply run_bind_resolved in Hrun as (existingCsv & w2 & H2 & Hrun).
  apply (keeps_run _ _ _ _ _ (fileExists_network _ _)), frame_db_pub in H2 as [Hd2 Hp2].
  apply run_bind_resolved in Hrun as (? & w3 & H3 & Hrun).
  apply (keeps_run _ _ _ _ _ (uploadFile_network _ _ _ _)), frame_db_pub in H3 as [Hd3 Hp3].
  apply run_bind_resolved in Hrun as (p3 & ? & [= <- <-] & Hrun).
  apply run_bind_resolved in Hrun as (existingMetadata & w4 & H4 & Hrun).
  apply (keeps_run _ _ _ _ _ (fileExists_network _ _)), frame_db_pub in H4 as [Hd4 Hp4].
  apply run_bind_resolved in Hrun as (? & w5 & H5 & Hrun).
  apply (keeps_run _ _ _ _ _ (uploadFile_network _ _ _ _)), frame_db_pub in H5 as [Hd5 Hp5].
  apply run_bind_resolved in Hrun as (? & w6 & H6 & Hrun).
  apply (keeps_run _ _ _ _ _ (updateCoverageIndex_network _ _ _)), frame_db_pub in H6
    as [Hd6 Hp6].
  assert (db w6 = db w) as Hdb by congruence.
  assert (pub w6 = pub w) as Hpub by congruence.
  exists w6. split_and!; [done..|].
  repeat (let Heq := fresh "Heq" in
          apply run_bind_resolved in Hrun as (? & ? & Heq & Hrun);
          cbn in Heq; simplify_eq).
  cbn in Hrun. rewrite Hpub in Hrun.
  destruct (onComplete (pub w)); cbn in Hrun; simplify_eq; cbn; by rewrite ?Hpub.
Qed.

End FinishFacts.

(** ** Concrete worlds *)

Module Examples.
Import Publisher.

Definition readable (bytes : list N) : option Blob :=
  Some {| blob_size := Z.of_nat (length bytes); blob_read := Some bytes |}.

(** A blob whose bytes cannot be read any more. *)
Definition detached : option Blob := Some {| blob_size := 3; blob_read := None |}.

Definition empty_blob : option Blob := Some {| blob_size := 0; blob_read := Some [] |}.

Definition shot (sid : string) (n : Z) (data : option (list N)) (blob : option Blob)
    : CaptureData :=
  {| sessionId := sid; sequenceNum := n; timestamp := 1000 + n;
     gps := None; accel := None;
     imageData := data; imageBlob := blob;
     imageSizeBytes := Some 3; c_published := false; publishedUrl := None |}.

Definition default_settings : Storage.SettingsInput :=
  {| Storage.in_captureInterval := None; Storage.in_imageQuality := None;
     Storage.in_imageMaxWidth := None |}.

Definition empty_db : DB :=
  {| sessions := ∅; captures := []; nextCaptureId := 1; publishStates := ∅ |}.

Definition sid : string := "session_7".

(** A database with the one session [session_7], recording. *)
Definition fresh_db : DB := (Storage.createSession 7 "walk" default_settings empty_db).2.

Definition db_with (shots : list CaptureData) : DB :=
  saveCaptures ((λ c, (2000, c)) <$> shots) fresh_db.

(** Three captures with readable blobs, except that the second is detached. *)
Definition survey_db : DB :=
  db_with [shot sid 1 None (readable [1; 2; 3]%N);
           shot sid 2 None detached;
           shot sid 3 None (readable [4; 5; 6]%N)].

Definition remote_ok : Remote :=
  {| files := ∅; next_sha := 1; token_valid := true; user_login := "surveyor";
     repo_visible := true; can_push := true;
     rate_remaining := 5000; rate_limit := 5000; rate_reset := 99;
     faults := []; latency := 20 |}.

Definition with_faults (fs : list Fault) (r : Remote) : Remote := set_faults fs r.

Definition idle : PublisherState :=
  {| isPublishing := false; isPaused := false; isProcessing := false;
     currentSession := None; config := None; queue := [];
     completed := 0; failed := 0; total := 0; p_startTime := None;
     onProgress := false; onComplete := false; onError := false |}.

Definition world (d : DB) (r : Remote) : World :=
  {| db := d; remote := r; pub := idle; trace := []; clock := 5000;
     online := true; reconnect_after := 0 |}.

Definition cfg : Config :=
  {| token := "t"; repo := "owner/repo"; branch := None; contributor := None |}.

Definition callbacks : Callbacks :=
  {| cb_onProgress := true; cb_onComplete := true; cb_onError := true |}.

Definition survey_world : World := world survey_db remote_ok.

Definition blank_session : Session :=
  {| s_id := EmptyString; s_name := EmptyString; createdAt := 0; status := stopped;
     captureCount := 0; totalBytes := 0; avgImageSize := 0%Qc; duration := 0;
     startTime := 0; lastCaptureTime := None;
     s_settings := {| captureInterval := 0; imageQuality := 0%Qc; imageMaxWidth := 0 |};
     recoveryInfo := None |}.

(** The record of [session_7] in a database, and the publisher's current
    session in a world. *)
Definition stored_session (d : DB) : Session := default blank_session (sessions d !! sid).
Definition current (w : World) : Session := default blank_session (currentSession (pub w)).

(** Captures numbered 1, 2, 4, 5, and captures numbered 1, 2, 3. *)
Definition gap_db : DB :=
  db_with ((λ n, shot sid n None (readable [1; 2; 3]%N)) <$> [1; 2; 4; 5]).
Definition steady_db : DB :=
  db_with ((λ n, shot sid n None (readable [1; 2; 3]%N)) <$> [1; 2; 3]).

(** One capture with a readable blob. *)
Definition single : CaptureData := shot sid 1 None (readable [1; 2; 3]%N).
Definition single_db : DB := db_with [single].

(** A capture without any image payload. *)
Definition bare : CaptureData := shot sid 1 None None.

(** One unpublished capture in the [ArrayBuffer] format and one whose blob
    is empty. *)
Definition mixed_db : DB :=
  db_with [shot sid 1 (Some [1; 2; 3]%N) None; shot sid 2 None empty_blob].

(** A remote on which the image of capture 1 is already there. *)
Definition remote_with_image : Remote :=
  (serve (PutContents (image_path sid single) (ImageBase64 [9]%N) None) remote_ok).2.

Definition low_quota : Remote :=
  {| files := ∅; next_sha := 1; token_valid := true; user_login := "surveyor";
     repo_visible := true; can_push := true;
     rate_remaining := 50; rate_limit := 5000; rate_reset := 99;
     faults := []; latency := 20 |}.

(** The transport answers the validation and the probe, then refuses the
    write as rate limited. *)
Definition rate_limited : Remote :=
  with_faults [NoFault; NoFault; NoFault; NoFault;
               HttpError 403 (Some "API rate limit exceeded")] remote_ok.

(** A locale that writes a time as its milliseconds. *)
#[export] Instance milliseconds : Locale := λ t, decimal t.

(** The world right after [startPublish] resolved, before the drain has
    done anything. *)
Definition started (w : World) : World := (run (startPublish sid cfg callbacks w)).2.

End Examples.

Section FinishTheorem.
Import Publisher.
#[local] Existing Instance Examples.milliseconds.

(** The error that every attempt on the detached blob of the example
    fails with. *)
Definition corrupted_2 : Err :=
  Error "Image #2 data is corrupted. This session was created with an older app version. Please delete it and create a new session.".

(** C7. When the finishing steps succeed, the stored session (and the
    publisher's copy of it) gets the status [published] if the failed count
    is 0 and [partially_published] otherwise, the job flag is cleared, and
    the completion callback, when one is registered, is called last with
    the completed, failed and total counts.  In the example three captures
    are queued, the second fails all 5 attempts and the other two succeed:
    the job ends [partially_published] with completed = 2 and failed = 1. *)
Theorem finishPublish_final_status (session : Session) (w w' : World) :
  currentSession (pub w) = Some session →
  0 ≤ failed (pub w) →
  run (finish_steps session (config (pub w)) w) = (Resolved tt, w') →
  run (finishPublish w) = (Resolved tt, w') ∧
  (∃ stored, sessions (db w') !! s_id session = Some stored ∧
     status stored =
       if decide (failed (pub w) = 0) then published else partially_published) ∧
  status <$> currentSession (pub w') =
    Some (if decide (failed (pub w) = 0) then published else partially_published) ∧
  isPublishing (pub w') = false ∧
  (onComplete (pub w) = true →
     last (trace w') =
       Some (EComplete (completed (pub w)) (failed (pub w)) (total (pub w)))) ∧
  (let out := run (publish Examples.sid Examples.cfg Examples.callbacks
                     Examples.survey_world) in
   out.1 = Resolved 3 ∧
   status <$> sessions (db out.2) !! Examples.sid = Some partially_published ∧
   completed (pub out.2) = 2 ∧ failed (pub out.2) = 1 ∧ total (pub out.2) = 3 ∧
   failures_of (trace out.2) = numbered 1 (replicate 5 corrupted_2) ∧
   last (trace out.2) = Some (EComplete 2 1 3)).
Proof.
  intros Hcur Hfailed Hrun.
  assert (final_status (failed (pub w)) =
          if decide (failed (pub w) = 0) then published else partially_published) as Hst.
  { unfold final_status. repeat case_decide; done || lia. }
  split_and!.
  - unfold finishPublish. rewrite run_bind. cbn [gets run]. rewrite Hcur.
    by rewrite run_try_catch, Hrun.
  - apply finish_steps_resolved in Hrun as (w6 & Hdb & Hpub & ->).
    exists (Storage.set_status (final_status (failed (pub w))) session).
    split; [|exact Hst].
    destruct (onComplete (pub w)); cbn; by rewrite lookup_insert_eq.
  - apply finish_steps_resolved in Hrun as (w6 & Hdb & Hpub & ->).
    destruct (onComplete (pub w)); cbn; rewrite Hpub, Hcur; cbn; by rewrite Hst.
  - apply finish_steps_resolved in Hrun as (w6 & Hdb & Hpub & ->).
    by destruct (onComplete (pub w)).
  - intros Hcb. apply finish_steps_resolved in Hrun as (w6 & Hdb & Hpub & ->).
    rewrite Hcb. cbn. by rewrite last_snoc.
  - vm_compute. done.
Qed.

End FinishTheorem.

(** ** Two tasks on one event loop

    [run] lets one computation finish on its own.  Here a second task (the
    drain launched by [startPublish], suspended somewhere) shares the event
    loop with the task in front: whenever the front task waits, the other one
    gets that much time, its timers firing in order. *)

Definition world_of {A} (s : Step A) : World :=
  match s with
  | Done _ w | Throw _ w | Await _ w _ => w
  end.

Definition with_world {A} (w : World) (s : Step A) : Step A :=
  match s with
  | Done a _ => Done a w
  | Throw e _ => Throw e w
  | Await ms _ k => Await ms w k
  end.

(** A task that has settled has nothing left to do. *)
Definition settled {A} (s : Step A) : bool :=
  match s with
  | Await _ _ _ => false
  | _ => true
  end.

(** The task [s] gets [ms] milliseconds. *)
Fixpoint advance {A} (s : Step A) (ms : Z) : Step A :=
  match s with
  | Done a w => Done a (elapse ms w)
  | Throw e w => Throw e (elapse ms w)
  | Await due w k =>
      if decide (due ≤ ms) then advance (k (elapse due w)) (ms - due)
      else Await (due - ms) (elapse ms w) k
  end.

Record Outcome (A : Type) := {
  result : Settled A;       (* how the front task settled *)
  final : World;            (* the world at that moment *)
  other : Step unit;        (* the other task at that moment *)
  waited : Z                (* the time the front task spent waiting *)
}.
Arguments result {A} _.
Arguments final {A} _.
Arguments other {A} _.
Arguments waited {A} _.

Fixpoint interleave {A} (front : Step A) (back : Step unit) (t : Z) : Outcome A :=
  match front with
  | Done a w =>
      {| result := Resolved a; final := w; other := with_world w back; waited := t |}
  | Throw e w =>
      {| result := Rejected e; final := w; other := with_world w back; waited := t |}
  | Await ms w k =>
      let back' := advance (with_world w back) ms in
      interleave (k (world_of back')) back' (t + ms)
  end.

Section Interleaving.
Import Publisher.

Lemma with_world_idemp {A} w w' (s : Step A) : with_world w (with_world w' s) = with_world w s.
Proof. by destruct s. Qed.

Lemma interleave_with_world {A} (front : Step A) w back t :
  interleave front (with_world w back) t = interleave front back t.
Proof. destruct front; simpl; by rewrite with_world_idemp. Qed.

Lemma interleave_bind {A B} (s : Step A) (f : A → M B) back t :
  interleave (bind_step s f) back t =
  let o := interleave s back t in
  match result o with
  | Resolved a => interleave (f a (final o)) (other o) (waited o)
  | Rejected e =>
      {| result := Rejected e; final := final o; other := other o; waited := waited o |}
  end.
Proof.
  revert back t. induction s as [a w|e w|ms w k IH]; intros back t; simpl.
  - by rewrite interleave_with_world.
  - done.
  - apply IH.
Qed.

(** The polling loop: it ends after at most [50 - waitCount] polls of
    100 ms, and it ends with the lock still held only when it has used all
    of them. *)
Lemma cancel_wait_interleave n :
  ∀ waitCount w back t,
  0 ≤ waitCount ≤ 50 →
  let o := interleave (cancel_wait n waitCount w) back t in
  result o = Resolved tt ∧
  ∃ polls : Z,
    waited o = t + 100 * polls ∧
    0 ≤ polls ≤ Z.min (Z.of_nat n) (50 - waitCount) ∧
    (isProcessing (pub (final o)) = true →
       polls = Z.min (Z.of_nat n) (50 - waitCount)) ∧
    (isProcessing (pub w) = false → polls = 0 ∧ final o = w).
Proof.
  induction n as [|n IH]; intros waitCount w back t Hcount.
  - cbn. split; [done|]. exists 0. split_and!; try done; lia.
  - assert (cancel_wait (S n) waitCount w =
            if isProcessing (pub w) && bool_decide (waitCount < 50)
            then Await 100 (log (EDelay 100) w) (λ w', cancel_wait n (waitCount + 1) w')
            else Done tt w) as ->.
    { cbn [cancel_wait]. unfold bind, delay. cbn [gets bind_step].
      by destruct (isProcessing (pub w) && bool_decide (waitCount < 50)). }
    destruct (isProcessing (pub w)) eqn:Hproc; cbn [andb].
    + case_bool_decide as Hlt.
      * cbn [interleave]. set (back' := advance _ 100).
        destruct (IH (waitCount + 1) (world_of back') back' (t + 100))
          as (Hres & polls & Hw & Hb & Hp & _); [lia|].
        cbn zeta in Hres, Hw, Hp. split; [exact Hres|].
        exists (polls + 1). rewrite Hw. split_and!; try done; try lia.
        intros Hfin. specialize (Hp Hfin). lia.
      * cbn. split; [done|]. exists 0. split_and!; try done; lia.
    + cbn. split; [done|]. exists 0. split_and!; try done; try lia.
      intros Hfin. congruence.
Qed.

End Interleaving.

Section CancelFacts.
Import Publisher.

(** The assignments of [cancelPublish] before it starts polling. *)
Definition cancel_request (w : World) : World :=
  with_pub (λ p0, set_queue [] (set_isPaused false (set_isPublishing false p0))) w.

(** What [cancelPublish] does once the polling is over. *)
Definition cancel_tail (sessionId : option string) (w : World) : World :=
  with_pub (λ p0, set_config None (set_currentSession None p0))
    match sessionId with
    | Some sid =>
        match sessions (db w) !! sid with
        | Some session =>
            with_db (Storage.updateSession (Storage.set_status stopped session)) w
        | None => w
        end
    | None => w
    end.

Lemma interleave_bind_ext {A B} (s : Step A) (f g : A → M B) back t :
  (∀ a w, f a w = g a w) →
  interleave (bind_step s f) back t = interleave (bind_step s g) back t.
Proof.
  intros Hfg. revert back t.
  induction s as [a w|e w|ms w k IH]; intros back t; simpl; [by rewrite Hfg|done|apply IH].
Qed.

Lemma cancelPublish_unfold w back t :
  interleave (cancelPublish w) back t =
  interleave
    (bind_step (cancel_wait 51 0 (cancel_request w))
       (λ _ w', Done tt (cancel_tail (s_id <$> currentSession (pub w)) w')))
    back t.
Proof.
  unfold cancelPublish, bind at 1. cbn [gets bind_step].
  unfold bind at 1. cbn [modify bind_step]. unfold bind at 1.
  fold (cancel_request w). apply interleave_bind_ext. intros _ w'.
  unfold bind, cancel_tail, Publisher.getSession, Publisher.updateSession, Storage.getSession.
  destruct (s_id <$> currentSession (pub w)) as [sid|]; cbn; [|done].
  by destruct (sessions (db w') !! sid).
Qed.

Lemma isProcessing_cancel_tail sid w :
  isProcessing (pub (cancel_tail sid w)) = isProcessing (pub w).
Proof.
  unfold cancel_tail. destruct sid as [sid|]; [|done].
  by destruct (sessions (db w) !! sid).
Qed.

(** The first poll: the other task is resumed in the world in which the
    job flag and the queue have been cleared. *)
Lemma cancelPublish_first_poll w back :
  isProcessing (pub w) = true →
  let seen := log (EDelay 100) (cancel_request w) in
  let back1 := advance (with_world seen back) 100 in
  interleave (cancelPublish w) back 0 =
  interleave
    (bind_step (cancel_wait 50 1 (world_of back1))
       (λ _ w', Done tt (cancel_tail (s_id <$> currentSession (pub w)) w')))
    back1 100.
Proof.
  intros Hproc seen back1. rewrite cancelPublish_unfold.
  assert (cancel_wait 51 0 (cancel_request w) =
          Await 100 seen (λ w', cancel_wait 50 (0 + 1) w')) as ->.
  { cbn [cancel_wait]. unfold bind, delay. cbn [gets bind_step].
    assert (isProcessing (pub (cancel_request w)) = true) as -> by exact Hproc.
    done. }
  done.
Qed.

(** X23.  [cancelPublish] clears the job flag, the pause flag and the queue
    and then polls the lock of the drain every 100 ms, at most 50 times.  It
    resolves after at most 5 s of waiting, and it returns with the lock still
    held only after all 50 polls.  When no drain holds the lock it returns at
    once, with the flags and the queue cleared and nothing logged; when a
    drain holds it, the drain is resumed in the world in which they are
    cleared.  Either way, when it returns the publisher has no current
    session or configuration any more and (session records being stored
    under their own id) the session that was current when it was called, if
    it is stored, has the status [stopped]. *)
Theorem cancelPublish_bounded_wait (back : Step unit) (w : World) :
  let o := interleave (cancelPublish w) back 0 in
  keyed (db (final o)) →
  result o = Resolved tt ∧
  (∃ polls : Z,
     waited o = 100 * polls ∧ 0 ≤ polls ≤ 50 ∧
     (isProcessing (pub (final o)) = true → polls = 50) ∧
     (isProcessing (pub w) = false → polls = 0)) ∧
  currentSession (pub (final o)) = None ∧
  config (pub (final o)) = None ∧
  (∀ s s1, currentSession (pub w) = Some s →
     sessions (db (final o)) !! s_id s = Some s1 → status s1 = stopped) ∧
  (isProcessing (pub w) = false →
     isPublishing (pub (final o)) = false ∧ isPaused (pub (final o)) = false ∧
     queue (pub (final o)) = [] ∧ trace (final o) = trace w) ∧
  (isProcessing (pub w) = true →
     let seen := log (EDelay 100) (cancel_request w) in
     let back1 := advance (with_world seen back) 100 in
     isPublishing (pub seen) = false ∧ isPaused (pub seen) = false ∧
     queue (pub seen) = [] ∧
     o = interleave
           (bind_step (cancel_wait 50 1 (world_of back1))
              (λ _ w', Done tt (cancel_tail (s_id <$> currentSession (pub w)) w')))
           back1 100).
Proof.
  intros o.
  assert (isProcessing (pub w) = true →
          let seen := log (EDelay 100) (cancel_request w) in
          let back1 := advance (with_world seen back) 100 in
          isPublishing (pub seen) = false ∧ isPaused (pub seen) = false ∧
          queue (pub seen) = [] ∧
          o = interleave
                (bind_step (cancel_wait 50 1 (world_of back1))
                   (λ _ w', Done tt (cancel_tail (s_id <$> currentSession (pub w)) w')))
                back1 100) as Hfirst.
  { intros Hproc seen back1. split_and!; [done..|].
    unfold o. by rewrite cancelPublish_first_poll. }
  revert Hfirst. unfold o. rewrite cancelPublish_unfold, interleave_bind.
  destruct (cancel_wait_interleave 51 0 (cancel_request w) back 0)
    as (Hres & polls & Hw & Hb & Hp & Hidle); [lia|].
  remember (interleave (cancel_wait 51 0 (cancel_request w)) back 0) as o1 eqn:Ho1.
  clear Ho1. cbn zeta. rewrite Hres. cbn [interleave result final waited other].
  intros Hfirst Hkeyed. split_and!.
  - done.
  - exists polls. rewrite isProcessing_cancel_tail. split_and!; [lia|lia|lia| |].
    + intros Hfin. specialize (Hp Hfin). lia.
    + intros Hproc. by destruct (Hidle Hproc).
  - unfold cancel_tail. by destruct (s_id <$> _) as [sid|]; [destruct (sessions _ !! sid)|].
  - unfold cancel_tail. by destruct (s_id <$> _) as [sid|]; [destruct (sessions _ !! sid)|].
  - intros s s1 Hcur Hs1. rewrite Hcur in Hkeyed, Hs1. cbn [fmap option_fmap option_map] in *.
    unfold cancel_tail in Hkeyed, Hs1.
    destruct (sessions (db (final o1)) !! s_id s) as [found|] eqn:Hfound; cbn in Hkeyed, Hs1.
    + destruct (decide (s_id found = s_id s)) as [Heq|Hne].
      * rewrite Heq, lookup_insert_eq in Hs1. by simplify_eq.
      * rewrite lookup_insert_ne in Hs1 by done.
        specialize (Hkeyed (s_id s) s1). cbn in Hkeyed.
        rewrite lookup_insert_ne in Hkeyed by done.
        specialize (Hkeyed Hs1). congruence.
    + congruence.
  - intros Hproc. destruct (Hidle Hproc) as [_ ->].
    unfold cancel_tail.
    by destruct (s_id <$> _) as [sid|]; [destruct (sessions _ !! sid)|].
  - exact Hfirst.
Qed.

End CancelFacts.

(** ** Idempotence of the per-item upload *)

Section UploadTheorem.
Import Publisher.

(** C2 (as amended).  For a capture that carries image data: when the
    probe of its deterministic path is answered by the server and the path
    has content, [uploadImage] sends nothing but that probe, writes no
    remote file and resolves with [skipped = true]; so, on a transport
    without faults, after a first call that resolved a second call for the
    same capture finds the path, writes nothing and reports skipped. *)
Theorem uploadImage_idempotent (cfg : Config) (c : CaptureData) (sid : string) (w : World) :
  has_payload c = true →
  (∀ f, files (remote w) !! image_path sid c = Some f →
        faithful_next (remote w) →
        let out := run (uploadImage (Some cfg) c sid w) in
        out.1 = Resolved {| url := Some (raw_url (image_path sid c)); skipped := true |} ∧
        files (remote out.2) = files (remote w) ∧
        db out.2 = db w ∧
        trace out.2 = trace w ++ [EFetch (GetContents (image_path sid c))]) ∧
  (faults (remote w) = [] →
   ∀ u w1, run (uploadImage (Some cfg) c sid w) = (Resolved u, w1) →
        let again := run (uploadImage (Some cfg) c sid w1) in
        again.1 = Resolved {| url := Some (raw_url (image_path sid c)); skipped := true |} ∧
        files (remote again.2) = files (remote w1) ∧
        trace again.2 = trace w1 ++ [EFetch (GetContents (image_path sid c))]).
Proof.
  intros Hpay. split.
  - intros f Hf Hnext out. unfold out.
    rewrite (uploadImage_skips cfg c sid f) by done. by cbn.
  - intros Hnf u w1 Hrun again.
    destruct (uploadImage_resolved_present cfg c sid w u w1 Hnf Hrun) as [[f Hf] Hnf1].
    assert (faithful_next (remote w1)) as Hnext by (unfold faithful_next; by rewrite Hnf1).
    unfold again. rewrite (uploadImage_skips cfg c sid f) by done. by cbn.
Qed.

End UploadTheorem.

(** ** Worked examples *)

Section Worked.
Import Storage Publisher Examples.

Lemma settled_pair {A} (p : Settled A * World) a : p.1 = Resolved a → p = (Resolved a, p.2).
Proof. destruct p as [r w']. simpl. intros Hr. by rewrite Hr. Defined.

Lemma keyed_decide d :
  bool_decide (map_Forall (λ k s, s_id s = k) (sessions d)) = true → keyed d.
Proof. intros H. apply bool_decide_eq_true_1 in H. exact H. Defined.

(** The drain launched by [startPublish] in world [w], [ms] milliseconds
    later. *)
Definition drain_after (ms : Z) (w : World) : Step unit :=
  advance (processQueue (started w)) ms.

(** Three captures saved into a fresh session: the aggregates agree. *)
Lemma saveCapture_aggregates_invariant_witness :
  aggregates_ok sid fresh_db ∧ aggregates_ok sid survey_db.
Proof.
  assert (aggregates_ok sid fresh_db) as Hfresh.
  { exists (stored_session fresh_db). split_and!; vm_compute; reflexivity. }
  split; [exact Hfresh|].
  exact (proj1 (saveCapture_aggregates_invariant sid fresh_db _ Hfresh)).
Defined.

(** A capture for a session nobody created is stored without complaint. *)
Lemma saveCapture_orphan_witness :
  sessions empty_db !! sessionId (shot "session_0" 1 None None) = None ∧
  sessionSequence_taken (shot "session_0" 1 None None) (captures empty_db) = false ∧
  ∃ d', saveCapture 2000 (shot "session_0" 1 None None) empty_db = (Resolved 1, d') ∧
        captures d' = [ {| c_id := 1; c_data := shot "session_0" 1 None None |} ] ∧
        sessions d' = ∅.
Proof.
  assert (sessions empty_db !! sessionId (shot "session_0" 1 None None) = None) as H1
    by reflexivity.
  assert (sessionSequence_taken (shot "session_0" 1 None None) (captures empty_db) = false)
    as H2 by reflexivity.
  split; [exact H1|]. split; [exact H2|].
  destruct (saveCapture_orphan 2000 _ empty_db H1 H2) as (d' & Hsave & Hc & Hs & _).
  exists d'. split; [exact Hsave|]. split; [exact Hc|exact Hs].
Defined.

(** Captures 1, 2, 4, 5 of a recording session: one gap, reported. *)
Lemma checkForRecovery_active_session_witness :
  keyed gap_db ∧
  sessions gap_db !! s_id (stored_session gap_db) = Some (stored_session gap_db) ∧
  status (stored_session gap_db) = recording ∧
  status (recovered gap_db (stored_session gap_db)) = paused ∧
  recovered gap_db (stored_session gap_db) ∈ (checkForRecovery gap_db).1 ∧
  findSequenceGaps (getSessionCaptures sid gap_db)
    = [ {| after := 2; before := 4; missing := 1 |} ].
Proof.
  assert (keyed gap_db) as Hk by (apply keyed_decide; vm_compute; reflexivity).
  assert (sessions gap_db !! s_id (stored_session gap_db) = Some (stored_session gap_db))
    as Hs by (vm_compute; reflexivity).
  assert (status (stored_session gap_db) = recording) as Hst by (vm_compute; reflexivity).
  destruct (checkForRecovery_active_session gap_db (stored_session gap_db) Hk Hs
              (or_introl Hst)) as (_ & _ & _ & Hp & _ & Hin & _ & H1245).
  split_and!; [exact Hk|exact Hs|exact Hst|exact Hp|exact Hin|].
  apply H1245. vm_compute. reflexivity.
Defined.

(** A recording session whose captures 1, 2, 3 have no gap is recovered
    without any [recoveryInfo]. *)
Lemma checkForRecovery_without_gaps :
  status <$> sessions steady_db !! sid = Some recording ∧
  findSequenceGaps (getSessionCaptures sid steady_db) = [] ∧
  (λ s, (s_id s, status s, recoveryInfo s)) <$> (checkForRecovery steady_db).1
    = [ (sid, paused, None) ] ∧
  recoveryInfo <$> sessions (checkForRecovery steady_db).2 !! sid = Some None.
Proof. vm_compute. done. Qed.

(** Uploading the same capture twice over a transport without faults:
    the first call writes the image, the second one is skipped. *)
Lemma uploadImage_idempotent_witness :
  has_payload single = true ∧
  (run (uploadImage (Some cfg) single sid (world single_db remote_ok))).1
    = Resolved {| url := Some (raw_url (image_path sid single)); skipped := false |} ∧
  let w1 := (run (uploadImage (Some cfg) single sid (world single_db remote_ok))).2 in
  (run (uploadImage (Some cfg) single sid w1)).1
    = Resolved {| url := Some (raw_url (image_path sid single)); skipped := true |} ∧
  files (remote (run (uploadImage (Some cfg) single sid w1)).2) = files (remote w1).
Proof.
  assert (has_payload single = true) as Hpay by reflexivity.
  assert ((run (uploadImage (Some cfg) single sid (world single_db remote_ok))).1
          = Resolved {| url := Some (raw_url (image_path sid single)); skipped := false |})
    as Hfirst by (vm_compute; reflexivity).
  split; [exact Hpay|]. split; [exact Hfirst|]. intros w1.
  destruct (uploadImage_idempotent cfg single sid (world single_db remote_ok) Hpay)
    as [_ Htwice].
  destruct (Htwice eq_refl _ w1 (settled_pair _ _ Hfirst)) as (Hagain & Hfiles & _).
  split; [exact Hagain|exact Hfiles].
Defined.

(** Two ways in which a path that has content does not lead to
    [skipped = true]: a capture without image data is rejected before the
    probe is made, and when the probe itself fails the image is sent and,
    after the 422 answer, written over the existing one. *)
Lemma uploadImage_not_always_skipped :
  is_Some (files remote_with_image !! image_path sid bare) ∧
  (run (uploadImage (Some cfg) bare sid (world single_db remote_with_image))).1
    = Rejected (Error "Capture #1 has no valid image data") ∧
  let flaky := with_faults [NetworkError "Failed to fetch"] remote_with_image in
  let out := run (uploadImage (Some cfg) single sid (world single_db flaky)) in
  out.1 = Resolved {| url := Some (raw_url (image_path sid single)); skipped := false |} ∧
  content <$> files (remote out.2) !! image_path sid single
    = Some (ImageBase64 [1; 2; 3]%N) ∧
  content <$> files remote_with_image !! image_path sid single
    = Some (ImageBase64 [9]%N) ∧
  trace out.2 =
    [ EFetch (GetContents (image_path sid single));
      EFetch (PutContents (image_path sid single) (ImageBase64 [1; 2; 3]%N) None);
      EFetch (GetContents (image_path sid single));
      EFetch (PutContents (image_path sid single) (ImageBase64 [1; 2; 3]%N) (Some 1%N)) ].
Proof. split; [by eexists|]. vm_compute. done. Qed.

(** C3: the queue build on a session whose unpublished captures are one
    in the [ArrayBuffer] format (which [uploadImage] accepts) and one with
    an empty blob.  [startPublish] does not fail: it resolves with total 0
    and an empty queue, the capture that has image data is left out, and the
    drain it launches goes straight to finishing and marks the session
    [published] with nothing uploaded. *)
Theorem startPublish_empty_queue_not_rejected :
  (λ c : Capture, (sequenceNum c, c_published c, has_payload c))
    <$> getUnpublishedCaptures sid mixed_db
    = [ (1, false, true); (2, false, false) ] ∧
  (run (startPublish sid cfg callbacks (world mixed_db remote_ok))).1 = Resolved 0 ∧
  queue (pub (started (world mixed_db remote_ok))) = [] ∧
  let out := run (publish sid cfg callbacks (world mixed_db remote_ok)) in
  out.1 = Resolved 0 ∧
  status <$> sessions (db out.2) !! sid = Some published ∧
  (λ c : Capture, c_published c) <$> captures (db out.2) = [false; false] ∧
  completed (pub out.2) = 0 ∧ failed (pub out.2) = 0.
Proof. vm_compute. done. Qed.

(** The detached blob of the example fails five times, with the waits
    2 s, 4 s, 8 s, 16 s in between, and the drain moves on. *)
Lemma uploadWithRetry_policy_witness :
  let w := started survey_world in
  let c := {| c_id := 2; c_data := shot sid 2 None detached |} in
  isPublishing (pub w) = true ∧
  (∃ evs errs,
     trace (run (uploadWithRetry c w)).2 = trace w ++ evs ∧
     (length errs ≤ 5)%nat ∧
     delays_of evs = schedule 5 1 errs ∧
     Forall (λ ms, ms ≤ 60000) (delays_of evs)) ∧
  (run (uploadWithRetry c w)).1 = Rejected corrupted_2 ∧
  delays_of (trace (run (uploadWithRetry c w)).2) = [2000; 4000; 8000; 16000].
Proof.
  intros w c.
  assert (isPublishing (pub w) = true) as Hpub by (vm_compute; reflexivity).
  split; [exact Hpub|].
  destruct (uploadWithRetry_policy c w Hpub) as [(evs & errs & Ht & _ & _ & _ & Hlen & Hd & Hb & _) _].
  split; [exists evs, errs; split_and!; [exact Ht|exact Hlen|exact Hd|exact Hb]|].
  split; vm_compute; reflexivity.
Defined.

(** Five failures that are not rate limiting are followed by four waits:
    the failure of the last attempt propagates at once.  And once the job
    has been cancelled, a rate-limited failure is followed by no cooldown:
    reporting progress throws, and that error ends the retries after one
    attempt. *)
Lemma uploadWithRetry_no_wait_after_last_attempt :
  let w := started survey_world in
  let c := {| c_id := 2; c_data := shot sid 2 None detached |} in
  let evs := drop (length (trace w)) (trace (run (uploadWithRetry c w)).2) in
  (isPublishing (pub w) = true ∧
   failures_of evs = numbered 1 (replicate 5 corrupted_2) ∧
   isRateLimited (errorMessage_of corrupted_2) = false ∧
   delays_of evs = [2000; 4000; 8000; 16000] ∧
   last evs = Some (EAttemptFailed 5 5 corrupted_2) ∧
   (run (uploadWithRetry c w)).1 = Rejected corrupted_2) ∧
  let w := cancel_request (started (world single_db rate_limited)) in
  let c := {| c_id := 1; c_data := single |} in
  let evs := drop (length (trace w)) (trace (run (uploadWithRetry c w)).2) in
  isPublishing (pub w) = false ∧
  failures_of evs = [ (1, Error "API rate limit exceeded") ] ∧
  isRateLimited "API rate limit exceeded" = true ∧
  delays_of evs = [] ∧
  (run (uploadWithRetry c w)).1
    = Rejected (Error "Cannot set properties of null (setting 'status')").
Proof. vm_compute. done. Qed.

(** The finishing steps after the drain of the example. *)
Lemma finishPublish_final_status_witness :
  let w := (run (drain 4 (with_pub (set_isProcessing true) (started survey_world)))).2 in
  let w' := (run (finish_steps (current w) (config (pub w)) w)).2 in
  currentSession (pub w) = Some (current w) ∧
  0 ≤ failed (pub w) ∧
  run (finish_steps (current w) (config (pub w)) w) = (Resolved tt, w') ∧
  failed (pub w) = 1 ∧
  (∃ stored, sessions (db w') !! s_id (current w) = Some stored ∧
     status stored = partially_published) ∧
  isPublishing (pub w') = false.
Proof.
  intros w w'.
  assert (currentSession (pub w) = Some (current w)) as Hcur by (vm_compute; reflexivity).
  assert (failed (pub w) = 1) as Hone by (vm_compute; reflexivity).
  assert (0 ≤ failed (pub w)) as Hfailed by (rewrite Hone; lia).
  assert (run (finish_steps (current w) (config (pub w)) w) = (Resolved tt, w')) as Hrun.
  { unfold w'.
    apply (settled_pair (run (finish_steps (current w) (config (pub w)) w)) tt).
    vm_compute. reflexivity. }
  destruct (finishPublish_final_status (current w) w w' Hcur Hfailed Hrun)
    as (_ & (stored & Hstored & Hstatus) & _ & Hflag & _).
  split_and!; [exact Hcur|exact Hfailed|exact Hrun|exact Hone| |exact Hflag].
  exists stored. split; [exact Hstored|]. rewrite Hstatus, Hone. reflexivity.
Defined.

(** Remaining quota 50: [startPublish] rejects and nothing is written. *)
Lemma startPublish_rejects_invalid_witness :
  let w := world single_db low_quota in
  isPublishing (pub w) = false ∧
  isProcessing (pub w) = false ∧
  (run (startPublish sid cfg callbacks w)).1
    = Rejected (Error "Low API quota: 50 remaining. Resets at 99000") ∧
  files (remote (run (startPublish sid cfg callbacks w)).2) = files (remote w) ∧
  trace (run (startPublish sid cfg callbacks w)).2
    = [EFetch GetUser; EFetch GetRepo; EFetch GetRateLimit].
Proof.
  intros w.
  destruct (startPublish_rejects_invalid sid cfg callbacks w eq_refl eq_refl)
    as (v & w1 & Hv & Hinvalid & Hreasons).
  destruct Hreasons as (_ & _ & Hquota); [reflexivity|].
  destruct Hquota as [Hno Herrs]; [reflexivity..|].
  destruct (Hinvalid Hno) as (_ & Hrun & _ & _ & Hfiles & _).
  rewrite Herrs in Hrun. rewrite Hrun. cbn [fst snd].
  split_and!; [reflexivity|reflexivity|vm_compute; reflexivity|exact Hfiles|].
  assert (w1 = (run (validateGitHubAccess cfg w)).2) as -> by (by rewrite Hv).
  vm_compute. reflexivity.
Defined.

(** The drain is in its 500 ms pause after an upload when
    [cancelPublish] is called: five polls later the lock is free and the
    session is stopped. *)
Lemma cancelPublish_bounded_wait_witness :
  let back := drain_after 100 (world single_db remote_ok) in
  let o := interleave (cancelPublish (world_of back)) back 0 in
  keyed (db (final o)) ∧
  result o = Resolved tt ∧
  waited o = 500 ∧
  isProcessing (pub (final o)) = false ∧
  settled (other o) = true ∧
  currentSession (pub (final o)) = None ∧
  status <$> sessions (db (final o)) !! sid = Some stopped.
Proof.
  intros back o.
  assert (keyed (db (final o))) as Hk by (apply keyed_decide; vm_compute; reflexivity).
  destruct (cancelPublish_bounded_wait back (world_of back) Hk)
    as (Hres & _ & Hcur & _ & _).
  split_and!; [exact Hk|exact Hres| | | |exact Hcur|]; vm_compute; reflexivity.
Defined.

(** The drain is in the one-minute cooldown after a rate-limited write
    when [cancelPublish] is called: it polls for 5 s and returns while the
    drain is still suspended and holds the lock.  The session is stopped; the
    drain goes on for four more attempts afterwards and reports the item as
    failed, without writing to the local stores. *)
Lemma cancelPublish_returns_before_drain_settles :
  let back := drain_after 1000 (world single_db rate_limited) in
  let o := interleave (cancelPublish (world_of back)) back 0 in
  isProcessing (pub (world_of back)) = true ∧
  settled back = false ∧
  result o = Resolved tt ∧
  waited o = 5000 ∧
  settled (other o) = false ∧
  isProcessing (pub (final o)) = true ∧
  status <$> sessions (db (final o)) !! sid = Some stopped ∧
  let later := (run (other o)).2 in
  failures_of (drop (length (trace (final o))) (trace later))
    = [ (2, null_session); (3, null_session); (4, null_session); (5, null_session) ] ∧
  failed (pub later) = 1 ∧
  captures (db later) = captures (db (final o)) ∧
  status <$> sessions (db later) !! sid = Some stopped.
Proof. vm_compute. done. Qed.

(** A remote that answers every request after two seconds. *)
Definition slow_remote : Remote :=
  {| files := ∅; next_sha := 1; token_valid := true; user_login := "surveyor";
     repo_visible := true; can_push := true;
     rate_remaining := 5000; rate_limit := 5000; rate_reset := 99;
     faults := []; latency := 2000 |}.

(** C5: [cancelPublish] is called while [finishPublish] is uploading the
    documents of the session over the slow remote (the one image is
    published, the queue is empty, the probe for [data.csv] is under way).
    After its 50 polls [cancelPublish] returns while the drain still holds
    the lock; the session is [stopped] then and the publish state says that
    the job is in progress.  [finishPublish], which looks at the job flag
    nowhere after it has started, goes on: it writes [metadata.json], reads
    the coverage index, stores the session as [published] over [stopped],
    saves the publish state as completed and calls [onComplete]. *)
Theorem cancelPublish_overwritten_by_finishPublish :
  let back := drain_after 5000 (world single_db slow_remote) in
  let o := interleave (cancelPublish (world_of back)) back 0 in
  let later := (run (other o)).2 in
  (isPublishing (pub (world_of back)) = true ∧ isProcessing (pub (world_of back)) = true ∧
   queue (pub (world_of back)) = [] ∧ completed (pub (world_of back)) = 1 ∧
   last (trace (world_of back)) = Some (EFetch (GetContents "sessions/session_7/data.csv"))) ∧
  (result o = Resolved tt ∧ waited o = 5000 ∧
   isPublishing (pub (final o)) = false ∧ currentSession (pub (final o)) = None ∧
   isProcessing (pub (final o)) = true ∧ settled (other o) = false ∧
   status <$> sessions (db (final o)) !! sid = Some stopped ∧
   inProgress <$> getPublishState sid (db (final o)) = Some true ∧
   files (remote (final o)) !! "sessions/session_7/metadata.json" = None) ∧
  drop (length (trace (final o))) (trace later)
    = [ EFetch (PutContents "sessions/session_7/metadata.json"
                  (MetadataDocument sid 1 1 0) None);
        EFetch GetRawIndex; EComplete 1 0 1 ] ∧
  status <$> sessions (db later) !! sid = Some published ∧
  (λ st, (inProgress st, completedAt st)) <$> getPublishState sid (db later)
    = Some (false, Some 25500) ∧
  is_Some (files (remote later) !! "sessions/session_7/metadata.json") ∧
  captures (db later) = captures (db (final o)) ∧
  isProcessing (pub later) = false.
Proof. vm_compute. split_and!; try done; by eexists. Qed.

End Worked.

(** ** Invariants of the store *)

Section StoreInvariants.
Import Storage.

(** The unique index [sessionSequence]. *)
Definition unique_sequence (d : DB) : Prop :=
  NoDup ((λ c : Capture, (sessionId c, sequenceNum c)) <$> captures d).

(** The primary keys of [captures]: in ascending order, all below the key
    generator's next value. *)
Definition keys_ok (d : DB) : Prop :=
  StronglySorted Z.lt (c_id <$> captures d) ∧
  Forall (λ c : Capture, c_id c < nextCaptureId d) (captures d).

Definition consistent_store (d : DB) : Prop :=
  keyed d ∧ keys_ok d ∧ unique_sequence d.

(** The calls of the module that write. *)
Inductive StoreOp :=
| CreateSession (now : Time) (name : string) (st : SettingsInput)
| UpdateSession (s : Session)
| DeleteSession (sid : string)
| DeleteAllSessions
| SaveCapture (now : Time) (c : CaptureData)
| MarkCapturePublished (captureId : Z) (publishedUrl : option string)
| SavePublishState (st : PublishState)
| CheckForRecovery.

Definition perform (d : DB) (op : StoreOp) : DB :=
  match op with
  | CreateSession now name st => (createSession now name st d).2
  | UpdateSession s => updateSession s d
  | DeleteSession sid => deleteSession sid d
  | DeleteAllSessions => deleteAllSessions d
  | SaveCapture now c => (saveCapture now c d).2
  | MarkCapturePublished captureId url => (markCapturePublished captureId url d).2
  | SavePublishState st => savePublishState st d
  | CheckForRecovery => (checkForRecovery d).2
  end.

Lemma keyed_insert s d : keyed d → keyed (updateSession s d).
Proof.
  intros Hk k s'. unfold updateSession, set_sessions. cbn [sessions].
  destruct (decide (k = s_id s)) as [->|Hne].
  - rewrite lookup_insert_eq. by intros [= <-].
  - rewrite lookup_insert_ne by done. apply Hk.
Qed.

Lemma keyed_same_sessions d d' : sessions d' = sessions d → keyed d → keyed d'.
Proof. unfold keyed. by intros ->. Qed.

Lemma checkForRecovery_db d :
  (checkForRecovery d).2
  = foldl (λ d1 session, updateSession (recovered d session) d1) d
      (getSessionsByStatus [recording; publishing] d).
Proof. unfold checkForRecovery. by rewrite (checkForRecovery_loop d). Qed.

Lemma updates_frame (f : Session → Session) l d :
  let d' := foldl (λ d1 session, updateSession (f session) d1) d l in
  captures d' = captures d ∧ nextCaptureId d' = nextCaptureId d ∧
  publishStates d' = publishStates d ∧ (keyed d → keyed d').
Proof.
  revert d. induction l as [|x l IH]; intros d; [done|]. cbn [foldl].
  destruct (IH (updateSession (f x) d)) as (Hc & Hn & Hp & Hk).
  split_and!; [by rewrite Hc|by rewrite Hn|by rewrite Hp|].
  intros Hkeyed. by apply Hk, keyed_insert.
Qed.

Lemma markCapturePublished_cases captureId url d :
  (markCapturePublished captureId url d = (Rejected (Error "Capture not found"), d) ∧
   ∀ c : Capture, c ∈ captures d → c_id c ≠ captureId)
  ∨
  (∃ (i : nat) (c : Capture),
     captures d !! i = Some c ∧ c_id c = captureId ∧
     (∀ (j : nat) (x : Capture), captures d !! j = Some x → (j < i)%nat → c_id x ≠ captureId) ∧
     markCapturePublished captureId url d
     = (Resolved (set_published url c),
        set_captures (λ cs, <[i := set_published url c]> cs) d)).
Proof.
  unfold markCapturePublished.
  destruct (list_find _ (captures d)) as [[i c]|] eqn:Hfind.
  - right. apply list_find_Some in Hfind as (Hi & Hid & Hbefore).
    exists i, c. split_and!; try done.
  - left. split; [done|]. intros c Hc.
    apply list_find_None in Hfind. by eapply Forall_forall in Hfind.
Qed.

Lemma fmap_insert_same {A B} (f : A → B) (l : list A) i x y :
  l !! i = Some x → f y = f x → f <$> <[i := y]> l = f <$> l.
Proof.
  intros Hi Hf. rewrite list_fmap_insert, Hf.
  apply list_insert_id. by rewrite list_lookup_fmap, Hi.
Qed.

Lemma unique_sequence_free c d :
  unique_sequence d → sessionSequence_taken c (captures d) = false →
  NoDup ((λ c : Capture, (sessionId c, sequenceNum c))
         <$> (captures d ++ [ {| c_id := nextCaptureId d; c_data := c |} ])).
Proof.
  intros Hu Hfree. rewrite fmap_app. apply NoDup_app. split_and!; [done| |].
  - intros p Hp Hin. cbn in Hin. apply list_elem_of_singleton in Hin. subst p.
    apply list_elem_of_fmap in Hp as (c' & Heq & Hc'). cbn in Heq.
    unfold sessionSequence_taken in Hfree. apply bool_decide_eq_false in Hfree.
    apply Hfree, Exists_exists. exists c'. split; [done|]. by simplify_eq.
  - cbn. apply NoDup_singleton.
Qed.

Lemma StronglySorted_snoc_lt (l : list Z) (x : Z) :
  StronglySorted Z.lt l → Forall (λ y, y < x) l → StronglySorted Z.lt (l ++ [x]).
Proof.
  induction 1 as [|y l Hs IH Hall]; intros Hlt; cbn.
  - repeat constructor.
  - apply Forall_cons in Hlt as [Hy Hlt]. constructor; [by apply IH|].
    apply Forall_app. split; [done|]. by repeat constructor.
Qed.

Lemma StronglySorted_filter_lt (P : Capture → Prop) `{!∀ c, Decision (P c)} (l : list Capture) :
  StronglySorted Z.lt (c_id <$> l) → StronglySorted Z.lt (c_id <$> filter P l).
Proof.
  induction l as [|c l IH]; [done|]. rewrite fmap_cons. intros Hs.
  apply StronglySorted_inv in Hs as [Hs Hall].
  rewrite filter_cons. case_decide; [|by apply IH]. rewrite fmap_cons.
  constructor; [by apply IH|]. apply Forall_fmap, Forall_forall. intros x Hx.
  apply list_elem_of_filter in Hx as [_ Hx]. rewrite Forall_forall in Hall.
  cbn. apply Hall, list_elem_of_fmap. by exists x.
Qed.

Lemma Forall_filter_sub {A} (P Q : A → Prop) `{!∀ x, Decision (Q x)} (l : list A) :
  Forall P l → Forall P (filter Q l).
Proof.
  rewrite !Forall_forall. intros Hall x Hx%list_elem_of_filter. apply Hall, Hx.
Qed.

Lemma NoDup_fmap_filter {A B} (f : A → B) (Q : A → Prop) `{!∀ x, Decision (Q x)}
    (l : list A) :
  NoDup (f <$> l) → NoDup (f <$> filter Q l).
Proof.
  induction l as [|x l IH]; [done|]. rewrite fmap_cons, NoDup_cons. intros [Hx Hl].
  rewrite filter_cons. case_decide; [|by apply IH].
  rewrite fmap_cons, NoDup_cons. split; [|by apply IH].
  intros (y & Hfy & Hy%list_elem_of_filter)%list_elem_of_fmap.
  apply Hx, list_elem_of_fmap. exists y. split; [done|apply Hy].
Qed.

Lemma consistent_perform d op : consistent_store d → consistent_store (perform d op).
Proof.
  intros (Hkeyed & [Hsorted Hbelow] & Huniq).
  destruct op as [now name st|s|sid| |now c|captureId url|st| ]; cbn [perform].
  - (* createSession *)
    unfold createSession, transaction. cbn [s_id].
    destruct (sessions d !! _) eqn:Hfree; cbn [snd]; [done|].
    split_and!; try done. intros k s'. cbn [sessions set_sessions].
    destruct (decide (k = "session_" +:+ decimal now)) as [->|Hne].
    + rewrite lookup_insert_eq. by intros [= <-].
    + rewrite lookup_insert_ne by done. apply Hkeyed.
  - (* updateSession *)
    split_and!; try done. by apply keyed_insert.
  - (* deleteSession *)
    split_and!.
    + intros k s'. cbn. intros Hk%lookup_delete_Some. apply Hkeyed, Hk.
    + split; cbn.
      * by apply StronglySorted_filter_lt.
      * by apply Forall_filter_sub.
    + unfold unique_sequence. cbn. by apply NoDup_fmap_filter.
  - (* deleteAllSessions *)
    split_and!; [by intros k s'|split; constructor|constructor].
  - (* saveCapture *)
    destruct (saveCapture_cases now c d)
      as [[_ ->]|[Hfree (d' & -> & Hc & Hn & _ & Hs)]]; cbn [snd]; [done|].
    split_and!.
    + intros k s'. rewrite Hs. destruct (sessions d !! sessionId c) as [s|] eqn:Hfound;
        [|apply Hkeyed].
      destruct (decide (k = sessionId c)) as [->|Hne].
      * rewrite lookup_insert_eq. intros [= <-]. cbn. by apply Hkeyed.
      * rewrite lookup_insert_ne by done. apply Hkeyed.
    + split; rewrite Hc, ?Hn.
      * rewrite fmap_app. apply StronglySorted_snoc_lt; [done|].
        by apply Forall_fmap.
      * apply Forall_app. split.
        -- eapply Forall_impl; [exact Hbelow|]. cbn. intros; lia.
        -- repeat constructor. cbn. lia.
    + unfold unique_sequence. rewrite Hc. by apply unique_sequence_free.
  - (* markCapturePublished *)
    destruct (markCapturePublished_cases captureId url d)
      as [[-> _]|(i & c & Hi & Hid & _ & ->)]; cbn [snd]; [done|].
    split_and!; [done| |].
    + split; cbn [captures set_captures nextCaptureId].
      * by rewrite (fmap_insert_same _ _ _ c).
      * apply Forall_insert; [done|]. cbn. by eapply Forall_lookup_1 in Hbelow.
    + unfold unique_sequence. cbn [captures set_captures].
      by rewrite (fmap_insert_same _ _ _ c).
  - (* savePublishState *)
    done.
  - (* checkForRecovery *)
    rewrite checkForRecovery_db.
    destruct (updates_frame (recovered d)
                (getSessionsByStatus [recording; publishing] d) d) as (Hc & Hn & _ & Hk).
    split_and!; [by apply Hk|split; by rewrite Hc, ?Hn|unfold unique_sequence; by rewrite Hc].
Qed.

(** X1.  Whatever calls of [createSession], [updateSession],
    [deleteSession], [deleteAllSessions], [saveCapture],
    [markCapturePublished], [savePublishState] and [checkForRecovery] are
    made, in whatever order, a consistent store stays consistent: every
    session is stored under its own id, the keys of the captures are in ascending order
    and below the next value of the key generator, and no two captures share
    a session id and a sequence number. *)
Theorem storage_keeps_store_consistent (ops : list StoreOp) (d : DB) :
  consistent_store d → consistent_store (foldl perform d ops).
Proof.
  revert d. induction ops as [|op ops IH]; intros d Hd; [done|].
  cbn [foldl]. by apply IH, consistent_perform.
Qed.

End StoreInvariants.

(** ** Arithmetic of the sequence gaps *)

Section GapArithmetic.
Import Storage.

Lemma sum_missing_from acc gs :
  foldl (λ sum g, sum + missing g) acc gs = acc + sum_missing gs.
Proof.
  unfold sum_missing. revert acc. induction gs as [|g gs IH]; intros acc; simpl; [lia|].
  rewrite (IH (acc + missing g)), (IH (0 + missing g)). lia.
Qed.

Lemma sum_missing_app gs1 gs2 : sum_missing (gs1 ++ gs2) = sum_missing gs1 + sum_missing gs2.
Proof.
  unfold sum_missing at 1. rewrite foldl_app. fold (sum_missing gs1).
  by rewrite sum_missing_from.
Qed.

Lemma sum_missing_gaps_after prev rest :
  sum_missing (gaps_after prev rest)
  = sequenceNum (default prev (last rest)) - sequenceNum prev - Z.of_nat (length rest).
Proof.
  revert prev. induction rest as [|c rest IH]; intros prev.
  - cbn. lia.
  - cbn [gaps_after]. rewrite sum_missing_app, IH, last_cons_default. cbn [default length].
    case_decide; unfold sum_missing; cbn; lia.
Qed.

(** X2.  For a list of captures that is not empty, in whatever order,
    the [missing] fields of the gaps that [findSequenceGaps] reports add up
    to the length of the range from the first sequence number to the last,
    less the number of captures. *)
Theorem findSequenceGaps_total (first : Capture) (rest : list Capture) :
  foldl (λ sum g, sum + missing g) 0 (findSequenceGaps (first :: rest))
  = sequenceNum (default first (last rest)) - sequenceNum first + 1
    - Z.of_nat (length (first :: rest)).
Proof.
  cbn [findSequenceGaps]. fold (sum_missing (gaps_after first rest)).
  rewrite sum_missing_gaps_after. cbn [length]. lia.
Qed.

End GapArithmetic.

(** ** The gaps of stored captures *)

Section GapPositivity.
Import Storage.

Definition seq_lt (a b : Capture) : Prop := sequenceNum a < sequenceNum b.

Lemma unique_sequence_by_session sid d :
  unique_sequence d →
  NoDup ((λ c : Capture, sequenceNum c) <$> by_session sid (captures d)).
Proof.
  unfold unique_sequence, by_session. generalize (captures d). intros l.
  induction l as [|c l IH]; [intros _; constructor|].
  rewrite fmap_cons, NoDup_cons. intros [Hnot Hl].
  rewrite filter_cons. case_decide as Hc; [|by apply IH].
  rewrite fmap_cons, NoDup_cons. split; [|by apply IH].
  intros (y & Hfy & Hy)%list_elem_of_fmap. apply Hnot, list_elem_of_fmap.
  exists y. apply list_elem_of_filter in Hy as [Hsid Hy]. split; [|done].
  cbn in *. congruence.
Qed.

Lemma sorted_strict l :
  StronglySorted seq_le l → NoDup ((λ c : Capture, sequenceNum c) <$> l) →
  StronglySorted seq_lt l.
Proof.
  induction 1 as [|c l Hs IH Hall]; [constructor|].
  rewrite fmap_cons, NoDup_cons. intros [Hnot Hl]. constructor; [by apply IH|].
  rewrite Forall_forall in Hall. apply Forall_forall. intros x Hx.
  specialize (Hall x Hx). unfold seq_le, seq_lt in *.
  assert (sequenceNum x ≠ sequenceNum c); [|lia].
  intros Heq. apply Hnot, list_elem_of_fmap. by exists x.
Qed.

Lemma gaps_after_positive prev rest :
  StronglySorted seq_lt (prev :: rest) →
  Forall (λ g, after g < before g ∧ 1 ≤ missing g) (gaps_after prev rest).
Proof.
  revert prev. induction rest as [|c rest IH]; intros prev Hs; [constructor|].
  cbn [gaps_after]. apply StronglySorted_inv in Hs as [Hs Hall].
  apply Forall_app. split; [|by apply IH].
  apply Forall_cons in Hall as [Hlt _]. unfold seq_lt in Hlt.
  case_decide; repeat constructor; cbn; lia.
Qed.

(** X3.  In a store that respects the unique index, [getSessionCaptures]
    returns the captures of a session with strictly increasing sequence
    numbers; every gap that [findSequenceGaps] reports on them has
    [after < before] and at least one missing frame, so the number of gaps
    is at most the number of missing frames. *)
Theorem findSequenceGaps_positive (sid : string) (d : DB) :
  unique_sequence d →
  let cs := getSessionCaptures sid d in
  StronglySorted seq_lt cs ∧
  Forall (λ g, after g < before g ∧ 1 ≤ missing g) (findSequenceGaps cs) ∧
  Z.of_nat (length (findSequenceGaps cs))
    ≤ foldl (λ sum g, sum + missing g) 0 (findSequenceGaps cs).
Proof.
  intros Hu cs.
  assert (StronglySorted seq_lt cs) as Hstrict.
  { apply sorted_strict; [apply sort_by_seq_sorted|].
    unfold cs, getSessionCaptures. rewrite sort_by_seq_perm.
    by apply unique_sequence_by_session. }
  assert (Forall (λ g, after g < before g ∧ 1 ≤ missing g) (findSequenceGaps cs)) as Hpos.
  { destruct cs as [|c cs']; [constructor|]. by apply gaps_after_positive. }
  split_and!; [done..|].
  fold (sum_missing (findSequenceGaps cs)).
  induction Hpos as [|g gs [_ Hg] _ IH]; [done|].
  change (g :: gs) with ([g] ++ gs). rewrite sum_missing_app, length_app.
  unfold sum_missing at 1. cbn. lia.
Qed.

End GapPositivity.

(** ** The recovery scan, repeated *)

Section RecoveryTwice.
Import Storage.

Lemma active_elem (s : Session) :
  status s ∈ [recording; publishing] ↔ status s = recording ∨ status s = publishing.
Proof. rewrite !elem_of_cons, elem_of_nil. tauto. Qed.

Lemma lookup_updates_other (f : Session → Session) l d k :
  (∀ x, x ∈ l → s_id (f x) ≠ k) →
  sessions (foldl (λ d1 session, updateSession (f session) d1) d l) !! k
  = sessions d !! k.
Proof.
  revert d. induction l as [|x l IH]; intros d Hne; [done|]. cbn [foldl].
  rewrite IH by (intros y Hy; apply Hne; by right).
  unfold updateSession, set_sessions. cbn [sessions].
  apply lookup_insert_ne. apply Hne. by left.
Qed.

(** After the scan no stored session is active. *)
Lemma checkForRecovery_none_active d k s :
  keyed d → sessions (checkForRecovery d).2 !! k = Some s →
  status s ≠ recording ∧ status s ≠ publishing.
Proof.
  intros Hkeyed. rewrite checkForRecovery_db.
  set (l := getSessionsByStatus [recording; publishing] d).
  destruct (sessions d !! k) as [s0|] eqn:Hold.
  - destruct (decide (status s0 = recording ∨ status s0 = publishing)) as [Hact|Hidle].
    + assert (s0 ∈ l) as Hin.
      { apply elem_of_getSessionsByStatus. split; [by eexists|]. by apply active_elem. }
      pose proof (Hkeyed _ _ Hold) as Hid. rewrite <- Hid.
      rewrite (lookup_recovered_loop d l d s0); [|..|done].
      * intros [= <-]. done.
      * intros x Hx Hxid. apply elem_of_getSessionsByStatus in Hx as [[k' Hk'] _].
        pose proof (Hkeyed _ _ Hk'). congruence.
    + rewrite lookup_updates_other.
      * rewrite Hold. intros [= <-]. tauto.
      * intros x Hx Hxid. rewrite s_id_recovered in Hxid.
        apply elem_of_getSessionsByStatus in Hx as [[k' Hk'] Hst].
        pose proof (Hkeyed _ _ Hk'). assert (x = s0) as -> by congruence.
        by apply Hidle, active_elem.
  - rewrite lookup_updates_other; [by rewrite Hold|].
    intros x Hx Hxid. rewrite s_id_recovered in Hxid.
    apply elem_of_getSessionsByStatus in Hx as [[k' Hk'] _].
    pose proof (Hkeyed _ _ Hk'). congruence.
Qed.

Lemma getSessionsByStatus_nil sts d :
  (∀ k s, sessions d !! k = Some s → status s ∉ sts) → getSessionsByStatus sts d = [].
Proof.
  intros Hnone. destruct (getSessionsByStatus sts d) as [|s l] eqn:Heq; [done|].
  assert (s ∈ getSessionsByStatus sts d) as Hin by (rewrite Heq; by left).
  apply elem_of_getSessionsByStatus in Hin as [[k Hk] Hst]. by destruct (Hnone k s Hk).
Qed.

(** X4.  [checkForRecovery] is idempotent.  Every session that the scan
    returns is paused; the captures, the publish states and the sessions that
    were neither recording nor publishing are left as they were; afterwards
    no session is recording or publishing, so a second scan returns nothing
    and changes nothing. *)
Theorem checkForRecovery_twice (d : DB) :
  keyed d →
  let first := checkForRecovery d in
  let second := checkForRecovery first.2 in
  second.1 = [] ∧ second.2 = first.2 ∧
  Forall (λ s, status s = paused) first.1 ∧
  captures first.2 = captures d ∧
  publishStates first.2 = publishStates d ∧
  (∀ k s, sessions d !! k = Some s → status s ≠ recording → status s ≠ publishing →
          sessions first.2 !! k = Some s) ∧
  getSessionsByStatus [recording; publishing] first.2 = [].
Proof.
  intros Hkeyed first second.
  assert (getSessionsByStatus [recording; publishing] first.2 = []) as Hnil.
  { apply getSessionsByStatus_nil. intros k s Hs.
    destruct (checkForRecovery_none_active d k s Hkeyed Hs).
    rewrite active_elem. tauto. }
  destruct (updates_frame (recovered d)
              (getSessionsByStatus [recording; publishing] d) d) as (Hc & _ & Hp & _).
  split_and!.
  - unfold second, checkForRecovery. by rewrite Hnil.
  - unfold second, checkForRecovery. by rewrite Hnil.
  - unfold first, checkForRecovery. rewrite (checkForRecovery_loop d) by done.
    cbn [fst app]. apply Forall_fmap, Forall_forall. by intros s _.
  - unfold first. by rewrite checkForRecovery_db.
  - unfold first. by rewrite checkForRecovery_db.
  - intros k s Hs Hrec Hpub. unfold first. rewrite checkForRecovery_db.
    rewrite lookup_updates_other; [done|].
    intros x Hx Hxid. rewrite s_id_recovered in Hxid.
    apply elem_of_getSessionsByStatus in Hx as [[k' Hk'] Hst].
    pose proof (Hkeyed _ _ Hk'). pose proof (Hkeyed _ _ Hs).
    assert (x = s) as -> by congruence. apply active_elem in Hst. tauto.
  - done.
Qed.

End RecoveryTwice.

(** ** Marking a capture as published *)

Section MarkPublished.
Import Storage.

(** What [markCapturePublished] does to the record with key [captureId]. *)
Definition mark (captureId : Z) (url : option string) (x : Capture) : Capture :=
  if decide (c_id x = captureId) then set_published url x else x.

Lemma sorted_lt_NoDup (l : list Z) : StronglySorted Z.lt l → NoDup l.
Proof.
  induction 1 as [|x l Hs IH Hall]; constructor; [|done].
  intros Hx. rewrite Forall_forall in Hall. specialize (Hall x Hx). lia.
Qed.

Lemma insert_as_mark captureId url (l : list Capture) i c :
  NoDup (c_id <$> l) → l !! i = Some c → c_id c = captureId →
  <[i := set_published url c]> l = mark captureId url <$> l.
Proof.
  intros Hnd Hi Hid. apply list_eq. intros j. rewrite list_lookup_fmap.
  destruct (decide (j = i)) as [->|Hne].
  - rewrite list_lookup_insert_eq by (by eapply lookup_lt_Some).
    rewrite Hi. cbn. unfold mark. by rewrite decide_True.
  - rewrite list_lookup_insert_ne by done.
    destruct (l !! j) as [x|] eqn:Hj; [|done]. cbn. unfold mark.
    rewrite decide_False; [done|]. intros Hx. apply Hne.
    eapply (NoDup_lookup _ j i captureId Hnd); rewrite list_lookup_fmap.
    + by rewrite Hj; cbn; rewrite Hx.
    + by rewrite Hi; cbn; rewrite Hid.
Qed.

Lemma insert_by_seq_fmap (f : Capture → Capture) (c : Capture) l :
  (∀ x, sequenceNum (f x) = sequenceNum x) →
  insert_by_seq (f c) (f <$> l) = f <$> insert_by_seq c l.
Proof.
  intros Hf. induction l as [|c' l IH]; [done|]. cbn.
  rewrite !Hf. case_decide; [|done]. cbn. by rewrite <- IH.
Qed.

Lemma sort_by_seq_fmap (f : Capture → Capture) l :
  (∀ x, sequenceNum (f x) = sequenceNum x) →
  sort_by_seq (f <$> l) = f <$> sort_by_seq l.
Proof.
  intros Hf. induction l as [|c l IH]; [done|].
  rewrite fmap_cons.
  change (sort_by_seq (f c :: (f <$> l)))
    with (insert_by_seq (f c) (sort_by_seq (f <$> l))).
  change (sort_by_seq (c :: l)) with (insert_by_seq c (sort_by_seq l)).
  by rewrite IH, insert_by_seq_fmap.
Qed.

Lemma insert_by_seq_head (c : Capture) l :
  Forall (λ x : Capture, sequenceNum c ≤ sequenceNum x) l → insert_by_seq c l = c :: l.
Proof.
  destruct 1 as [|x l Hx _]; [done|]. cbn. rewrite decide_False; [done|lia].
Qed.

Lemma filter_insert_by_seq (P : Capture → Prop) `{!∀ c, Decision (P c)} (c : Capture) l :
  StronglySorted seq_le l →
  filter P (insert_by_seq c l)
  = if decide (P c) then insert_by_seq c (filter P l) else filter P l.
Proof.
  induction 1 as [|c' l Hs IH Hall]; cbn [insert_by_seq].
  - rewrite filter_cons, !filter_nil. by case_decide.
  - destruct (decide (sequenceNum c' < sequenceNum c)) as [Hlt|Hge].
    + rewrite !(filter_cons _ c'), IH.
      destruct (decide (P c')), (decide (P c)); try done.
      cbn [insert_by_seq]. by rewrite decide_True.
    + rewrite (filter_cons _ c). destruct (decide (P c)); [|done].
      rewrite insert_by_seq_head; [done|].
      apply Forall_filter_sub. constructor; [lia|].
      eapply Forall_impl; [exact Hall|]. unfold seq_le. intros; lia.
Qed.

Lemma sort_by_seq_filter (P : Capture → Prop) `{!∀ c, Decision (P c)} l :
  sort_by_seq (filter P l) = filter P (sort_by_seq l).
Proof.
  induction l as [|c l IH]; [done|].
  rewrite filter_cons.
  change (sort_by_seq (c :: l)) with (insert_by_seq c (sort_by_seq l)).
  rewrite filter_insert_by_seq by apply sort_by_seq_sorted.
  case_decide; [|done].
  change (sort_by_seq (c :: filter P l))
    with (insert_by_seq c (sort_by_seq (filter P l))).
  by rewrite IH.
Qed.

Lemma by_session_fmap (f : Capture → Capture) sid (l : list Capture) :
  (∀ x : Capture, sessionId (f x) = sessionId x) →
  by_session sid (f <$> l) = f <$> by_session sid l.
Proof.
  intros Hf. unfold by_session. induction l as [|c l IH]; [done|].
  rewrite fmap_cons, !filter_cons, Hf. case_decide; [|done]. by rewrite fmap_cons, IH.
Qed.

Lemma unpublished_mark captureId url (l : list Capture) :
  filter (λ c : Capture, c_published c = false) (mark captureId url <$> l)
  = filter (λ x : Capture, c_id x ≠ captureId)
      (filter (λ c : Capture, c_published c = false) l).
Proof.
  induction l as [|c l IH]; [done|].
  rewrite fmap_cons, !filter_cons, IH.
  destruct (decide (c_id c = captureId)) as [Heq|Hne].
  - assert (mark captureId url c = set_published url c) as ->
      by (unfold mark; by rewrite decide_True).
    rewrite (decide_False (P := c_published (set_published url c) = false)) by done.
    destruct (decide (c_published c = false)); [|done].
    rewrite filter_cons. by rewrite decide_False by tauto.
  - assert (mark captureId url c = c) as -> by (unfold mark; by rewrite decide_False).
    destruct (decide (c_published c = false)); [|done].
    rewrite filter_cons. by rewrite decide_True.
Qed.

(** X5.  [markCapturePublished(captureId, url)] on a store whose capture
    keys are distinct.  When no capture has the key, the call is rejected with
    "Capture not found" and the store is unchanged.  Otherwise it resolves
    with that capture, marked and carrying the url; no other capture, no
    session and no publish state changes; for every session
    [getSessionCaptures] returns the same captures in the same order, that
    one marked, and [getUnpublishedCaptures] loses exactly that capture. *)
Theorem markCapturePublished_effect (captureId : Z) (url : option string) (d : DB) :
  keys_ok d →
  match markCapturePublished captureId url d with
  | (Rejected e, d') =>
      e = Error "Capture not found" ∧ d' = d ∧
      ∀ c : Capture, c ∈ captures d → c_id c ≠ captureId
  | (Resolved c', d') =>
      (∃ c : Capture, c ∈ captures d ∧ c_id c = captureId ∧ c' = set_published url c) ∧
      captures d' = mark captureId url <$> captures d ∧
      sessions d' = sessions d ∧ publishStates d' = publishStates d ∧
      nextCaptureId d' = nextCaptureId d ∧
      ∀ sid,
        getSessionCaptures sid d' = mark captureId url <$> getSessionCaptures sid d ∧
        getUnpublishedCaptures sid d'
        = filter (λ x : Capture, c_id x ≠ captureId) (getUnpublishedCaptures sid d)
  end.
Proof.
  intros [Hsorted _]. apply sorted_lt_NoDup in Hsorted.
  destruct (markCapturePublished_cases captureId url d)
    as [[-> Hnone]|(i & c & Hi & Hid & _ & ->)]; [done|].
  assert (∀ x : Capture, sessionId (mark captureId url x) = sessionId x) as Hsid.
  { intros x. unfold mark. by case_decide. }
  assert (∀ x : Capture, sequenceNum (mark captureId url x) = sequenceNum x) as Hseq.
  { intros x. unfold mark. by case_decide. }
  cbn [captures set_captures sessions publishStates nextCaptureId].
  rewrite (insert_as_mark captureId url _ i c) by done.
  split_and!; try done.
  - exists c. split_and!; try done. by eapply list_elem_of_lookup_2.
  - intros sid. unfold getSessionCaptures, getUnpublishedCaptures.
    cbn [captures set_captures].
    rewrite (insert_as_mark captureId url _ i c) by done.
    rewrite by_session_fmap by done. split.
    + by apply sort_by_seq_fmap.
    + by rewrite unpublished_mark, sort_by_seq_filter.
Qed.

End MarkPublished.

(** ** Deleting sessions *)

Section DeleteLaws.
Import Storage.

Lemma deleteSessions_spec ids d :
  let d' := foldr deleteSession d ids in
  (∀ k, sessions d' !! k = if decide (k ∈ ids) then None else sessions d !! k) ∧
  (∀ k, publishStates d' !! k = if decide (k ∈ ids) then None else publishStates d !! k) ∧
  captures d' = filter (λ c : Capture, sessionId c ∉ ids) (captures d) ∧
  nextCaptureId d' = nextCaptureId d.
Proof.
  induction ids as [|a ids (Hs & Hp & Hc & Hn)]; cbn [foldr].
  - cbn zeta. split_and!.
    + intros k. rewrite decide_False; [done|apply not_elem_of_nil].
    + intros k. rewrite decide_False; [done|apply not_elem_of_nil].
    + induction (captures d) as [|c l IH]; [done|].
      rewrite filter_cons, decide_True by apply not_elem_of_nil. by rewrite <- IH.
    + done.
  - cbn zeta in *. split_and!.
    + intros k. cbn [deleteSession sessions].
      destruct (decide (k = a)) as [->|Hne].
      * rewrite lookup_delete_eq, decide_True; [done|by left].
      * rewrite lookup_delete_ne, Hs by done.
        destruct (decide (k ∈ ids)).
        -- rewrite decide_True; [done|by right].
        -- rewrite decide_False; [done|]. rewrite elem_of_cons. tauto.
    + intros k. cbn [deleteSession publishStates].
      destruct (decide (k = a)) as [->|Hne].
      * rewrite lookup_delete_eq, decide_True; [done|by left].
      * rewrite lookup_delete_ne, Hp by done.
        destruct (decide (k ∈ ids)).
        -- rewrite decide_True; [done|by right].
        -- rewrite decide_False; [done|]. rewrite elem_of_cons. tauto.
    + cbn [deleteSession captures]. rewrite Hc, list_filter_filter.
      apply list_filter_iff. intros c. rewrite elem_of_cons. tauto.
    + done.
Qed.

Lemma filter_none {A} (P : A → Prop) `{!∀ x, Decision (P x)} (l : list A) :
  Forall (λ x, ¬ P x) l → filter P l = [].
Proof.
  induction 1 as [|x l Hx _ IH]; [done|]. by rewrite filter_cons, decide_False.
Qed.

Lemma DB_eq d1 d2 :
  sessions d1 = sessions d2 → captures d1 = captures d2 →
  nextCaptureId d1 = nextCaptureId d2 → publishStates d1 = publishStates d2 → d1 = d2.
Proof. destruct d1, d2; cbn. by intros -> -> -> ->. Qed.

Lemma deleteSessions_same (l1 l2 : list string) (d : DB) :
  (∀ k, k ∈ l1 ↔ k ∈ l2) → foldr deleteSession d l1 = foldr deleteSession d l2.
Proof.
  intros Hl.
  destruct (deleteSessions_spec l1 d) as (Hs1 & Hp1 & Hc1 & Hn1).
  destruct (deleteSessions_spec l2 d) as (Hs2 & Hp2 & Hc2 & Hn2).
  apply DB_eq.
  - apply map_eq. intros k. rewrite Hs1, Hs2. apply decide_ext, Hl.
  - rewrite Hc1, Hc2. apply list_filter_iff. intros c. by rewrite Hl.
  - congruence.
  - apply map_eq. intros k. rewrite Hp1, Hp2. apply decide_ext, Hl.
Qed.

(** X6.  Deleting several sessions gives the same store whatever the
    order of the calls; and when the ids cover every session, every capture
    and every publish state of the store, the result is the store that
    [deleteAllSessions] gives: all three stores empty, the key generator
    where it was. *)
Theorem deleteSession_all (ids ids' : list string) (d : DB) :
  ids' ≡ₚ ids →
  foldr deleteSession d ids' = foldr deleteSession d ids ∧
  ((∀ k, is_Some (sessions d !! k) → k ∈ ids) →
   (∀ c : Capture, c ∈ captures d → sessionId c ∈ ids) →
   (∀ k, is_Some (publishStates d !! k) → k ∈ ids) →
   foldr deleteSession d ids = deleteAllSessions d).
Proof.
  intros Hperm. split.
  - apply deleteSessions_same. intros k. by rewrite Hperm.
  - intros Hs Hc Hp.
    destruct (deleteSessions_spec ids d) as (Hs' & Hp' & Hc' & Hn').
    apply DB_eq; cbn [deleteAllSessions sessions captures nextCaptureId publishStates].
    + apply map_eq. intros k. rewrite Hs', lookup_empty. case_decide as Hk; [done|].
      destruct (sessions d !! k) eqn:Hlook; [|done].
      destruct Hk. apply Hs. by eexists.
    + rewrite Hc'. apply filter_none, Forall_forall.
      intros c Hin Hnot. by apply Hnot, Hc.
    + done.
    + apply map_eq. intros k. rewrite Hp', lookup_empty. case_decide as Hk; [done|].
      destruct (publishStates d !! k) eqn:Hlook; [|done].
      destruct Hk. apply Hp. by eexists.
Qed.

End DeleteLaws.

(** ** Base64 of an image buffer *)

Section Base64Facts.
Import Publisher.

Lemma binary_from_spec chunkSize bytes fuel :
  (0 < chunkSize)%nat →
  ∀ i binary, (length bytes < i + fuel)%nat →
  binary_from chunkSize fuel i bytes binary = binary ++ drop i bytes.
Proof.
  intros Hpos. induction fuel as [|fuel IH]; intros i binary Hfuel; cbn [binary_from].
  - rewrite drop_ge by lia. by rewrite app_nil_r.
  - case_decide as Hi.
    + rewrite IH by lia. rewrite <- app_assoc. f_equal. unfold subarray.
      rewrite <- (take_drop chunkSize (drop i bytes)) at 2.
      rewrite drop_drop. f_equal.
      destruct (decide (i + chunkSize ≤ length bytes)%nat).
      * f_equal. lia.
      * rewrite !take_ge; [done|rewrite length_drop; lia..].
    + rewrite drop_ge by lia. by rewrite app_nil_r.
Qed.

Lemma btoa_length_step : ∀ n binary, (length binary < n)%nat →
  String.length (btoa binary) = (4 * ((length binary + 2) / 3))%nat.
Proof.
  induction n as [|n IH]; intros binary Hn; [lia|].
  destruct binary as [|a [|b [|c rest]]]; try done.
  cbn [btoa String.length length]. rewrite IH by (cbn in Hn; lia).
  replace (S (S (S (length rest))) + 2)%nat with (1 * 3 + (length rest + 2))%nat by lia.
  rewrite Nat.div_add_l by done. lia.
Qed.

(** X7.  [arrayBufferToBase64] gives the base64 text of the whole
    buffer, whatever its length is compared with the chunk size of 8192: no
    byte is lost or repeated at a chunk boundary.  The text has four
    characters for every three bytes, rounded up, and it is empty only for an
    empty buffer. *)
Theorem arrayBufferToBase64_whole (buffer : list N) :
  arrayBufferToBase64 buffer = btoa buffer ∧
  String.length (arrayBufferToBase64 buffer) = (4 * ((length buffer + 2) / 3))%nat ∧
  (arrayBufferToBase64 buffer = EmptyString ↔ buffer = []).
Proof.
  assert (arrayBufferToBase64 buffer = btoa buffer) as Heq.
  { unfold arrayBufferToBase64. cbn zeta. rewrite binary_from_spec by lia.
    by rewrite drop_0. }
  split; [done|]. rewrite Heq. split.
  - apply (btoa_length_step (S (length buffer))). lia.
  - split; [|by intros ->]. by destruct buffer as [|a [|b [|c rest]]].
Qed.

End Base64Facts.

(** ** Durations *)

Section DurationFacts.
Import Publisher.

(** X8.  [formatDuration] of a whole number of seconds, at least 60.
    The hours are rounded down and the minutes to the nearest minute, so the
    text is at most 30 s off; the minutes read 60 exactly when the last hour
    has 3570 s or more (3599 s is written "60m", 7199 s "1h 60m"). *)
Theorem formatDuration_rounds (seconds : Z) :
  60 ≤ seconds →
  ∃ hours mins,
    formatDuration seconds =
      (if decide (seconds < 3600) then decimal mins +:+ "m"
       else decimal hours +:+ "h " +:+ decimal mins +:+ "m") ∧
    hours = seconds `div` 3600 ∧
    0 ≤ mins ≤ 60 ∧
    -30 ≤ seconds - (3600 * hours + 60 * mins) < 30 ∧
    (mins = 60 ↔ 3570 ≤ seconds `mod` 3600).
Proof.
  intros Hmin. unfold formatDuration, round_div.
  rewrite decide_False by lia.
  destruct (decide (seconds < 3600)) as [Hlt|Hge].
  - exists (seconds `div` 3600), ((2 * seconds + 60) `div` (2 * 60)).
    split; [done|]. split; [done|]. Z.div_mod_to_equations. lia.
  - exists (seconds `div` 3600), ((2 * (seconds `mod` 3600) + 60) `div` (2 * 60)).
    split; [done|]. split; [done|]. Z.div_mod_to_equations. lia.
Qed.

End DurationFacts.

(** ** Reading the CSV document back *)

Section CsvFacts.
Import Publisher.

(** [s.split(sep)] for a one-character separator. *)
Fixpoint split_on (sep : Ascii.ascii) (s : string) : list string :=
  match s with
  | EmptyString => [EmptyString]
  | String a s' =>
      if decide (a = sep) then EmptyString :: split_on sep s'
      else match split_on sep s' with
           | cell :: cells => String a cell :: cells
           | [] => [String a EmptyString]
           end
  end.

(** The character [a] does not occur in [s]. *)
Fixpoint free_of (a : Ascii.ascii) (s : string) : Prop :=
  match s with
  | EmptyString => True
  | String b s' => b ≠ a ∧ free_of a s'
  end.

Lemma split_on_free sep s : free_of sep s → split_on sep s = [s].
Proof.
  induction s as [|a s IH]; [done|]. cbn [split_on free_of]. intros [Hne Hs].
  destruct (decide (a = sep)); [by destruct Hne|]. by rewrite IH.
Qed.

Lemma append_nil s : EmptyString +:+ s = s.
Proof. reflexivity. Qed.

Lemma append_cons a s t : String a s +:+ t = String a (s +:+ t).
Proof. reflexivity. Qed.

Lemma concat_cons sep x y l :
  String.concat sep (x :: y :: l) = x +:+ (sep +:+ String.concat sep (y :: l)).
Proof. reflexivity. Qed.

Lemma split_on_app sep s rest :
  free_of sep s →
  split_on sep (s +:+ String sep rest) = s :: split_on sep rest.
Proof.
  induction s as [|a s IH]; rewrite ?append_nil, ?append_cons; cbn [split_on free_of].
  - intros _. by destruct (decide (sep = sep)).
  - intros [Hne Hs]. destruct (decide (a = sep)); [by destruct Hne|].
    by rewrite IH.
Qed.

Lemma split_on_concat sep cell cells :
  Forall (free_of sep) (cell :: cells) →
  split_on sep (String.concat (String sep EmptyString) (cell :: cells)) = cell :: cells.
Proof.
  revert cell. induction cells as [|c cells IH]; intros cell Hfree.
  - cbn. apply split_on_free. by apply Forall_cons in Hfree as [? _].
  - apply Forall_cons in Hfree as [Hcell Hrest].
    rewrite concat_cons, append_cons, append_nil.
    rewrite split_on_app by done. by rewrite IH.
Qed.

Lemma free_of_app a s1 s2 : free_of a s1 → free_of a s2 → free_of a (s1 +:+ s2).
Proof.
  induction s1 as [|b s1 IH]; rewrite ?append_nil, ?append_cons; cbn [free_of]; [done|].
  intros [? ?] ?. split; [done|by apply IH].
Qed.

Lemma free_of_concat a sep cells :
  free_of a sep → Forall (free_of a) cells → free_of a (String.concat sep cells).
Proof.
  intros Hsep. induction 1 as [|c cells Hc Hall IH]; [done|].
  destruct cells as [|c' cells]; [done|].
  rewrite concat_cons. apply free_of_app; [done|]. apply free_of_app; [done|]. exact IH.
Qed.


(** A cell that holds neither a comma nor a line break. *)
Definition plain (s : string) : Prop := free_of comma s ∧ free_of line_feed s.

Lemma plain_uint (d : Decimal.uint) : plain (NilEmpty.string_of_uint d).
Proof. induction d as [|d [? ?]|d [? ?]|d [? ?]|d [? ?]|d [? ?]|d [? ?]|d [? ?]|d [? ?]|d [? ?]|d [? ?]]; by repeat split. Qed.

Lemma plain_nilzero_uint (d : Decimal.uint) : plain (NilZero.string_of_uint d).
Proof. destruct d; try apply plain_uint. by repeat split. Qed.

Lemma plain_decimal n : plain (decimal n).
Proof.
  unfold decimal, NilZero.string_of_int.
  destruct (Z.to_int n) as [d|d]; [apply plain_nilzero_uint|].
  destruct (plain_nilzero_uint d). by repeat split.
Qed.

Lemma plain_row toISOString numberToString (c : Capture) :
  (∀ t, plain (toISOString t)) → (∀ n, plain (numberToString n)) →
  plain (or_else (publishedUrl c) EmptyString) →
  Forall plain (csv_row toISOString numberToString c).
Proof.
  intros Ht Hn Hurl. unfold csv_row.
  assert (plain EmptyString) as Hempty by done.
  repeat constructor; try done; try apply plain_decimal;
    try (destruct (gps c) as [g|]; cbn; [|done]; try apply Hn; by destruct (stale g));
    try (destruct (accel c) as [a|]; cbn; [|done]; apply Hn);
    first [apply Hurl|apply Ht].
Qed.

(** X9.  [generateCSV] writes the cells as they are, without quotes.
    When no timestamp, number or published url holds a comma or a line feed,
    splitting the document into lines and the lines at the commas gives the
    header row and then one row of ten cells for each capture, in the order
    of the captures. *)
Theorem generateCSV_parses (toISOString : Time → string) (numberToString : Z → string)
    (captures : list Capture) :
  (∀ t, plain (toISOString t)) →
  (∀ n, plain (numberToString n)) →
  Forall (λ c : Capture, plain (or_else (publishedUrl c) EmptyString)) captures →
  split_on comma <$> split_on line_feed (generateCSV toISOString numberToString captures)
  = headers :: (csv_row toISOString numberToString <$> captures).
Proof.
  intros Ht Hn Hurls. unfold generateCSV.
  set (rows := csv_row toISOString numberToString <$> captures).
  assert (Forall (λ r, r ≠ [] ∧ Forall plain r) (headers :: rows)) as Hrows.
  { constructor.
    - split; [done|]. by repeat constructor.
    - unfold rows. apply Forall_fmap, Forall_forall. intros c Hc. split; [done|].
      apply plain_row; try done. rewrite Forall_forall in Hurls. by apply Hurls. }
  change (String.concat (String comma EmptyString) headers
          :: ((λ r, String.concat (String comma EmptyString) r) <$> rows))
    with ((λ r, String.concat (String comma EmptyString) r) <$> (headers :: rows)).
  revert Hrows. generalize headers as row. generalize rows as table. clear.
  intros table row Htable.
  rewrite fmap_cons, split_on_concat.
  - rewrite <- fmap_cons, <- list_fmap_compose.
    rewrite <- (list_fmap_id (row :: table)) at 2.
    apply Forall_fmap_ext_1. eapply Forall_impl; [exact Htable|].
    intros r [Hne Hplain]. cbn. destruct r as [|cell r]; [done|].
    apply split_on_concat. eapply Forall_impl; [exact Hplain|]. by intros s [? ?].
  - rewrite <- fmap_cons. apply Forall_fmap. eapply Forall_impl; [exact Htable|].
    intros r [_ Hplain]. cbn. apply free_of_concat; [done|].
    eapply Forall_impl; [exact Hplain|]. by intros s [? ?].
Qed.

End CsvFacts.

(** ** Image paths *)

Section PathFacts.
Import Publisher.
Import DecimalZ DecimalPos DecimalFacts.

Lemma append_inj_l p s t : p +:+ s = p +:+ t → s = t.
Proof.
  induction p as [|a p IH]; rewrite ?append_nil, ?append_cons; [done|].
  intros [= H]. by apply IH.
Qed.

Lemma append_length s t : String.length (s +:+ t) = (String.length s + String.length t)%nat.
Proof.
  induction s as [|a s IH]; rewrite ?append_nil, ?append_cons; [done|]. cbn. by rewrite IH.
Qed.

Lemma append_inj_r s t q : s +:+ q = t +:+ q → s = t.
Proof.
  revert t. induction s as [|a s IH]; intros [|b t]; rewrite ?append_nil, ?append_cons.
  - done.
  - intros H. apply (f_equal String.length) in H. cbn in H.
    rewrite append_length in H. lia.
  - intros H. apply (f_equal String.length) in H. cbn in H.
    rewrite append_length in H. lia.
  - intros [= -> H]. f_equal. by apply IH.
Qed.

(** [decimal] is one-to-one. *)
Lemma decimal_inj n m : decimal n = decimal m → n = m.
Proof.
  unfold decimal. intros H. apply to_int_inj.
  assert (∀ k, Z.to_int k ≠ Decimal.Pos Decimal.Nil ∧ Z.to_int k ≠ Decimal.Neg Decimal.Nil)
    as Hnn.
  { intros [|p|p]; cbn; split; try done; intros [= Hp]; by apply Unsigned.to_uint_nonnil in Hp. }
  apply (f_equal NilZero.int_of_string) in H.
  rewrite !NilZero.isi in H by apply Hnn. congruence.
Qed.

Definition zero_char : Ascii.ascii := Ascii.ascii_of_nat 48.

Lemma nzhead_no_zero d d' : Decimal.nzhead d ≠ Decimal.D0 d'.
Proof. induction d; cbn; done. Qed.

Lemma to_uint_no_leading_zero p d : Pos.to_uint p ≠ Decimal.D0 d.
Proof.
  intros H.
  assert (Decimal.unorm (Pos.to_uint p) = Pos.to_uint p) as Hnorm.
  { rewrite <- Unsigned.to_of, Unsigned.of_to. done. }
  rewrite H, unorm_D0 in Hnorm. unfold Decimal.unorm in Hnorm.
  destruct (Decimal.nzhead d) eqn:Hd; try done.
  - injection Hnorm as <-. by apply Unsigned.to_uint_nonzero in H.
  - by apply nzhead_no_zero in Hd.
Qed.

(** A decimal numeral is not empty, and it starts with a zero only when
    it is ["0"]. *)
Lemma decimal_head n :
  decimal n ≠ EmptyString ∧ ∀ rest, decimal n = String zero_char rest → rest = EmptyString.
Proof.
  unfold decimal. destruct n as [|p|p]; cbn.
  - split; [done|]. by intros rest [= <-].
  - pose proof (Unsigned.to_uint_nonnil p) as Hnil.
    pose proof (to_uint_no_leading_zero p) as Hzero.
    unfold NilZero.string_of_uint. destruct (Pos.to_uint p); try done.
    by destruct (Hzero u).
  - split; [done|]. intros rest [=].
Qed.

Definition zeros (k : nat) : string := String.concat EmptyString (replicate k "0").

Lemma zeros_S k : zeros (S k) = String zero_char (zeros k).
Proof. unfold zeros. cbn [replicate]. by destruct k. Qed.

Lemma zeros_length k : String.length (zeros k) = k.
Proof. induction k as [|k IH]; [done|]. rewrite zeros_S. cbn. by rewrite IH. Qed.

Lemma zeros_cancel j k s t :
  (String.length s ≤ String.length t)%nat →
  zeros (j + k) +:+ s = zeros j +:+ t → zeros k +:+ s = t.
Proof.
  intros _. induction j as [|j IH]; [done|].
  cbn [Nat.add]. rewrite !zeros_S, !append_cons. intros [= H]. by apply IH.
Qed.

Lemma padStart_decimal_inj w n m :
  padStart w (decimal n) = padStart w (decimal m) → n = m.
Proof.
  assert (∀ a b, (String.length (decimal a) ≤ String.length (decimal b))%nat →
                 padStart w (decimal a) = padStart w (decimal b) → a = b) as Hle.
  { intros a b Hlen. unfold padStart. fold (zeros (w - String.length (decimal a))).
    fold (zeros (w - String.length (decimal b))).
    set (ka := (w - String.length (decimal a))%nat).
    set (kb := (w - String.length (decimal b))%nat).
    assert (kb ≤ ka)%nat as Hk by lia.
    replace ka with (kb + (ka - kb))%nat by lia.
    intros H%zeros_cancel; [|done].
    destruct (ka - kb)%nat as [|k] eqn:Hdiff.
    - by apply decimal_inj.
    - rewrite zeros_S, append_cons in H. symmetry in H.
      destruct (decimal_head b) as [_ Hzero]. pose proof (Hzero _ H) as Hrest.
      destruct (decimal_head a) as [Hne _].
      destruct (decimal a); [done|]. by destruct (zeros k). }
  intros H.
  destruct (decide (String.length (decimal n) ≤ String.length (decimal m))%nat).
  - by apply Hle.
  - symmetry. apply Hle; [lia|done].
Qed.

Lemma image_path_inj (sid : string) (c1 c2 : CaptureData) :
  image_path sid c1 = image_path sid c2 → sequenceNum c1 = sequenceNum c2.
Proof.
  unfold image_path. intros H.
  do 3 apply append_inj_l in H. apply append_inj_r in H.
  by apply padStart_decimal_inj in H.
Qed.

(** X10.  Within a session, two captures have the same image path
    exactly when they have the same sequence number: padding the number to
    six digits merges no two numbers, also not numbers of more than six
    digits. *)
Theorem image_path_injective (sid : string) (c1 c2 : CaptureData) :
  image_path sid c1 = image_path sid c2 ↔ sequenceNum c1 = sequenceNum c2.
Proof.
  split; [apply image_path_inj|]. unfold image_path. by intros ->.
Qed.

End PathFacts.

(** ** Writing one file *)

Section UploadFileFacts.
Import Publisher.

(** The file a successful write leaves at its path. *)
Definition written (r : Remote) (body : Content) : RemoteFile :=
  {| sha := next_sha r; content := body |}.

(** A request sent over a transport without faults. *)
Lemma run_fetch_clear q w :
  faults (remote w) = [] →
  run (fetch q w) =
  (Resolved (serve q (remote w)).1,
   with_remote (λ _, (serve q (remote w)).2)
     (elapse (latency (remote w)) (log (EFetch q) w))).
Proof. intros Hf. by rewrite run_fetch, Hf. Qed.

Lemma serve_faults q r : faults (serve q r).2 = faults r ∧ latency (serve q r).2 = latency r.
Proof. destruct q; cbn; repeat case_match; done. Qed.

(** What a write does on the server. *)
Lemma serve_put path body given r :
  let accepted := ({| r_status := if files r !! path is Some _ then 200 else 201;
                      r_body := WrittenBody (raw_url path) (next_sha r) path |},
                   set_files (<[path := written r body]> (files r)) (N.succ (next_sha r)) r) in
  serve (PutContents path body given) r =
  match files r !! path, given with
  | None, _ => accepted
  | Some f, None =>
      ({| r_status := 422;
          r_body := MessageBody (Some "Invalid request. sha wasn't supplied.") |}, r)
  | Some f, Some s =>
      if decide (s = sha f) then accepted
      else ({| r_status := 409;
               r_body := MessageBody (Some (path +:+ " does not match")) |}, r)
  end.
Proof.
  cbn. destruct (files r !! path) as [f|]; [|done]. destruct given as [s|]; [|done].
  by case_decide.
Qed.


Lemma includes_sha : includes "Invalid request. sha wasn't supplied." "sha" = true.
Proof. reflexivity. Qed.

Lemma or_else_some s fallback : s ≠ EmptyString → or_else (Some s) fallback = s.
Proof. intros Hs. unfold or_else. by rewrite decide_False. Qed.

Lemma append_nonempty s t : t ≠ EmptyString → s +:+ t ≠ EmptyString.
Proof. destruct s; [done|]. by intros _. Qed.

(** A write that the server accepts at once. *)
Lemma uploadFile_accepted cfg path body given w :
  faults (remote w) = [] →
  (files (remote w) !! path = None ∨ given = sha <$> files (remote w) !! path) →
  run (uploadFile (Some cfg) path body given w) =
  (Resolved {| w_url := raw_url path; w_sha := next_sha (remote w); w_path := path |},
   with_remote
     (set_files (<[path := written (remote w) body]> (files (remote w)))
        (N.succ (next_sha (remote w))))
     (elapse (latency (remote w)) (log (EFetch (PutContents path body given)) w))).
Proof.
  intros Hf Hok. unfold uploadFile.
  rewrite run_bind, run_fetch_clear by done. rewrite serve_put. cbn zeta.
  destruct (files (remote w) !! path) as [f|] eqn:Hpath.
  - destruct Hok as [?| ->]; [done|]. cbn [fmap option_fmap option_map].
    rewrite decide_True by done. done.
  - done.
Qed.

(** A write to an existing path without its [sha]: refused with 422,
    then repeated with the [sha] that the probe returns. *)
Lemma uploadFile_retried cfg path body f w :
  faults (remote w) = [] →
  files (remote w) !! path = Some f →
  run (uploadFile (Some cfg) path body None w) =
  (Resolved {| w_url := raw_url path; w_sha := next_sha (remote w); w_path := path |},
   with_remote
     (set_files (<[path := written (remote w) body]> (files (remote w)))
        (N.succ (next_sha (remote w))))
     (elapse (latency (remote w)) (log (EFetch (PutContents path body (Some (sha f))))
        (elapse (latency (remote w)) (log (EFetch (GetContents path))
           (elapse (latency (remote w)) (log (EFetch (PutContents path body None)) w))))))).
Proof.
  intros Hf Hpath. unfold uploadFile.
  rewrite run_bind, run_fetch_clear by done. rewrite serve_put, Hpath. cbn zeta.
  cbn [fst snd].
  set (w1 := with_remote _ _).
  assert (remote w1 = remote w) as Hrem by done.
  assert (∀ b, r_ok {| r_status := 422; r_body := b |} = false) as -> by done.
  cbn [negb r_status error_message r_body].
  rewrite bool_decide_eq_true_2 by done.
  cbn [from_option]. rewrite includes_sha. cbn [andb].
  rewrite run_bind.
  rewrite (fileExists_present cfg path f) by (rewrite ?Hrem; done || (unfold faithful_next; by rewrite Hf)).
  cbn [p_exists p_sha].
  assert (pop_fault (remote w) = remote w) as Hpop.
  { unfold pop_fault. rewrite Hf. destruct (remote w); cbn in *; by subst. }
  set (w2 := with_remote pop_fault _).
  assert (remote w2 = remote w) as Hrem2.
  { unfold w2. cbn [remote with_remote elapse log]. by rewrite Hrem, Hpop. }
  rewrite run_bind, run_fetch_clear by (by rewrite Hrem2). rewrite Hrem2, serve_put, Hpath.
  cbn zeta. rewrite decide_True by done.
  cbn [fst snd].
  assert (∀ b, r_ok {| r_status := 200; r_body := b |} = true) as -> by done.
  unfold written_of. cbn [r_body ret run]. f_equal.
Qed.


(** A write with a [sha] that is not the current one. *)
Lemma uploadFile_conflict cfg path body f s w :
  faults (remote w) = [] →
  files (remote w) !! path = Some f → s ≠ sha f →
  run (uploadFile (Some cfg) path body (Some s) w) =
  (Rejected (Error (path +:+ " does not match")),
   elapse (latency (remote w)) (log (EFetch (PutContents path body (Some s))) w)).
Proof.
  intros Hf Hpath Hs. unfold uploadFile.
  rewrite run_bind, run_fetch_clear by done. rewrite serve_put, Hpath. cbn zeta.
  rewrite decide_False by done. cbn [fst snd].
  assert (∀ b, r_ok {| r_status := 409; r_body := b |} = false) as -> by done.
  cbn [negb r_status error_message r_body].
  rewrite bool_decide_eq_false_2 by done. cbn [andb].
  rewrite or_else_some by (by apply append_nonempty).
  done.
Qed.

(** X11.  [uploadFile] over a transport without faults.  The write is
    accepted exactly when the path has no content, or no sha is given, or the
    given sha is the current one: the path then holds the new content under a
    new sha and every other file is as before; a write without sha to a path
    that has content costs three requests (the refused write, the fetch of
    the sha, the write with it).  A write with another sha is rejected with
    the message of the server and the remote is unchanged.  The local
    database and the publisher are never touched. *)
Theorem uploadFile_last_write_wins (cfg : Config) (path : string) (body : Content)
    (given : option N) (w : World) :
  faults (remote w) = [] →
  let out := run (uploadFile (Some cfg) path body given w) in
  let current := sha <$> files (remote w) !! path in
  db out.2 = db w ∧ pub out.2 = pub w ∧ faults (remote out.2) = [] ∧
  if decide (current = None ∨ given = None ∨ given = current) then
    out.1 = Resolved {| w_url := raw_url path; w_sha := next_sha (remote w);
                        w_path := path |} ∧
    files (remote out.2) = <[path := written (remote w) body]> (files (remote w)) ∧
    next_sha (remote out.2) = N.succ (next_sha (remote w)) ∧
    trace out.2 = trace w ++
      match current, given with
      | Some s, None =>
          [ EFetch (PutContents path body None); EFetch (GetContents path);
            EFetch (PutContents path body (Some s)) ]
      | _, _ => [ EFetch (PutContents path body given) ]
      end
  else
    out.1 = Rejected (Error (path +:+ " does not match")) ∧
    remote out.2 = remote w ∧
    trace out.2 = trace w ++ [ EFetch (PutContents path body given) ].
Proof.
  intros Hf out current. unfold out, current.
  destruct (files (remote w) !! path) as [f|] eqn:Hpath; cbn [fmap option_fmap option_map].
  - destruct given as [s|].
    + destruct (decide (s = sha f)) as [->|Hne].
      * rewrite uploadFile_accepted by (done || (right; by rewrite Hpath)).
        rewrite decide_True by tauto. cbn. by rewrite <- ?app_assoc.
      * rewrite (uploadFile_conflict cfg path body f) by done.
        rewrite decide_False by (intros [?|[?|?]]; congruence). by cbn.
    + rewrite (uploadFile_retried cfg path body f) by done.
      rewrite decide_True by tauto. cbn. by rewrite <- !app_assoc.
  - rewrite uploadFile_accepted by (done || by left).
    rewrite decide_True by tauto. cbn. by destruct given.
Qed.


End UploadFileFacts.

(** ** The coverage index *)

Section CoverageFacts.
Import Publisher.

Definition index_path : string := "coverage-index.geojson".

(** The features of the coverage index that the remote holds. *)
Definition stored_index (r : Remote) : list (string * Z) :=
  match files r !! index_path with
  | Some {| content := CoverageIndex fs |} => fs
  | _ => []
  end.

(** The entry of [session] replaces an earlier one and goes last. *)
Definition merged (session : Session) (captures : list Capture)
    (features : list (string * Z)) : list (string * Z) :=
  filter (λ f : string * Z, f.1 ≠ s_id session) features
  ++ [ (s_id session, Z.of_nat (length captures)) ].

Lemma loadCoverageIndex_clear cfg w :
  faults (remote w) = [] →
  run (loadCoverageIndex (Some cfg) w) =
  (Resolved (stored_index (remote w)),
   elapse (latency (remote w)) (log (EFetch GetRawIndex) w)).
Proof.
  intros Hf. unfold loadCoverageIndex.
  rewrite run_try_catch, run_bind, run_fetch_read by done.
  unfold stored_index, index_path. cbn [serve].
  destruct (files (remote w) !! "coverage-index.geojson") as [[s []]|]; done.
Qed.

Lemma pop_fault_clear r : faults r = [] → pop_fault r = r.
Proof. intros Hf. unfold pop_fault. rewrite Hf. destruct r; cbn in *; by subst. Qed.

Lemma faithful_clear r : faults r = [] → faithful_next r.
Proof. intros Hf. unfold faithful_next. by rewrite Hf. Qed.

(** The probe over a transport without faults. *)
Lemma fileExists_clear cfg path w :
  faults (remote w) = [] →
  run (fileExists (Some cfg) path w) =
  (Resolved {| p_exists := bool_decide (is_Some (files (remote w) !! path));
               p_sha := sha <$> files (remote w) !! path;
               p_downloadUrl := (λ _, raw_url path) <$> files (remote w) !! path;
               p_error := None |},
   elapse (latency (remote w)) (log (EFetch (GetContents path)) w)).
Proof.
  intros Hf. destruct (files (remote w) !! path) as [f|] eqn:Hpath.
  - rewrite (fileExists_present cfg path f) by (done || by apply faithful_clear).
    rewrite bool_decide_eq_true_2 by (by eexists). f_equal.
    unfold with_remote. cbn [remote db pub trace clock online reconnect_after elapse log].
    rewrite pop_fault_clear by done. by destruct w.
  - rewrite (fileExists_absent cfg path) by (done || by apply faithful_clear).
    rewrite bool_decide_eq_false_2 by (by intros [? ?]). f_equal.
    unfold with_remote. cbn [remote db pub trace clock online reconnect_after elapse log].
    rewrite pop_fault_clear by done. by destruct w.
Qed.

Lemma merged_twice session captures features :
  merged session captures (merged session captures features)
  = merged session captures features.
Proof.
  unfold merged. rewrite filter_app, list_filter_filter.
  rewrite filter_cons, decide_False by (cbn; tauto). rewrite filter_nil, app_nil_r.
  f_equal. apply list_filter_iff. intros f. tauto.
Qed.

Lemma merged_once session captures features :
  filter (λ f : string * Z, f.1 = s_id session) (merged session captures features)
  = [ (s_id session, Z.of_nat (length captures)) ].
Proof.
  unfold merged. rewrite filter_app, list_filter_filter.
  rewrite (filter_none (λ f : string * Z, f.1 = s_id session ∧ f.1 ≠ s_id session)).
  - by rewrite filter_cons, decide_True.
  - apply Forall_forall. intros f _. tauto.
Qed.


(** X12.  [updateCoverageIndex] over a transport without faults
    resolves and leaves the local state alone.  With fewer than two captures
    that have a position it only reads the index.  Otherwise the index file
    is written with the features it had, less any earlier entry of the
    session, followed by the new entry: the session is listed exactly once,
    and updating once more with the same captures gives the same
    features. *)
Theorem updateCoverageIndex_merges (session : Session) (captures : list Capture)
    (cfg : Config) (w : World) :
  faults (remote w) = [] →
  let out := run (updateCoverageIndex session captures (Some cfg) w) in
  out.1 = Resolved tt ∧ db out.2 = db w ∧ pub out.2 = pub w ∧
  if decide (length (filter (λ c, usable_gps c = true) captures) < 2)%nat then
    remote out.2 = remote w ∧ trace out.2 = trace w ++ [EFetch GetRawIndex]
  else
    let features := merged session captures (stored_index (remote w)) in
    files (remote out.2)
      = <[index_path := written (remote w) (CoverageIndex features)]> (files (remote w)) ∧
    stored_index (remote out.2) = features ∧
    filter (λ f : string * Z, f.1 = s_id session) features
      = [ (s_id session, Z.of_nat (length captures)) ] ∧
    merged session captures features = features ∧
    trace out.2 = trace w ++
      [ EFetch GetRawIndex; EFetch (GetContents index_path);
        EFetch (PutContents index_path (CoverageIndex features)
                  (sha <$> files (remote w) !! index_path)) ].
Proof.
  intros Hf out. unfold out, updateCoverageIndex.
  rewrite run_try_catch, run_bind, loadCoverageIndex_clear by done.
  case_decide as Hfew; [done|].
  set (w1 := elapse _ _).
  assert (remote w1 = remote w) as Hrem1 by done.
  rewrite run_bind, fileExists_clear by (by rewrite Hrem1).
  set (w2 := elapse _ _).
  assert (remote w2 = remote w) as Hrem2 by done.
  cbn [p_exists p_sha].
  fold index_path. fold (merged session captures (stored_index (remote w))).
  set (features := merged session captures (stored_index (remote w))).
  assert ((if bool_decide (is_Some (files (remote w1) !! index_path))
           then sha <$> files (remote w1) !! index_path else None)
          = sha <$> files (remote w2) !! index_path) as ->.
  { rewrite Hrem1, Hrem2. by destruct (files (remote w) !! index_path). }
  rewrite run_bind, uploadFile_accepted by (rewrite ?Hrem2; done || by right).
  cbn [ret run fst snd db pub with_remote remote files set_files trace elapse log].
  rewrite Hrem2. split_and!; try done.
  - unfold stored_index. cbn [files set_files]. by rewrite lookup_insert_eq.
  - apply merged_once.
  - apply merged_twice.
  - unfold w2, w1. cbn [trace elapse log]. by rewrite <- !app_assoc.
Qed.

(** X13.  [updateCoverageIndex] never rejects, whatever the transport
    does and even without a configuration: it resolves, leaves the database
    and the publisher as they were, and does nothing but requests. *)
Theorem updateCoverageIndex_never_rejects (session : Session) (captures : list Capture)
    (cfg : option Config) (w : World) :
  let out := run (updateCoverageIndex session captures cfg w) in
  out.1 = Resolved tt ∧ db out.2 = db w ∧ pub out.2 = pub w ∧
  ∃ evs, trace out.2 = trace w ++ evs ∧ Forall is_network evs.
Proof.
  intros out. pose proof (updateCoverageIndex_network session captures cfg w) as Hframe.
  fold out in Hframe. destruct Hframe as (Hdb & Hpub & Htrace). split_and!; try done.
  unfold out, updateCoverageIndex. rewrite run_try_catch.
  match goal with |- context [run (bind ?m ?f w)] =>
    by destruct (run (bind m f w)) as [[[]|e] w1] end.
Qed.

End CoverageFacts.

(** ** The drain loop *)

Section DrainFacts.
Import Publisher.

(** The job as far as an iteration of the drain leaves it alone:
    everything but the queue and the two counters. *)
Definition same_job (p p' : PublisherState) : Prop :=
  isPublishing p' = isPublishing p ∧ isPaused p' = isPaused p ∧
  isProcessing p' = isProcessing p ∧ currentSession p' = currentSession p ∧
  config p' = config p ∧ total p' = total p ∧ p_startTime p' = p_startTime p ∧
  onProgress p' = onProgress p ∧ onComplete p' = onComplete p ∧ onError p' = onError p.

#[local] Instance same_job_preorder : PreOrder same_job.
Proof.
  split.
  - by intros p.
  - intros p1 p2 p3 H12 H23. unfold same_job in *.
    destruct H12 as (?&?&?&?&?&?&?&?&?&?), H23 as (?&?&?&?&?&?&?&?&?&?).
    split_and!; congruence.
Qed.

(** The world in which an iteration starts its upload: back online, after
    the wait (and the progress report) that being offline costs. *)
Definition ready (w : World) : World :=
  if online w then w
  else
    let w0 := if onProgress (pub w)
              then log (EProgress true (Some "Waiting for network...")) w else w in
    go_online (elapse (reconnect_after w0) (log EWaitOnline w0)).

Lemma ready_frame w : db (ready w) = db w ∧ pub (ready w) = pub w ∧ remote (ready w) = remote w.
Proof. unfold ready. destruct (online w); [done|]. by destruct (onProgress (pub w)). Qed.

Lemma announced_frame capture w :
  isPublishing (pub w) = true →
  db (announced capture w) = db w ∧ pub (announced capture w) = pub w ∧
  remote (announced capture w) = remote w.
Proof.
  intros Hp. unfold announced. rewrite run_reportProgress_running by done.
  by destruct (onProgress (pub w)).
Qed.

Lemma uploadWithRetry_frame capture w :
  isPublishing (pub w) = true →
  db (run (uploadWithRetry capture w)).2 = db w ∧
  pub (run (uploadWithRetry capture w)).2 = pub w.
Proof.
  intros Hp. destruct (retry_loop_spec capture 5 5 1 None w Hp)
    as (evs & errs & (Hdb & Hpub & _) & _).
  by unfold uploadWithRetry.
Qed.

(** The publish-state record saved after the item of a job counted as
    completed. *)
Definition progress_record (session : Session) (p : PublisherState) : PublishState :=
  {| ps_sessionId := s_id session;
     publishStarted := default 0 (p_startTime p);
     totalToUpload := total p;
     ps_completed := completed p + 1;
     ps_failed := failed p;
     inProgress := true;
     completedAt := None |}.

Lemma item_failed_run capture e w :
  run (item_failed capture e w) =
  (Resolved Continue,
   let w' := with_pub (λ p0, set_queue (tail (queue p0)) (set_failed (failed p0 + 1) p0)) w in
   if onError (pub w) then log (EError e capture) w' else w').
Proof.
  unfold item_failed. rewrite run_bind. cbn [modify run]. rewrite run_bind. cbn [gets run].
  rewrite run_bind. cbn [pub with_pub onError set_queue set_failed].
  by destruct (onError (pub w)).
Qed.

Lemma process_item_spec w capture rest session :
  isPublishing (pub w) = true →
  queue (pub w) = capture :: rest →
  currentSession (pub w) = Some session →
  let up := run (uploadWithRetry capture (announced capture (ready w))) in
  ∃ w', run (process_item w) = (Resolved Continue, w') ∧
    same_job (pub w) (pub w') ∧ queue (pub w') = rest ∧
    let failed_with e :=
      completed (pub w') = completed (pub w) ∧ failed (pub w') = failed (pub w) + 1 ∧
      db w' = db w ∧
      (onError (pub w) = true → last (trace w') = Some (EError e (Some capture))) in
    match up.1 with
    | Resolved r =>
        match Storage.markCapturePublished (c_id capture) (url r) (db w) with
        | (Resolved _, d') =>
            completed (pub w') = completed (pub w) + 1 ∧
            failed (pub w') = failed (pub w) ∧
            db w' = Storage.savePublishState (progress_record session (pub w)) d' ∧
            last (trace w') = Some (EDelay 500)
        | (Rejected e, _) => failed_with e
        end
    | Rejected e => failed_with e
    end.
Proof.
  intros Hpub Hq Hcur up.
  destruct (ready_frame w) as (Hdb0 & Hpub0 & _).
  assert (isPublishing (pub (ready w)) = true) as Hpubr by (by rewrite Hpub0).
  destruct (announced_frame capture (ready w) Hpubr) as (Hdb1 & Hpub1 & _).
  assert (isPublishing (pub (announced capture (ready w))) = true) as Hpuba
    by (by rewrite Hpub1, Hpub0).
  destruct (uploadWithRetry_frame capture _ Hpuba) as (Hdb2 & Hpub2).
  fold up in Hdb2, Hpub2.
  assert (db up.2 = db w) as Hdb by congruence.
  assert (pub up.2 = pub w) as Hp by congruence.
  (* up to the [try] block *)
  assert (run (process_item w)
          = run (try_catch (upload_item capture (s_id <$> currentSession (pub w)))
                   (item_failed (Some capture)) (ready w))) as ->.
  { unfold process_item, ready. rewrite run_bind. cbn [gets run].
    destruct (online w) eqn:Hon.
    - rewrite run_bind. cbn [ret run negb]. rewrite run_bind. cbn [gets run]. by rewrite Hq.
    - rewrite run_bind, run_bind, run_reportProgress_running by done.
      set (w0 := if onProgress (pub w) then _ else w).
      assert (online w0 = false ∧ pub w0 = pub w) as [Hon0 Hpw0]
        by (unfold w0; by destruct (onProgress (pub w))).
      rewrite run_bind. unfold waitForOnline at 1. rewrite Hon0. cbn [run gets].
      cbn [pub go_online elapse log]. rewrite Hpw0, Hpub. cbn [negb].
      rewrite run_bind. cbn [gets run pub go_online elapse log]. by rewrite Hpw0, Hq. }
  rewrite run_try_catch. unfold upload_item.
  rewrite run_bind, run_reportProgress_running by done.
  fold (announced capture (ready w)) in *.
  assert ((if onProgress (pub (ready w))
           then log (EProgress true
                  (Some ("Uploading image " +:+ decimal (sequenceNum capture) +:+ "...")))
                  (ready w)
           else ready w) = announced capture (ready w)) as ->.
  { unfold announced. by rewrite run_reportProgress_running. }
  rewrite run_bind. fold up. destruct up as [[r|e] w2] eqn:Hup; cbn [fst snd] in *.
  - (* the upload resolved *)
    rewrite run_bind. cbn [gets run]. rewrite Hp, decide_False by (by intros []).
    rewrite run_bind. unfold markCapturePublished at 1. rewrite Hdb.
    destruct (Storage.markCapturePublished (c_id capture) (url r) (db w))
      as [[c'|e] d'] eqn:Hmark; cbn [run].
    + rewrite run_bind. cbn [modify run]. rewrite run_bind. cbn [gets run].
      cbn [pub with_pub with_db currentSession set_queue set_completed].
      rewrite Hp, Hcur. rewrite run_bind. unfold savePublishState at 1. cbn [modify run].
      rewrite run_bind, run_reportProgress_running
        by (cbn [pub with_pub with_db isPublishing set_queue set_completed]; by rewrite Hp).
      rewrite run_bind. cbn [delay run ret].
      eexists. split; [reflexivity|].
      cbn [pub with_pub with_db onProgress set_queue set_completed].
      rewrite Hp.
      destruct (onProgress (pub w)) eqn:Hprog;
        cbn [pub db trace elapse log with_pub with_db queue completed failed
             set_queue set_completed];
        rewrite ?Hp, ?Hq; cbn [tail]; split_and!; try done; by rewrite last_snoc.
    + rewrite item_failed_run. cbn zeta. eexists. split; [reflexivity|].
      rewrite Hp. destruct (onError (pub w)) eqn:Herr;
        cbn [pub db trace log with_pub queue completed failed set_queue set_failed];
        rewrite ?Hp, ?Hq, ?Hdb; split_and!; try done. by rewrite last_snoc.
  - (* every attempt failed *)
    rewrite item_failed_run. cbn zeta. eexists. split; [reflexivity|].
    rewrite Hp. destruct (onError (pub w)) eqn:Herr;
      cbn [pub db trace log with_pub queue completed failed set_queue set_failed];
      rewrite ?Hp, ?Hq, ?Hdb; split_and!; try done. by rewrite last_snoc.
Qed.


Lemma drain_spec fuel :
  ∀ w session,
  (length (queue (pub w)) < fuel)%nat →
  isPublishing (pub w) = true → isPaused (pub w) = false →
  currentSession (pub w) = Some session →
  ∃ w', run (drain fuel w) = (Resolved tt, w') ∧
    same_job (pub w) (pub w') ∧ queue (pub w') = [] ∧
    completed (pub w') + failed (pub w')
      = completed (pub w) + failed (pub w) + Z.of_nat (length (queue (pub w))) ∧
    completed (pub w) ≤ completed (pub w') ∧ failed (pub w) ≤ failed (pub w').
Proof.
  induction fuel as [|fuel IH]; intros w session Hfuel Hpub Hpaused Hcur; [lia|].
  cbn [drain]. rewrite run_bind. cbn [gets run]. rewrite Hpub, Hpaused.
  destruct (queue (pub w)) as [|capture rest] eqn:Hq.
  - cbn. exists w. split_and!; try done; lia.
  - rewrite bool_decide_eq_true_2 by (cbn; lia). cbn [andb negb].
    destruct (process_item_spec w capture rest session Hpub Hq Hcur)
      as (w1 & Hrun & Hjob & Hq1 & Hcount).
    rewrite run_bind, Hrun.
    pose proof Hjob as (Hpub1 & Hpaused1 & _ & Hcur1 & _).
    destruct (IH w1 session) as (w' & Hrun' & Hjob' & Hq' & Hsum & Hc & Hf).
    { rewrite Hq1. cbn in Hfuel. lia. }
    { by rewrite Hpub1. }
    { by rewrite Hpaused1. }
    { by rewrite Hcur1. }
    exists w'. rewrite Hq1 in Hsum. split; [done|].
    split; [by etrans|]. split; [done|].
    assert ((completed (pub w1) = completed (pub w) + 1 ∧ failed (pub w1) = failed (pub w))
            ∨ (completed (pub w1) = completed (pub w)
               ∧ failed (pub w1) = failed (pub w) + 1)) as Hone.
    { cbn zeta in Hcount.
      destruct (run (uploadWithRetry _ _)).1 as [r|e]; [|right; tauto].
      destruct (Storage.markCapturePublished _ _ _) as [[c'|e] d']; [left|right]; tauto. }
    cbn [length]. lia.
Qed.

(** *** What a computation leaves behind when it fails *)

Definition fails_within {A} (R : relation World) (m : M A) : Prop :=
  ∀ w e w1, run (m w) = (Rejected e, w1) → R w w1.

Lemma keeps_fails_within {A} (R : relation World) (m : M A) : keeps R m → fails_within R m.
Proof. intros Hk w e w1 Hrun. specialize (Hk w). by rewrite Hrun in Hk. Qed.

Lemma fails_within_bind {A B} (R : relation World) `{!PreOrder R} (m : M A) (f : A → M B) :
  keeps R m → (∀ a, fails_within R (f a)) → fails_within R (bind m f).
Proof.
  intros Hm Hf w e w2. rewrite run_bind. specialize (Hm w).
  destruct (run (m w)) as [[a|e1] w1]; cbn [snd] in Hm.
  - intros Hrun. etrans; [exact Hm|]. by eapply Hf.
  - by intros [= _ <-].
Qed.

Lemma keeps_mono {A} (R1 R2 : relation World) (m : M A) :
  (∀ w w1, R1 w w1 → R2 w w1) → keeps R1 m → keeps R2 m.
Proof. intros H12 Hk w. apply H12, Hk. Qed.

(** Requests and progress reports. *)
Definition is_report (ev : Event) : Prop :=
  match ev with EFetch _ | EWaitOnline | EProgress _ _ => True | _ => False end.

Lemma network_report w w1 : frame is_network w w1 → frame is_report w w1.
Proof. apply frame_mono. by intros []. Qed.

Lemma reportProgress_report st : keeps (frame is_report) (reportProgress st).
Proof.
  intros w. unfold reportProgress. rewrite run_bind. cbn.
  destruct (onProgress (pub w)); [|done].
  destruct (isPublishing (pub w)); [|destruct st; [done|]];
    cbn; repeat split; eexists [_]; by split; [|repeat constructor].
Qed.

(** [finish_steps] can only fail before it writes to the local stores or
    to the publisher state, and before any callback but [onProgress]. *)
Lemma finish_steps_fails session cfg :
  fails_within (frame is_report) (finish_steps session cfg).
Proof.
  unfold finish_steps.
  apply fails_within_bind; [apply _|apply reportProgress_report|intros _].
  apply fails_within_bind; [apply _|apply keeps_gets; apply _|intros captures].
  apply fails_within_bind; [apply _| |intros existingCsv].
  { eapply keeps_mono; [apply network_report|apply fileExists_network]. }
  apply fails_within_bind; [apply _| |intros _].
  { eapply keeps_mono; [apply network_report|apply uploadFile_network]. }
  apply fails_within_bind; [apply _|apply keeps_gets; apply _|intros p].
  apply fails_within_bind; [apply _| |intros existingMetadata].
  { eapply keeps_mono; [apply network_report|apply fileExists_network]. }
  apply fails_within_bind; [apply _| |intros _].
  { eapply keeps_mono; [apply network_report|apply uploadFile_network]. }
  apply fails_within_bind; [apply _| |intros _].
  { eapply keeps_mono; [apply network_report|apply updateCoverageIndex_network]. }
  intros w e w1 Hrun. exfalso.
  repeat (rewrite run_bind in Hrun; cbn [gets modify run updateSession savePublishState] in Hrun).
  match type of Hrun with context [if ?b then _ else _] => by destruct b end.
Qed.


(** [finishPublish] when the finishing steps fail. *)
Lemma finishPublish_failed w session e w1 :
  currentSession (pub w) = Some session →
  run (finish_steps session (config (pub w)) w) = (Rejected e, w1) →
  db w1 = db w ∧ pub w1 = pub w ∧
  run (finishPublish w) =
  (Resolved tt,
   let w2 := with_pub (set_isPublishing false) w1 in
   if onError (pub w) then log (EError e None) w2 else w2).
Proof.
  intros Hcur Hrun.
  destruct (finish_steps_fails _ _ _ _ _ Hrun) as (Hdb & Hpub & _).
  split_and!; [done..|].
  unfold finishPublish. rewrite run_bind. cbn [gets run]. rewrite Hcur.
  rewrite run_try_catch, Hrun.
  rewrite run_bind. cbn [modify run]. rewrite run_bind. cbn [gets run].
  cbn [pub with_pub onError set_isPublishing]. rewrite Hpub.
  by destruct (onError (pub w)).
Qed.

(** [finishPublish] settles either way, with the job flag cleared and the
    queue and the counters as they were. *)
Lemma finishPublish_settles w session :
  currentSession (pub w) = Some session →
  ∃ w', run (finishPublish w) = (Resolved tt, w') ∧
    isPublishing (pub w') = false ∧ queue (pub w') = queue (pub w) ∧
    completed (pub w') = completed (pub w) ∧ failed (pub w') = failed (pub w) ∧
    total (pub w') = total (pub w) ∧ isProcessing (pub w') = isProcessing (pub w) ∧
    isPaused (pub w') = isPaused (pub w).
Proof.
  intros Hcur.
  destruct (run (finish_steps session (config (pub w)) w)) as [[[]|e] w1] eqn:Hrun.
  - exists w1. split.
    { unfold finishPublish. rewrite run_bind. cbn [gets run]. rewrite Hcur.
      by rewrite run_try_catch, Hrun. }
    apply finish_steps_resolved in Hrun as (w6 & _ & Hpub & ->).
    destruct (onComplete (pub w)); cbn; by rewrite Hpub.
  - destruct (finishPublish_failed w session e w1 Hcur Hrun) as (_ & Hpub & ->).
    eexists. split; [reflexivity|]. cbn zeta.
    destruct (onError (pub w)); cbn; by rewrite Hpub.
Qed.

Lemma processQueue_spec (w : World) :
  isPublishing (pub w) = true →
  isPaused (pub w) = false →
  isProcessing (pub w) = false →
  is_Some (currentSession (pub w)) →
  let out := run (processQueue w) in
  out.1 = Resolved tt ∧
  queue (pub out.2) = [] ∧
  completed (pub out.2) + failed (pub out.2)
    = completed (pub w) + failed (pub w) + Z.of_nat (length (queue (pub w))) ∧
  completed (pub w) ≤ completed (pub out.2) ∧
  failed (pub w) ≤ failed (pub out.2) ∧
  total (pub out.2) = total (pub w) ∧
  isProcessing (pub out.2) = false ∧
  isPublishing (pub out.2) = false ∧
  isPaused (pub out.2) = false.
Proof.
  intros Hpub Hpaused Hproc [session Hcur] out. unfold out, processQueue.
  rewrite run_bind. cbn [gets run]. rewrite Hproc.
  rewrite run_bind. cbn [modify run]. unfold try_finally. rewrite run_finally_step.
  set (w0 := with_pub (set_isProcessing true) w).
  rewrite run_bind. cbn [gets run].
  destruct (drain_spec (S (length (queue (pub w0)))) w0 session)
    as (w1 & Hrun & Hjob & Hq & Hsum & Hc & Hf); [lia|done..|].
  rewrite run_bind, Hrun. rewrite run_bind. cbn [gets run]. rewrite Hq.
  pose proof Hjob as (Hpub1 & Hpaused1 & _ & Hcur1 & _ & Htotal1 & _).
  rewrite Hpub1. cbn [pub w0 with_pub isPublishing set_isProcessing]. rewrite Hpub.
  rewrite bool_decide_eq_true_2 by done. cbn [andb].
  destruct (finishPublish_settles w1 session)
    as (w2 & -> & Hflag & Hq2 & Hc2 & Hf2 & Ht2 & _ & Hp2).
  { by rewrite Hcur1. }
  cbn [fst snd pub with_pub queue completed failed total isProcessing isPublishing
       isPaused set_isProcessing].
  rewrite Hq2, Hc2, Hf2, Ht2, Hq, Htotal1, Hp2, Hpaused1. split_and!; try done.
Qed.

(** X14.  The drain of a running job that is not paused and holds no
    lock ends with an empty queue, whatever the transport does: [completed]
    and [failed] together have grown by the number of items that were queued,
    neither has gone down, [total] is as it was, the lock is released and the
    job is over. *)
Theorem processQueue_accounts_for_every_item (w : World) :
  isPublishing (pub w) = true →
  isPaused (pub w) = false →
  isProcessing (pub w) = false →
  is_Some (currentSession (pub w)) →
  let out := run (processQueue w) in
  out.1 = Resolved tt ∧
  queue (pub out.2) = [] ∧
  completed (pub out.2) + failed (pub out.2)
    = completed (pub w) + failed (pub w) + Z.of_nat (length (queue (pub w))) ∧
  completed (pub w) ≤ completed (pub out.2) ∧
  failed (pub w) ≤ failed (pub out.2) ∧
  total (pub out.2) = total (pub w) ∧
  isProcessing (pub out.2) = false ∧
  isPublishing (pub out.2) = false.
Proof.
  intros Hpub Hpaused Hproc Hcur.
  destruct (processQueue_spec w Hpub Hpaused Hproc Hcur) as (?&?&?&?&?&?&?&?&_).
  by split_and!.
Qed.

(** X15.  One iteration of the drain whose upload resolved.  The item
    leaves the queue.  When the capture is still stored it is marked
    published with the url of the upload, [completed] grows by one, the
    publish state is saved and the 500 ms pause follows.  When the capture
    has been deleted in the meantime the item is counted as failed with
    "Capture not found", the database stays as it is and the error goes to
    [onError]. *)
Theorem process_item_marks_published (capture : Capture) (rest : list Capture)
    (session : Session) (r : UploadResult) (w w1 : World) :
  isPublishing (pub w) = true →
  online w = true →
  queue (pub w) = capture :: rest →
  currentSession (pub w) = Some session →
  run (uploadWithRetry capture (announced capture w)) = (Resolved r, w1) →
  let item := run (process_item w) in
  item.1 = Resolved Continue ∧ queue (pub item.2) = rest ∧
  match Storage.markCapturePublished (c_id capture) (url r) (db w) with
  | (Resolved _, d') =>
      completed (pub item.2) = completed (pub w) + 1 ∧
      failed (pub item.2) = failed (pub w) ∧
      db item.2 = Storage.savePublishState (progress_record session (pub w)) d' ∧
      last (trace item.2) = Some (EDelay 500)
  | (Rejected e, _) =>
      e = Error "Capture not found" ∧
      completed (pub item.2) = completed (pub w) ∧
      failed (pub item.2) = failed (pub w) + 1 ∧
      db item.2 = db w ∧
      (onError (pub w) = true → last (trace item.2) = Some (EError e (Some capture)))
  end.
Proof.
  intros Hpub Hon Hq Hcur Hup item.
  destruct (process_item_spec w capture rest session Hpub Hq Hcur)
    as (w' & Hrun & _ & Hq' & Hcase).
  unfold item. rewrite Hrun. cbn [fst snd]. split; [done|]. split; [done|].
  cbn zeta in Hcase. unfold ready in Hcase. rewrite Hon, Hup in Hcase. cbn [fst] in Hcase.
  destruct (Storage.markCapturePublished (c_id capture) (url r) (db w))
    as [[c'|e] d'] eqn:Hmark; [done|].
  split; [|tauto]. unfold Storage.markCapturePublished in Hmark.
  destruct (list_find _ _) as [[i c]|]; by simplify_eq.
Qed.

End DrainFacts.

(** ** The verdict of validation *)

Section VerdictFacts.
Import Publisher.
Context `{!Locale}.

(** The account passes every check of [validateGitHubAccess]. *)
Definition access_ok (r : Remote) : bool :=
  token_valid r && repo_visible r && can_push r && bool_decide (100 ≤ rate_remaining r).

(** X16.  [validateGitHubAccess] over a transport without faults
    resolves, and its verdict is [valid] exactly when the token is valid, the
    repository is visible, the account may push and at least 100 requests are
    left.  The remote is unchanged.  A valid verdict has no errors, carries
    the login and the remaining quota, and took the three read requests; an
    invalid one carries exactly one error, that of the first check that
    failed. *)
Theorem validateGitHubAccess_verdict (cfg : Config) (w : World) :
  faults (remote w) = [] →
  let out := run (validateGitHubAccess cfg w) in
  ∃ v, out.1 = Resolved v ∧
    valid v = access_ok (remote w) ∧
    remote out.2 = remote w ∧
    (valid v = true →
       errors v = [] ∧ v_user v = Some (user_login (remote w)) ∧
       v_remaining v = Some (rate_remaining (remote w)) ∧
       trace out.2 = trace w ++ [EFetch GetUser; EFetch GetRepo; EFetch GetRateLimit]) ∧
    (valid v = false → length (errors v) = 1%nat).
Proof.
  intros Hf out. unfold out, validateGitHubAccess, access_ok.
  assert (∀ ms ev w0, remote (elapse ms (log ev w0)) = remote w0) as Hrem by done.
  rewrite run_try_catch, run_bind, run_fetch_read by done.
  cbn [serve].
  destruct (token_valid (remote w)) eqn:Htok; cbn [fst snd r_status r_ok r_body].
  - rewrite decide_False by done.
    assert (∀ b, r_ok {| r_status := 200; r_body := b |} = true) as Hok by done.
    rewrite Hok. cbn [negb].
    rewrite run_bind, run_fetch_read by done. cbn [serve]. rewrite Hrem, Htok.
    destruct (repo_visible (remote w)) eqn:Hvis; cbn [andb fst snd r_status r_body].
    + rewrite decide_False by done. rewrite Hok. cbn [negb].
      destruct (can_push (remote w)) eqn:Hpush; cbn [andb].
      * rewrite run_bind, run_fetch_read by done. cbn [serve fst snd r_body].
        rewrite ?Hrem.
        destruct (decide (rate_remaining (remote w) < 100)) as [Hlow|Hhigh].
        -- eexists. cbn [ret run fst snd]. split; [reflexivity|].
           cbn [valid errors v_user v_remaining length].
           rewrite (bool_decide_eq_false_2 (100 ≤ _)) by lia.
           rewrite bool_decide_eq_false_2 by done. split_and!; done.
        -- eexists. cbn [ret run fst snd]. split; [reflexivity|].
           cbn [valid errors v_user v_remaining length].
           rewrite (bool_decide_eq_true_2 (100 ≤ _)) by lia.
           rewrite bool_decide_eq_true_2 by done. split_and!; try done.
           intros _. split_and!; try done. cbn. by rewrite <- !app_assoc.
      * eexists. cbn [ret run fst snd]. split; [reflexivity|]. by split_and!.
    + rewrite decide_True by done. eexists. cbn. split; [reflexivity|]. by split_and!.
  - rewrite decide_True by done. eexists. cbn. split; [reflexivity|]. by split_and!.
Qed.

End VerdictFacts.

(** ** A failure while finishing *)

Section FinishFailure.
Import Publisher.

(** X17.  When one of the finishing steps fails, [finishPublish] still
    resolves.  The local database is as it was, so a session stored as
    [publishing] stays so; the job flag is cleared, the current session and the
    counters stay, and after the requests and progress reports of the steps
    the error is passed to [onError], if there is one, as the last event. *)
Theorem finishPublish_failure (session : Session) (e : Err) (w w1 : World) :
  currentSession (pub w) = Some session →
  run (finish_steps session (config (pub w)) w) = (Rejected e, w1) →
  let out := run (finishPublish w) in
  out.1 = Resolved tt ∧
  db out.2 = db w ∧
  isPublishing (pub out.2) = false ∧
  currentSession (pub out.2) = Some session ∧
  completed (pub out.2) = completed (pub w) ∧
  failed (pub out.2) = failed (pub w) ∧
  (∃ evs, trace out.2 = trace w ++ evs ++ (if onError (pub w) then [EError e None] else [])
          ∧ Forall is_report evs).
Proof.
  intros Hcur Hrun out.
  destruct (finishPublish_failed w session e w1 Hcur Hrun) as (Hdb & Hpub & Hfin).
  destruct (finish_steps_fails _ _ _ _ _ Hrun) as (_ & _ & evs & Htrace & Hevs).
  unfold out. rewrite Hfin. cbn zeta.
  destruct (onError (pub w)); cbn; rewrite ?Hpub, ?Hdb, ?Htrace; split_and!; try done;
    exists evs; by rewrite <- ?app_assoc, ?app_nil_r.
Qed.

End FinishFailure.

(** ** An upload stays on its own path *)

Section OwnPath.
Import Publisher.

(** The requests that [uploadImage] may send for the image at [path]: the
    probe, and a write of a payload that is not empty. *)
Definition own_request (path : string) (ev : Event) : Prop :=
  match ev with
  | EFetch (GetContents p) => p = path
  | EFetch (PutContents p (ImageBase64 payload) _) => p = path ∧ payload ≠ []
  | _ => False
  end.

(** The remote files at the paths other than [path] stay. *)
Definition other_files_kept (path : string) (w w1 : World) : Prop :=
  ∀ p, p ≠ path → files (remote w1) !! p = files (remote w) !! p.

#[local] Instance other_files_kept_preorder path : PreOrder (other_files_kept path).
Proof.
  split; [by intros w p|]. intros w1 w2 w3 H12 H23 p Hp. by rewrite H23, H12.
Qed.

Definition touches_only (path : string) : relation World :=
  both (frame (own_request path)) (other_files_kept path).

Lemma serve_other path q r p :
  (q = GetContents path ∨ ∃ body s, q = PutContents path body s) → p ≠ path →
  files (serve q r).2 !! p = files r !! p.
Proof.
  intros [->|(body & s & ->)] Hp; cbn.
  - by destruct (files r !! path).
  - destruct (files r !! path) as [f|]; [destruct s as [s|]; [case_decide|]|];
      cbn; by rewrite ?lookup_insert_ne.
Qed.

Lemma fetch_touches_only path q :
  own_request path (EFetch q) → keeps (touches_only path) (fetch q).
Proof.
  intros Hown. split; [by apply fetch_frame|].
  assert (q = GetContents path ∨ ∃ body s, q = PutContents path body s) as Hq.
  { destruct q as [| | |p|p [] s|]; cbn in Hown; try done.
    - left. by subst.
    - right. destruct Hown as [-> _]. by eexists _, _. }
  intros p Hp. rewrite run_fetch.
  destruct (faults (remote w)) as [|[|msg|st msg] fs]; cbn; try done;
    by rewrite (serve_other path).
Qed.

Lemma fileExists_touches_only cfg path :
  keeps (touches_only path) (fileExists cfg path).
Proof.
  unfold fileExists. destruct cfg; [|apply keeps_throw; apply _].
  apply keeps_try_catch; [apply _| |intros e; apply keeps_ret; apply _].
  apply keeps_bind; [apply _|by apply fetch_touches_only|intros r].
  case_decide; [|apply keeps_ret; apply _].
  destruct (r_body r); apply keeps_ret; apply _.
Qed.

Lemma written_of_touches_only path r : keeps (touches_only path) (written_of r).
Proof. unfold written_of. destruct (r_body r); by intros w. Qed.

Lemma uploadFile_touches_only cfg path payload s :
  payload ≠ [] → keeps (touches_only path) (uploadFile cfg path (ImageBase64 payload) s).
Proof.
  intros Hpay. unfold uploadFile. destruct cfg; [|apply keeps_throw; apply _].
  apply keeps_bind; [apply _|by apply fetch_touches_only|intros r].
  destruct (negb (r_ok r)); [|apply written_of_touches_only].
  destruct (_ && _); [|apply keeps_throw; apply _].
  apply keeps_bind; [apply _|apply fileExists_touches_only|intros existing].
  destruct (p_exists existing), (p_sha existing); try (apply keeps_throw; apply _).
  apply keeps_bind; [apply _|by apply fetch_touches_only|intros r'].
  destruct (r_ok r'); [apply written_of_touches_only|apply keeps_throw; apply _].
Qed.

Lemma uploadImage_touches_only cfg c sid :
  keeps (touches_only (image_path sid c)) (uploadImage cfg c sid).
Proof.
  unfold uploadImage.
  destruct (_ && _); [apply keeps_throw; apply _|].
  apply keeps_bind; [apply _|apply fileExists_touches_only|intros existing].
  destruct (p_exists existing); [apply keeps_ret; apply _|].
  apply keeps_bind; [apply _| |intros base64].
  - destruct (hasImageData c); [apply keeps_ret; apply _|].
    destruct (hasImageBlob c); [|apply keeps_ret; apply _].
    destruct (imageBlob c) as [b|]; [|apply keeps_ret; apply _].
    apply keeps_try_catch; [apply _| |intros e; apply keeps_throw; apply _].
    unfold blobToBase64. case_decide; [apply keeps_throw; apply _|].
    destruct (blob_read b); [apply keeps_ret|apply keeps_throw]; apply _.
  - case_decide; [apply keeps_throw; apply _|].
    apply keeps_bind; [apply _|by apply uploadFile_touches_only|intros r].
    apply keeps_ret; apply _.
Qed.

(** X18.  [uploadImage] touches nothing but the path of its capture:
    the database and the publisher are unchanged, every request is the probe
    of that path or a write to it of a payload that is not empty, and every
    other remote file stays, so the images of the captures with other
    sequence numbers do. *)
Theorem uploadImage_own_path (cfg : option Config) (c : CaptureData) (sid : string)
    (w : World) :
  let out := run (uploadImage cfg c sid w) in
  db out.2 = db w ∧ pub out.2 = pub w ∧
  (∃ evs, trace out.2 = trace w ++ evs ∧ Forall (own_request (image_path sid c)) evs) ∧
  (∀ p, p ≠ image_path sid c → files (remote out.2) !! p = files (remote w) !! p) ∧
  (∀ c' : CaptureData, sequenceNum c' ≠ sequenceNum c →
     files (remote out.2) !! image_path sid c' = files (remote w) !! image_path sid c').
Proof.
  intros out. destruct (uploadImage_touches_only cfg c sid w) as [(Hdb & Hpub & Hev) Hother].
  fold out in Hdb, Hpub, Hev, Hother. split_and!; try done.
  intros c' Hne. apply Hother. intros Heq. by apply image_path_inj in Heq.
Qed.

End OwnPath.

(** ** Pause and resume *)

Section PauseResume.
Import Publisher.

Lemma pausePublish_running w :
  isPublishing (pub w) = true →
  run (pausePublish w) =
  (Resolved tt,
   let w1 := with_pub (set_isPaused true) w in
   if onProgress (pub w) then log (EProgress true (Some "Paused")) w1 else w1).
Proof.
  intros Hpub. unfold pausePublish. rewrite run_bind. cbn [modify run].
  rewrite run_reportProgress_running by done. done.
Qed.

(** A paused job with items left: the drain takes the lock, finds the
    pause at the head of its loop and gives the lock back. *)
Lemma processQueue_paused w :
  isPaused (pub w) = true → isProcessing (pub w) = false → queue (pub w) ≠ [] →
  let out := run (processQueue w) in
  out.1 = Resolved tt ∧ pub out.2 = pub w ∧ db out.2 = db w ∧
  trace out.2 = trace w ∧ remote out.2 = remote w ∧ clock out.2 = clock w.
Proof.
  intros Hpaused Hproc Hq out. unfold out, processQueue.
  rewrite run_bind. cbn [gets run]. rewrite Hproc.
  rewrite run_bind. cbn [modify run]. unfold try_finally. rewrite run_finally_step.
  rewrite run_bind. cbn [gets run]. rewrite run_bind. cbn [drain].
  rewrite run_bind. cbn [gets run pub with_pub isPaused isPublishing queue set_isProcessing].
  rewrite Hpaused, andb_false_r. cbn [ret run].
  rewrite run_bind. cbn [gets run pub with_pub queue set_isProcessing].
  destruct (queue (pub w)) as [|c q] eqn:Hqueue; [by destruct Hq|]. cbn [length].
  rewrite bool_decide_eq_false_2 by done. cbn.
  split_and!; try done. destruct (pub w); cbn in *. by subst.
Qed.

(** X19.  [pausePublish] on a running job sets the pause flag and
    nothing else.  A drain that starts while the job is paused and items are
    queued returns at once: publisher, database and trace are unchanged.
    [resumePublish] clears the flag and starts the drain, which runs to its
    end: the queue is empty, [completed] and [failed] together have grown by the number of
    items that were queued, the lock is released and the job is over. *)
Theorem pause_then_resume (w : World) :
  isPublishing (pub w) = true →
  isPaused (pub w) = false →
  isProcessing (pub w) = false →
  is_Some (currentSession (pub w)) →
  let paused := run (pausePublish w) in
  paused.1 = Resolved tt ∧
  pub paused.2 = set_isPaused true (pub w) ∧ db paused.2 = db w ∧
  (queue (pub w) ≠ [] →
     let idle := run (processQueue paused.2) in
     idle.1 = Resolved tt ∧ pub idle.2 = pub paused.2 ∧ db idle.2 = db w ∧
     trace idle.2 = trace paused.2) ∧
  let out := run (resumePublish paused.2) in
  out.1 = Resolved tt ∧
  isPaused (pub out.2) = false ∧
  queue (pub out.2) = [] ∧
  completed (pub out.2) + failed (pub out.2)
    = completed (pub w) + failed (pub w) + Z.of_nat (length (queue (pub w))) ∧
  isProcessing (pub out.2) = false ∧
  isPublishing (pub out.2) = false.
Proof.
  intros Hpub Hpaused Hproc Hcur paused.
  unfold paused. rewrite pausePublish_running by done. cbn zeta. cbn [fst snd].
  set (wp := if onProgress (pub w) then _ else _).
  assert (pub wp = set_isPaused true (pub w) ∧ db wp = db w) as [Hpubp Hdbp].
  { unfold wp. by destruct (onProgress (pub w)). }
  assert (let out := run (resumePublish wp) in
          out.1 = Resolved tt ∧ isPaused (pub out.2) = false ∧ queue (pub out.2) = [] ∧
          completed (pub out.2) + failed (pub out.2)
            = completed (pub w) + failed (pub w) + Z.of_nat (length (queue (pub w))) ∧
          isProcessing (pub out.2) = false ∧ isPublishing (pub out.2) = false) as Hresume.
  { unfold resumePublish. rewrite run_bind. cbn [gets run]. rewrite Hpubp.
    cbn [isPaused isPublishing set_isPaused]. rewrite Hpub. cbn [andb].
    rewrite run_bind. cbn [modify run]. rewrite run_bind. cbn [gets run].
    cbn [pub with_pub]. rewrite Hpubp. cbn [isProcessing set_isPaused]. rewrite Hproc.
    cbn [negb].
    set (w0 := with_pub (set_isPaused false) wp).
    assert (pub w0 = pub w) as Hpub0.
    { unfold w0. cbn. rewrite Hpubp. destruct (pub w); cbn in *. by subst. }
    destruct (processQueue_spec w0) as (H1 & H2 & H3 & _ & _ & _ & H4 & H5 & H6);
      [by rewrite Hpub0..|].
    rewrite Hpub0 in H3. done. }
  split; [done|]. split; [done|]. split; [done|]. split; [|exact Hresume].
  intros Hq.
  assert (isPaused (pub wp) = true) as Hp1 by (by rewrite Hpubp).
  assert (isProcessing (pub wp) = false) as Hp2 by (by rewrite Hpubp).
  assert (queue (pub wp) ≠ []) as Hp3 by (by rewrite Hpubp).
  destruct (processQueue_paused wp Hp1 Hp2 Hp3) as (H1 & H2 & H3 & H4 & _).
  split_and!; try done. by rewrite H3.
Qed.

End PauseResume.

(** ** Starting a job *)

Section StartFacts.
Import Publisher.
Context `{!Locale}.

(** The publish-state record that [startPublish] saves. *)
Definition started_record (target : string) (now : Time) (n : Z) : PublishState :=
  {| ps_sessionId := target; publishStarted := now; totalToUpload := n;
     ps_completed := 0; ps_failed := 0; inProgress := true; completedAt := None |}.

(** [startPublish] once validation has passed and the session has an
    unpublished capture. *)
Lemma startPublish_started target cfg cbs w v w1 session :
  isPublishing (pub w) = false →
  isProcessing (pub w) = false →
  run (validateGitHubAccess cfg w) = (Resolved v, w1) →
  valid v = true →
  sessions (db w) !! target = Some session →
  Storage.getUnpublishedCaptures target (db w) ≠ [] →
  let q := filter (λ c, hasBlob c = true) (Storage.getUnpublishedCaptures target (db w)) in
  let session' := Storage.set_status publishing session in
  run (startPublish target cfg cbs w) =
  (Resolved (Z.of_nat (length q)),
   with_db (Storage.updateSession session')
     (with_pub (set_currentSession (Some session'))
        (with_db (Storage.savePublishState
                    (started_record target (clock w1) (Z.of_nat (length q))))
           (with_pub (λ _,
              {| isPublishing := true; isPaused := false; isProcessing := false;
                 currentSession := Some session; config := Some cfg;
                 queue := q; completed := 0; failed := 0;
                 total := Z.of_nat (length q);
                 p_startTime := Some (clock w1);
                 onProgress := cb_onProgress cbs;
                 onComplete := cb_onComplete cbs;
                 onError := cb_onError cbs |}) w1)))).
Proof.
  intros Hpub Hproc Hrun Hvalid Hs Hne q session'.
  pose proof (validate_reads cfg w) as [(Hdb & _) _].
  rewrite Hrun in Hdb. cbn [snd] in Hdb.
  unfold startPublish. rewrite run_bind. cbn [gets run]. rewrite Hpub, Hproc.
  cbn [orb]. rewrite run_bind, Hrun, Hvalid. cbn [negb].
  rewrite run_bind. unfold Publisher.getSession, Storage.getSession. cbn [gets run].
  rewrite Hdb, Hs. rewrite run_bind. cbn [gets run]. rewrite Hdb.
  rewrite decide_False by (by destruct (Storage.getUnpublishedCaptures target (db w))).
  rewrite run_bind. cbn [gets run]. rewrite run_bind. cbn [modify run].
  rewrite run_bind. unfold savePublishState at 1. cbn [modify run].
  rewrite run_bind. cbn [modify run]. rewrite run_bind.
  unfold updateSession at 1. cbn [modify run ret]. done.
Qed.

(** X20.  When validation passes and the session has an unpublished
    capture, [startPublish] resolves with the number of captures queued (the
    unpublished ones with a blob that is not empty).  Before any upload the
    session is stored with the status [publishing] together with a publish
    state (in progress, nothing completed or failed, the total); the captures
    are untouched and the publisher holds the job.  A recovery scan of the
    store as it is then, as after the page was closed, returns the session,
    demoted to [paused]. *)
Theorem startPublish_persists_job (target : string) (cfg : Config) (cbs : Callbacks)
    (session : Session) (v : Validation) (w w1 : World) :
  keyed (db w) →
  isPublishing (pub w) = false →
  isProcessing (pub w) = false →
  run (validateGitHubAccess cfg w) = (Resolved v, w1) →
  valid v = true →
  sessions (db w) !! target = Some session →
  Storage.getUnpublishedCaptures target (db w) ≠ [] →
  let out := run (startPublish target cfg cbs w) in
  let q := filter (λ c, hasBlob c = true) (Storage.getUnpublishedCaptures target (db w)) in
  let session' := Storage.set_status publishing session in
  out.1 = Resolved (Z.of_nat (length q)) ∧
  sessions (db out.2) !! target = Some session' ∧
  Storage.getPublishState target (db out.2)
    = Some (started_record target (clock w1) (Z.of_nat (length q))) ∧
  captures (db out.2) = captures (db w) ∧
  (isPublishing (pub out.2) = true ∧ isPaused (pub out.2) = false ∧
   isProcessing (pub out.2) = false ∧ currentSession (pub out.2) = Some session' ∧
   config (pub out.2) = Some cfg ∧ queue (pub out.2) = q ∧
   completed (pub out.2) = 0 ∧ failed (pub out.2) = 0 ∧
   total (pub out.2) = Z.of_nat (length (queue (pub out.2)))) ∧
  let scan := Storage.checkForRecovery (db out.2) in
  Storage.recovered (db out.2) session' ∈ scan.1 ∧
  status (Storage.recovered (db out.2) session') = paused ∧
  sessions scan.2 !! target = Some (Storage.recovered (db out.2) session').
Proof.
  intros Hkeyed Hpub Hproc Hrun Hvalid Hs Hne out q session'. unfold Storage.getPublishState.
  pose proof (validate_reads cfg w) as [(Hdb & _) _].
  rewrite Hrun in Hdb. cbn [snd] in Hdb.
  pose proof (Hkeyed _ _ Hs) as Hid.
  unfold out. rewrite (startPublish_started target cfg cbs w v w1 session) by done.
  cbn [fst snd db pub with_db with_pub].
  fold q. fold session'. rewrite Hdb.
  set (d' := Storage.updateSession session' (Storage.savePublishState _ (db w))).
  assert (sessions d' !! target = Some session') as Hstored.
  { unfold d', Storage.updateSession, Storage.set_sessions. cbn [sessions s_id session'].
    unfold session'. cbn [s_id Storage.set_status]. rewrite Hid. apply lookup_insert_eq. }
  assert (keyed d') as Hkeyed'.
  { unfold d'. apply keyed_insert. by eapply keyed_same_sessions. }
  assert (session' ∈ Storage.getSessionsByStatus [recording; publishing] d') as Hin.
  { apply elem_of_getSessionsByStatus. split; [by eexists|].
    cbn. rewrite !elem_of_cons. tauto. }
  assert (let scan := Storage.checkForRecovery d' in
          Storage.recovered d' session' ∈ scan.1 ∧
          status (Storage.recovered d' session') = paused ∧
          sessions scan.2 !! target = Some (Storage.recovered d' session')) as Hscan.
  { cbn zeta. unfold Storage.checkForRecovery.
    rewrite (checkForRecovery_loop d') by done. cbn [fst snd app].
    split; [|split].
    - apply list_elem_of_fmap. by exists session'.
    - done.
    - replace target with (s_id session') by (unfold session'; by cbn).
      apply lookup_recovered_loop; [|done].
      intros x Hx Hxid. apply elem_of_getSessionsByStatus in Hx as [[k Hk] _].
      pose proof (Hkeyed' _ _ Hk). assert (k = target) as -> by (cbn in *; congruence).
      congruence. }
  split; [done|]. split; [done|]. split; [unfold d'; cbn; apply lookup_insert_eq|].
  split; [done|]. split; [done|]. exact Hscan.
Qed.

End StartFacts.

(** ** The recorder and the store *)

Section RecorderFacts.
Import Storage Recorder.

(** The camera gave an image for the frame. *)
Definition has_image (f : Frame) : bool :=
  match frame_image f with Some _ => true | None => false end.

(** The capture record that [captureFrame] builds. *)
Definition capture_of (sid : string) (n : Z) (f : Frame) (b : Blob) : CaptureData :=
  {| sessionId := sid; sequenceNum := n; timestamp := frame_time f;
     gps := frame_gps f; accel := frame_accel f;
     imageData := None; imageBlob := Some b;
     imageSizeBytes := Some (blob_size b);
     c_published := false; publishedUrl := None |}.

Lemma captureFrame_recording st f session :
  isRecording st.1 = true → app_isPaused st.1 = false →
  app_currentSession st.1 = Some session →
  captureFrame st f =
  match frame_image f with
  | None => st
  | Some b =>
      (set_session (Some session) (app_sequenceNum st.1 + 1) (app_startTime st.1) st.1,
       (saveCapture (frame_time f)
          (capture_of (s_id session) (app_sequenceNum st.1 + 1) f b) st.2).2)
  end.
Proof.
  intros Hrec Hpaused Hcur. unfold captureFrame. rewrite Hrec, Hpaused, Hcur. cbn [negb orb].
  by destruct (frame_image f).
Qed.

Lemma taken_iff (c : CaptureData) cs :
  sessionSequence_taken c cs = true ↔
  ∃ c' : Capture, c' ∈ cs ∧ sessionId c' = sessionId c ∧ sequenceNum c' = sequenceNum c.
Proof.
  unfold sessionSequence_taken. rewrite bool_decide_eq_true, Exists_exists. done.
Qed.

(** The state of a recording in which [n] frames have been numbered and
    saved under [session]'s id. *)
Definition numbered_up_to (session : Session) (n : Z) (st : AppState * DB) : Prop :=
  isRecording st.1 = true ∧ app_isPaused st.1 = false ∧
  app_currentSession st.1 = Some session ∧ app_sequenceNum st.1 = n ∧
  Z.of_nat (length (by_session (s_id session) (captures st.2))) = n ∧
  Forall (λ c : Capture, sequenceNum c ≤ n) (by_session (s_id session) (captures st.2)) ∧
  aggregates_ok (s_id session) st.2.

Lemma captureFrame_numbered session n st f :
  numbered_up_to session n st →
  numbered_up_to session (if has_image f then n + 1 else n) (captureFrame st f).
Proof.
  intros (Hrec & Hpaused & Hcur & Hseq & Hlen & Hle & Hagg).
  rewrite (captureFrame_recording st f session) by done.
  unfold has_image. destruct (frame_image f) as [b|] eqn:Himg.
  - rewrite Hseq.
    set (c := capture_of (s_id session) (n + 1) f b).
    assert (sessionSequence_taken c (captures st.2) = false) as Hfree.
    { apply not_true_is_false. intros (c' & Hin & Hsid & Hnum)%taken_iff.
      rewrite Forall_forall in Hle. specialize (Hle c').
      cbn in Hsid, Hnum. rewrite Hnum in Hle.
      assert (n + 1 ≤ n); [|lia]. apply Hle. by apply list_elem_of_filter. }
    pose proof (saveCapture_aggregates (s_id session) (frame_time f) c st.2 Hagg) as Hagg'.
    destruct (saveCapture_cases (frame_time f) c st.2)
      as [[Ht _]|[_ (d' & Hsave & Hc & _)]]; [congruence|].
    rewrite Hsave in Hagg' |- *. unfold numbered_up_to. cbn [fst snd] in *.
    split_and!; try done.
    + rewrite Hc, by_session_snoc. cbn [c_data c sessionId capture_of].
      rewrite decide_True by done. rewrite length_app. cbn. lia.
    + rewrite Hc, by_session_snoc. cbn [c_data c sessionId capture_of].
      rewrite decide_True by done. apply Forall_app. split.
      * eapply Forall_impl; [exact Hle|]. cbn. intros; lia.
      * repeat constructor. cbn. lia.
  - done.
Qed.

Lemma captureFrames_numbered session frames :
  ∀ n st, numbered_up_to session n st →
  numbered_up_to session
    (n + Z.of_nat (length (filter (λ f, has_image f = true) frames)))
    (foldl captureFrame st frames).
Proof.
  induction frames as [|f frames IH]; intros n st Hst; cbn [foldl].
  - cbn. by rewrite Z.add_0_r.
  - apply (captureFrame_numbered _ _ _ f) in Hst. apply IH in Hst.
    rewrite filter_cons. destruct (has_image f).
    + rewrite decide_True by done. cbn [length].
      replace (n + Z.of_nat (S (length (filter (λ f, has_image f = true) frames))))
        with (n + 1 + Z.of_nat (length (filter (λ f, has_image f = true) frames))) by lia.
      done.
    + by rewrite decide_False.
Qed.

(** X21.  A new recording with some frames, then [stopRecording].
    While recording, the stored session counts the frames that were saved.
    [stopRecording] writes the session object that the recorder holds in
    memory, which is the one [createSession] returned: afterwards the stored
    session is [stopped] with [captureCount] 0, [totalBytes] 0 and no
    [lastCaptureTime], while its captures are all still stored; when at
    least one frame was saved the aggregates no longer agree with the
    captures. *)
Theorem stopRecording_forgets_captures (now later : Time) (name : string)
    (app : AppState) (d : DB) (frames : list Frame) :
  isRecording app = false →
  sessions d !! ("session_" +:+ decimal now) = None →
  by_session ("session_" +:+ decimal now) (captures d) = [] →
  let sid := "session_" +:+ decimal now in
  let recorded := foldl captureFrame (startRecording now name (app, d)) frames in
  let after := stopRecording later recorded in
  let saved := Z.of_nat (length (filter (λ f, has_image f = true) frames)) in
  getSessionCaptureCount sid recorded.2 = saved ∧
  captureCount <$> sessions recorded.2 !! sid = Some saved ∧
  getSessionCaptureCount sid after.2 = saved ∧
  (∃ s, sessions after.2 !! sid = Some s ∧ status s = stopped ∧
        captureCount s = 0 ∧ totalBytes s = 0 ∧ lastCaptureTime s = None) ∧
  (0 < saved → ¬ aggregates_ok sid after.2).
Proof.
  intros Hidle Hfree Hnone sid recorded after saved.
  destruct (createSession now name (app_settings app) d) as [r d1] eqn:Hcreate.
  pose proof Hcreate as Hcreate'.
  unfold createSession, transaction in Hcreate'. cbn [s_id] in Hcreate'.
  fold sid in Hfree, Hnone, Hcreate'. rewrite Hfree in Hcreate'.
  injection Hcreate' as <- <-.
  set (session := {| s_id := sid |}) in *.
  assert (numbered_up_to session 0 (startRecording now name (app, d))) as Hstart.
  { unfold startRecording. cbn [fst snd]. rewrite Hidle, Hcreate.
    split_and!; try done.
    - cbn [snd set_sessions captures s_id session]. by rewrite Hnone.
    - cbn [snd set_sessions captures s_id session]. rewrite Hnone. constructor.
    - exists session. cbn [snd set_sessions sessions captures s_id session].
      rewrite lookup_insert_eq, Hnone. done. }
  apply (captureFrames_numbered session frames) in Hstart.
  fold recorded in Hstart. rewrite Z.add_0_l in Hstart. fold saved in Hstart.
  destruct Hstart as (Hrec & Hpaused & Hcur & Hseq & Hlen & Hle & (s & Hs & Hcount & Hbytes)).
  cbn [s_id session] in *.
  assert (captures after.2 = captures recorded.2) as Hcaps.
  { unfold after, stopRecording. cbn [set_flags app_currentSession]. by rewrite Hcur. }
  assert (sessions after.2 !! sid
          = Some (set_duration ((later - default 0 (app_startTime recorded.1)) `div` 1000)
                    (set_status stopped session))) as Hstored.
  { unfold after, stopRecording. cbn [set_flags app_currentSession app_startTime].
    rewrite Hcur. cbn [snd updateSession set_sessions sessions s_id set_duration set_status
                       session].
    apply lookup_insert_eq. }
  split_and!.
  - unfold getSessionCaptureCount. by rewrite Hlen.
  - rewrite Hs. cbn. by rewrite Hcount, Hlen.
  - unfold getSessionCaptureCount. by rewrite Hcaps, Hlen.
  - eexists. split; [exact Hstored|]. done.
  - intros Hpos (s' & Hs' & Hcount' & _). rewrite Hstored in Hs'. injection Hs' as <-.
    cbn in Hcount'. rewrite Hcaps, Hlen in Hcount'. lia.
Qed.


(** While recording, every frame that has an image advances the counter,
    whether it was saved or not, and no stored capture goes away. *)
Lemma captureFrames_advance session frames :
  ∀ st,
  isRecording st.1 = true → app_isPaused st.1 = false →
  app_currentSession st.1 = Some session →
  let st' := foldl captureFrame st frames in
  isRecording st'.1 = true ∧ app_isPaused st'.1 = false ∧
  app_currentSession st'.1 = Some session ∧
  app_sequenceNum st'.1
    = app_sequenceNum st.1 + Z.of_nat (length (filter (λ f, has_image f = true) frames)) ∧
  ∀ c, c ∈ captures st.2 → c ∈ captures st'.2.
Proof.
  induction frames as [|f frames IH]; intros st Hrec Hpaused Hcur; cbn [foldl].
  - cbn. split_and!; try done. lia.
  - assert (isRecording (captureFrame st f).1 = true ∧
            app_isPaused (captureFrame st f).1 = false ∧
            app_currentSession (captureFrame st f).1 = Some session ∧
            app_sequenceNum (captureFrame st f).1
              = app_sequenceNum st.1 + (if has_image f then 1 else 0) ∧
            ∀ c, c ∈ captures st.2 → c ∈ captures (captureFrame st f).2)
      as (Hrec1 & Hpaused1 & Hcur1 & Hseq1 & Hkeep1).
    { rewrite (captureFrame_recording st f session) by done. unfold has_image.
      destruct (frame_image f) as [b|]; [|split_and!; try done; lia].
      cbn [fst snd set_session isRecording app_isPaused app_currentSession app_sequenceNum].
      split_and!; try done. intros c Hc.
      destruct (saveCapture_cases (frame_time f)
                  (capture_of (s_id session) (app_sequenceNum st.1 + 1) f b) st.2)
        as [[_ ->]|[_ (d' & -> & Hcaps & _)]]; cbn [snd]; [done|].
      rewrite Hcaps. apply elem_of_app. by left. }
    destruct (IH (captureFrame st f) Hrec1 Hpaused1 Hcur1) as (H1 & H2 & H3 & H4 & H5).
    cbn zeta. split_and!; try done.
    + rewrite H4, Hseq1, filter_cons. destruct (has_image f).
      * rewrite decide_True by done. cbn [length]. lia.
      * rewrite decide_False by done. lia.
    + intros c Hc. by apply H5, Hkeep1.
Qed.

(** A frame whose number is taken is dropped: the database stays as it
    is and the counter moves on. *)
Lemma captureFrame_dropped st f session b (c : Capture) :
  isRecording st.1 = true → app_isPaused st.1 = false →
  app_currentSession st.1 = Some session →
  frame_image f = Some b →
  c ∈ captures st.2 → sessionId c = s_id session →
  sequenceNum c = app_sequenceNum st.1 + 1 →
  (captureFrame st f).2 = st.2 ∧
  app_sequenceNum (captureFrame st f).1 = app_sequenceNum st.1 + 1.
Proof.
  intros Hrec Hpaused Hcur Himg Hc Hsid Hnum.
  rewrite (captureFrame_recording st f session) by done. rewrite Himg. cbn [fst snd].
  split; [|done].
  destruct (saveCapture_cases (frame_time f)
              (capture_of (s_id session) (app_sequenceNum st.1 + 1) f b) st.2)
    as [[_ ->]|[Hfree _]]; [done|].
  apply not_true_iff_false in Hfree. destruct Hfree. apply taken_iff. by exists c.
Qed.

(** X22.  A recovered session is resumed with the frame counter at the
    stored [captureCount].  When a stored capture of the session has a
    higher number, the frame that reaches this number is refused by the
    unique index and the error is only logged: the database is unchanged,
    the image is lost, and the counter moves on. *)
Theorem resumed_recording_drops_frame (now : Time) (app : AppState) (d : DB)
    (r : Session) (others : list Session) (c : Capture) (frames : list Frame)
    (f : Frame) :
  (checkForRecovery d).1 = r :: others →
  c ∈ captures d → sessionId c = s_id r →
  captureCount r < sequenceNum c →
  Forall (λ f, has_image f = true) frames →
  Z.of_nat (length frames) = sequenceNum c - captureCount r - 1 →
  has_image f = true →
  let resumed := resumeRecoverySession now (checkRecovery (app, d)) in
  let before := foldl captureFrame resumed frames in
  let after := captureFrame before f in
  app_sequenceNum resumed.1 = captureCount r ∧
  status <$> app_currentSession resumed.1 = Some recording ∧
  app_sequenceNum before.1 = sequenceNum c - 1 ∧
  after.2 = before.2 ∧
  app_sequenceNum after.1 = sequenceNum c.
Proof.
  intros Hscan Hc Hsid Hgap Himgs Hlen Himg resumed before after.
  assert (captures (checkForRecovery d).2 = captures d) as Hcaps.
  { rewrite checkForRecovery_db.
    by destruct (updates_frame (recovered d)
                   (getSessionsByStatus [recording; publishing] d) d) as (? & _). }
  assert (resumed =
          (set_flags true false
             (set_session (Some (set_status recording r)) (captureCount r)
                (Some (now - duration r * 1000))
                (set_recovery (Some (set_status recording r)) (checkRecovery (app, d)).1)),
           updateSession (set_status recording r) (checkForRecovery d).2)) as Hres.
  { unfold resumed, resumeRecoverySession, checkRecovery. cbn [fst snd].
    destruct (checkForRecovery d) as [found d'] eqn:Hcheck. cbn [fst snd] in *.
    subst found. done. }
  assert (isRecording resumed.1 = true ∧ app_isPaused resumed.1 = false ∧
          app_currentSession resumed.1 = Some (set_status recording r) ∧
          app_sequenceNum resumed.1 = captureCount r ∧
          captures resumed.2 = captures d) as (Hrec & Hpaused & Hcur & Hseq & Hcaps0).
  { rewrite Hres. cbn [fst snd set_flags set_session isRecording app_isPaused
                       app_currentSession app_sequenceNum].
    split_and!; done. }
  destruct (captureFrames_advance (set_status recording r) frames resumed Hrec Hpaused Hcur)
    as (Hrec1 & Hpaused1 & Hcur1 & Hseq1 & Hkeep). fold before in Hrec1, Hpaused1, Hcur1, Hseq1, Hkeep.
  assert (filter (λ f, has_image f = true) frames = frames) as Hall.
  { clear -Himgs. induction Himgs as [|x l Hx _ IH]; [done|].
    by rewrite filter_cons, decide_True, IH. }
  rewrite Hall, Hseq in Hseq1.
  assert (has_image f = true → ∃ b, frame_image f = Some b) as Hsome.
  { unfold has_image. destruct (frame_image f); [by eexists|done]. }
  destruct (Hsome Himg) as [b Hb].
  destruct (captureFrame_dropped before f (set_status recording r) b c)
    as [Hsame Hnext]; try done.
  - apply Hkeep. by rewrite Hcaps0.
  - rewrite Hseq1. lia.
  - split_and!; [done|by rewrite Hcur|lia|done|]. unfold after. rewrite Hnext. lia.
Qed.

End RecorderFacts.

(** ** More worked examples *)

Section Scenarios.
Import Storage Publisher Recorder Examples.

(** A proposition that can be decided holds when deciding it gives [true]. *)
Lemma decided (P : Prop) `{!Decision P} : bool_decide P = true → P.
Proof. intros H. apply bool_decide_eq_true_1 in H. exact H. Defined.

Lemma rejected_pair {A} (p : Settled A * World) e : p.1 = Rejected e → p = (Rejected e, p.2).
Proof. destruct p as [r w']. simpl. intros Hr. by rewrite Hr. Defined.

Lemma consistent_empty : consistent_store empty_db.
Proof.
  split; [apply keyed_decide; vm_compute; reflexivity|].
  split; [split; constructor|]. apply NoDup_nil_2.
Defined.

(** A session is created, a capture is saved, a second one with the same
    number is refused, the first is marked published, the recovery scan runs
    and the session is deleted: the store stays consistent. *)
Lemma storage_keeps_store_consistent_witness :
  consistent_store empty_db ∧
  consistent_store
    (foldl perform empty_db
       [ CreateSession 7 "walk" default_settings;
         SaveCapture 2000 single; SaveCapture 2001 single;
         MarkCapturePublished 1 (Some "https://example.org/1.jpg");
         CheckForRecovery; DeleteSession sid ]).
Proof.
  split; [exact consistent_empty|].
  exact (storage_keeps_store_consistent _ empty_db consistent_empty).
Defined.

Lemma unique_sequence_gap_db : unique_sequence gap_db.
Proof. apply (decided (NoDup _)). vm_compute. reflexivity. Defined.

(** Captures 1, 2, 4, 5: one gap, after 2 and before 4, one frame missing. *)
Lemma findSequenceGaps_positive_witness :
  let cs := getSessionCaptures sid gap_db in
  unique_sequence gap_db ∧
  (λ c : Capture, sequenceNum c) <$> cs = [1; 2; 4; 5] ∧
  StronglySorted seq_lt cs ∧
  Forall (λ g, after g < before g ∧ 1 ≤ missing g) (findSequenceGaps cs) ∧
  Z.of_nat (length (findSequenceGaps cs))
    ≤ foldl (λ sum g, sum + missing g) 0 (findSequenceGaps cs).
Proof.
  intros cs.
  destruct (findSequenceGaps_positive sid gap_db unique_sequence_gap_db) as (H1 & H2 & H3).
  split_and!; [exact unique_sequence_gap_db|vm_compute; reflexivity|exact H1|exact H2|exact H3].
Defined.

(** The recording session of the example is found once; a second scan
    finds nothing and changes nothing. *)
Lemma checkForRecovery_twice_witness :
  keyed gap_db ∧
  length (checkForRecovery gap_db).1 = 1%nat ∧
  (checkForRecovery (checkForRecovery gap_db).2).1 = [] ∧
  (checkForRecovery (checkForRecovery gap_db).2).2 = (checkForRecovery gap_db).2.
Proof.
  assert (keyed gap_db) as Hk by (apply keyed_decide; vm_compute; reflexivity).
  destruct (checkForRecovery_twice gap_db Hk) as (H1 & H2 & _).
  split_and!; [exact Hk|vm_compute; reflexivity|exact H1|exact H2].
Defined.

Lemma keys_ok_survey_db : keys_ok survey_db.
Proof.
  split.
  - apply (decided (StronglySorted _ _)). vm_compute. reflexivity.
  - apply (decided (Forall _ _)). vm_compute. reflexivity.
Defined.

(** The second of three captures is marked: it leaves the unpublished
    captures of the session, the other two stay. *)
Lemma markCapturePublished_effect_witness :
  let d' := (Storage.markCapturePublished 2 (Some "https://example.org/2.jpg") survey_db).2 in
  keys_ok survey_db ∧
  (λ c : Capture, c_id c) <$> getUnpublishedCaptures sid survey_db = [1; 2; 3] ∧
  getUnpublishedCaptures sid d'
    = filter (λ x : Capture, c_id x ≠ 2) (getUnpublishedCaptures sid survey_db) ∧
  (λ c : Capture, c_id c) <$> getUnpublishedCaptures sid d' = [1; 3].
Proof.
  intros d'.
  pose proof (markCapturePublished_effect 2 (Some "https://example.org/2.jpg") survey_db
                keys_ok_survey_db) as H.
  assert (∃ c' d1, Storage.markCapturePublished 2 (Some "https://example.org/2.jpg") survey_db
                   = (Resolved c', d1)) as (c' & d1 & Hres)
    by (eexists _, _; vm_compute; reflexivity).
  unfold d'. rewrite Hres in H |- *.
  destruct H as (_ & _ & _ & _ & _ & H). destruct (H sid) as [_ Hun].
  split_and!; [exact keys_ok_survey_db|vm_compute; reflexivity|exact Hun|].
  cbn [snd]. rewrite Hun. vm_compute. reflexivity.
Defined.

(** Two sessions of which one has a capture: deleting both, in either
    order, is [deleteAllSessions]. *)
Lemma deleteSession_all_witness :
  let d := (createSession 8 "ride" default_settings single_db).2 in
  foldr deleteSession d ["session_8"; sid] = foldr deleteSession d [sid; "session_8"] ∧
  foldr deleteSession d [sid; "session_8"] = deleteAllSessions d.
Proof.
  intros d.
  destruct (deleteSession_all [sid; "session_8"] ["session_8"; sid] d) as [Hswap Hall].
  { apply perm_swap. }
  split; [exact Hswap|]. apply Hall.
  - intros k [s Hs]. revert k s Hs.
    apply (decided (map_Forall (λ k _, k ∈ [sid; "session_8"]) (sessions d))).
    vm_compute. reflexivity.
  - apply Forall_forall. apply (decided (Forall _ _)). vm_compute. reflexivity.
  - intros k [s Hs]. vm_compute in Hs. discriminate Hs.
Defined.

(** One second short of two hours reads as one hour and sixty minutes. *)
Lemma formatDuration_rounds_witness :
  formatDuration 7199 = "1h 60m" ∧
  ∃ hours mins,
    formatDuration 7199 = decimal hours +:+ "h " +:+ decimal mins +:+ "m" ∧
    hours = 1 ∧ mins = 60.
Proof.
  split; [vm_compute; reflexivity|].
  destruct (formatDuration_rounds 7199) as (hours & mins & Heq & Hh & _ & _ & Hsixty); [lia|].
  exists hours, mins. split; [exact Heq|]. split; [rewrite Hh; reflexivity|].
  apply Hsixty. vm_compute. discriminate.
Defined.

(** The document of the one-capture session, and the table read back from
    the document of the three-capture session. *)
Lemma generateCSV_parses_witness :
  generateCSV decimal decimal (captures single_db)
    = "sequence,timestamp,gps_lat,gps_lng,gps_accuracy,gps_stale,image_url,accel_x,accel_y,accel_z"
      +:+ String line_feed "1,1001,,,,,,,," ∧
  split_on comma <$> split_on line_feed (generateCSV decimal decimal (captures survey_db))
    = headers :: (csv_row decimal decimal <$> captures survey_db).
Proof.
  split; [vm_compute; reflexivity|].
  apply generateCSV_parses; [exact plain_decimal|exact plain_decimal|].
  apply (Forall_impl (λ c : Capture, publishedUrl c = None)).
  - apply (decided (Forall _ _)). vm_compute. reflexivity.
  - intros c Hc. rewrite Hc. repeat split.
Defined.

(** An account with quota left passes; the three checks are the only
    requests. *)
Lemma validateGitHubAccess_verdict_witness :
  let out := run (validateGitHubAccess cfg survey_world) in
  access_ok (remote survey_world) = true ∧
  ∃ v, out.1 = Resolved v ∧ valid v = true ∧ errors v = [] ∧
       v_remaining v = Some 5000 ∧
       trace out.2 = [EFetch GetUser; EFetch GetRepo; EFetch GetRateLimit].
Proof.
  intros out. split; [reflexivity|].
  destruct (validateGitHubAccess_verdict cfg survey_world eq_refl)
    as (v & Hv & Hvalid & _ & Hok & _).
  exists v. destruct (Hok Hvalid) as (Herrs & _ & Hleft & Htrace).
  split_and!; [exact Hv|exact Hvalid|exact Herrs|exact Hleft|exact Htrace].
Defined.

(** A write without a sha to a path that has content is refused, the sha
    is fetched and the write is sent again: the new content replaces the old
    one. *)
Lemma uploadFile_last_write_wins_witness :
  let w := world single_db remote_with_image in
  let path := image_path sid single in
  let out := run (uploadFile (Some cfg) path (ImageBase64 [7]%N) None w) in
  sha <$> files (remote w) !! path = Some 1%N ∧
  out.1 = Resolved {| w_url := raw_url path; w_sha := 2%N; w_path := path |} ∧
  content <$> files (remote out.2) !! path = Some (ImageBase64 [7]%N) ∧
  trace out.2 =
    [ EFetch (PutContents path (ImageBase64 [7]%N) None); EFetch (GetContents path);
      EFetch (PutContents path (ImageBase64 [7]%N) (Some 1%N)) ].
Proof.
  intros w path out.
  assert (sha <$> files (remote w) !! path = Some 1%N) as Hsha by (vm_compute; reflexivity).
  pose proof (uploadFile_last_write_wins cfg path (ImageBase64 [7]%N) None w eq_refl)
    as (_ & _ & _ & H).
  rewrite decide_True in H by (right; left; reflexivity).
  destruct H as (Hres & Hfiles & _ & Htrace). fold out in Hres, Hfiles, Htrace.
  rewrite Hsha in Htrace.
  split_and!; [exact Hsha|exact Hres| |exact Htrace].
  rewrite Hfiles, lookup_insert_eq. reflexivity.
Defined.

(** A published capture with a position. *)
Definition located (n : Z) : Capture :=
  {| c_id := n;
     c_data :=
       {| sessionId := sid; sequenceNum := n; timestamp := 1000 + n;
          gps := Some {| lat := 40 + n; lng := -74; accuracy := 5; stale := false |};
          accel := None; imageData := None; imageBlob := readable [1; 2; 3]%N;
          imageSizeBytes := Some 3; c_published := true; publishedUrl := None |} |}.

(** A remote whose coverage index lists the session with one image and
    another session with four. *)
Definition remote_with_index : Remote :=
  (serve (PutContents index_path
            (CoverageIndex [(sid, 1); ("session_3", 4)]) None) remote_ok).2.

(** The entry of the session is replaced, the one of the other session
    stays. *)
Lemma updateCoverageIndex_merges_witness :
  let w := world survey_db remote_with_index in
  let out := run (updateCoverageIndex (stored_session survey_db)
                    [located 1; located 2] (Some cfg) w) in
  stored_index (remote w) = [(sid, 1); ("session_3", 4)] ∧
  out.1 = Resolved tt ∧
  stored_index (remote out.2) = [("session_3", 4); (sid, 2)].
Proof.
  intros w out.
  assert (stored_index (remote w) = [(sid, 1); ("session_3", 4)]) as Hold
    by (vm_compute; reflexivity).
  pose proof (updateCoverageIndex_merges (stored_session survey_db)
                [located 1; located 2] cfg w eq_refl) as (Hres & _ & _ & H).
  rewrite decide_False in H by (vm_compute; lia).
  destruct H as (_ & Hnew & _). fold out in Hres, Hnew.
  split_and!; [exact Hold|exact Hres|]. rewrite Hnew, Hold. vm_compute. reflexivity.
Defined.

(** The first item of the example job is uploaded, marked and counted. *)
Lemma process_item_marks_published_witness :
  let w := started (world single_db remote_ok) in
  let capture := {| c_id := 1; c_data := single |} in
  let item := run (process_item w) in
  queue (pub w) = [capture] ∧
  item.1 = Resolved Continue ∧ queue (pub item.2) = [] ∧
  completed (pub item.2) = 1 ∧ failed (pub item.2) = 0 ∧
  (λ c : Capture, (c_id c, c_published c, publishedUrl c)) <$> captures (db item.2)
    = [ (1, true, Some (raw_url (image_path sid single))) ].
Proof.
  intros w capture item.
  assert (queue (pub w) = [capture]) as Hq by (vm_compute; reflexivity).
  assert (∃ r, (run (uploadWithRetry capture (announced capture w))).1 = Resolved r)
    as [r Hup] by (eexists; vm_compute; reflexivity).
  apply settled_pair in Hup.
  destruct (process_item_marks_published capture [] (current w) r w _
              eq_refl eq_refl Hq eq_refl Hup) as (Hres & Hrest & _).
  fold item in Hres, Hrest.
  split_and!; [exact Hq|exact Hres|exact Hrest|..]; vm_compute; reflexivity.
Defined.

(** The job of the example: three items, of which the detached one fails. *)
Lemma processQueue_accounts_for_every_item_witness :
  let w := started survey_world in
  let out := run (processQueue w) in
  length (queue (pub w)) = 3%nat ∧
  out.1 = Resolved tt ∧ queue (pub out.2) = [] ∧
  completed (pub out.2) + failed (pub out.2) = 3 ∧
  completed (pub out.2) = 2 ∧
  isPublishing (pub out.2) = false.
Proof.
  intros w out.
  destruct (processQueue_accounts_for_every_item w eq_refl eq_refl eq_refl)
    as (Hres & Hq & Hsum & _ & _ & _ & _ & Hpub).
  { eexists. vm_compute. reflexivity. }
  fold out in Hres, Hq, Hsum, Hpub.
  split_and!; [vm_compute; reflexivity|exact Hres|exact Hq|exact Hsum| |exact Hpub].
  vm_compute. reflexivity.
Defined.

(** The example job is paused before its drain has started: the drain
    does nothing while paused, and resuming works the three items off. *)
Lemma pause_then_resume_witness :
  let w := started survey_world in
  let paused := run (pausePublish w) in
  let idle := run (processQueue paused.2) in
  let out := run (resumePublish paused.2) in
  isPaused (pub paused.2) = true ∧
  pub idle.2 = pub paused.2 ∧ db idle.2 = db w ∧
  out.1 = Resolved tt ∧ queue (pub out.2) = [] ∧
  completed (pub out.2) + failed (pub out.2) = 3 ∧
  isPublishing (pub out.2) = false.
Proof.
  intros w paused idle out.
  destruct (pause_then_resume w eq_refl eq_refl eq_refl)
    as (_ & Hp & _ & Hidle & Hres & _ & Hq & Hsum & _ & Hpub).
  { eexists. vm_compute. reflexivity. }
  destruct Hidle as (_ & Hpi & Hdi & _); [vm_compute; discriminate|].
  fold paused in Hp. fold paused idle in Hpi, Hdi. fold paused out in Hres, Hq, Hsum, Hpub.
  split_and!; [rewrite Hp; reflexivity|exact Hpi|exact Hdi|exact Hres|exact Hq|exact Hsum|
               exact Hpub].
Defined.

(** Publishing the example session: the job is stored before the drain
    runs, and a recovery scan at that point finds the session. *)
Lemma startPublish_persists_job_witness :
  let out := run (startPublish sid cfg callbacks survey_world) in
  out.1 = Resolved 3 ∧
  status <$> sessions (db out.2) !! sid = Some publishing ∧
  (λ st, (totalToUpload st, inProgress st)) <$> getPublishState sid (db out.2)
    = Some (3, true) ∧
  (λ s, (s_id s, status s)) <$> (checkForRecovery (db out.2)).1 = [ (sid, paused) ].
Proof.
  intros out.
  assert (∃ v, (run (validateGitHubAccess cfg survey_world)).1 = Resolved v ∧ valid v = true)
    as (v & Hv & Hvalid) by (eexists; split; vm_compute; reflexivity).
  apply settled_pair in Hv.
  destruct (startPublish_persists_job sid cfg callbacks (stored_session survey_db) v
              survey_world (run (validateGitHubAccess cfg survey_world)).2)
    as (Hres & Hs & Hstate & _);
    [apply keyed_decide; vm_compute; reflexivity|reflexivity|reflexivity|exact Hv|
     exact Hvalid|vm_compute; reflexivity|vm_compute; discriminate|].
  fold out in Hres, Hs, Hstate.
  split_and!; [exact Hres|rewrite Hs; reflexivity|rewrite Hstate; reflexivity|].
  vm_compute. reflexivity.
Defined.

(** The write of the CSV document is refused by the server: the job ends,
    the error is reported, and the session is left with the status
    [publishing]. *)
Lemma finishPublish_failure_witness :
  let w :=
    started (world single_db
               (with_faults [NoFault; NoFault; NoFault; NoFault; HttpError 500 None]
                  remote_ok)) in
  let out := run (finishPublish w) in
  out.1 = Resolved tt ∧ isPublishing (pub out.2) = false ∧
  status <$> sessions (db out.2) !! sid = Some publishing ∧
  ∃ e, last (trace out.2) = Some (EError e None).
Proof.
  intros w out.
  assert (∃ e, (run (finish_steps (current w) (config (pub w)) w)).1 = Rejected e)
    as [e Hfail] by (eexists; vm_compute; reflexivity).
  pose proof (rejected_pair _ e Hfail) as Hrun.
  destruct (finishPublish_failure (current w) e w _ eq_refl Hrun)
    as (Hres & Hdb & Hpub & _ & _ & _ & evs & Htrace & _).
  fold out in Hres, Hdb, Hpub, Htrace.
  split_and!; [exact Hres|exact Hpub|rewrite Hdb; vm_compute; reflexivity|].
  exists e. rewrite Htrace.
  assert (onError (pub w) = true) as -> by reflexivity.
  rewrite app_assoc. apply last_snoc.
Defined.

(** The recorder before anything has been recorded, and a frame with a
    three-byte image taken at time [t]. *)
Definition app0 : AppState :=
  {| isRecording := false; app_isPaused := false; app_currentSession := None;
     app_sequenceNum := 0; app_startTime := None; recoverySession := None;
     app_settings := default_settings |}.

Definition frame_at (t : Time) : Frame :=
  {| frame_image := readable [1; 2; 3]%N; frame_gps := None; frame_accel := None;
     frame_time := t |}.

(** Two frames are recorded and the recording is stopped: the session
    record says that it has no captures. *)
Lemma stopRecording_forgets_captures_witness :
  let recorded := foldl captureFrame (startRecording 7 "walk" (app0, empty_db))
                    [frame_at 1001; frame_at 3001] in
  let after := stopRecording 9000 recorded in
  captureCount <$> sessions recorded.2 !! sid = Some 2 ∧
  getSessionCaptureCount sid after.2 = 2 ∧
  (λ s, (status s, captureCount s, totalBytes s)) <$> sessions after.2 !! sid
    = Some (stopped, 0, 0) ∧
  ¬ aggregates_ok sid after.2.
Proof.
  intros recorded after.
  destruct (stopRecording_forgets_captures 7 9000 "walk" app0 empty_db
              [frame_at 1001; frame_at 3001] eq_refl eq_refl eq_refl)
    as (_ & Hbefore & Hafter & _ & Hbroken).
  fold recorded in Hbefore. fold recorded after in Hafter, Hbroken.
  split_and!; [exact Hbefore|exact Hafter|vm_compute; reflexivity|].
  apply Hbroken. vm_compute. reflexivity.
Defined.

(** Two frames, a pause, one more frame, and the page is closed.  The
    stored session counts one capture, the resumed recording numbers its
    first frame 2, and the frame is lost. *)
Lemma resumed_recording_drops_frame_witness :
  let d := (foldl captureFrame
              (resumeRecording
                 (pauseRecording
                    (foldl captureFrame (startRecording 7 "walk" (app0, empty_db))
                       [frame_at 1001; frame_at 3001])))
              [frame_at 5001]).2 in
  let resumed := resumeRecoverySession 9000 (checkRecovery (app0, d)) in
  let after := captureFrame resumed (frame_at 9001) in
  (λ c : Capture, sequenceNum c) <$> captures d = [1; 2; 3] ∧
  captureCount <$> sessions d !! sid = Some 1 ∧
  app_sequenceNum resumed.1 = 1 ∧
  after.2 = resumed.2 ∧
  app_sequenceNum after.1 = 2.
Proof.
  intros d resumed after.
  assert (∃ r others (c : Capture), (checkForRecovery d).1 = r :: others ∧ captureCount r = 1 ∧
            captures d !! 1%nat = Some c ∧ sessionId c = s_id r ∧ sequenceNum c = 2)
    as (r & others & c & Hscan & Hcount & Hc & Hsid & Hnum)
    by (eexists _, _, _; split_and!; vm_compute; reflexivity).
  destruct (resumed_recording_drops_frame 9000 app0 d r others c [] (frame_at 9001))
    as (Hseq & _ & _ & Hsame & Hnext);
    [exact Hscan|exact (list_elem_of_lookup_2 _ _ _ Hc)|exact Hsid|lia|constructor|
     cbn [length]; lia|reflexivity|].
  fold resumed in Hseq. cbn [foldl] in Hsame, Hnext. fold resumed after in Hsame, Hnext.
  split_and!; [vm_compute; reflexivity|vm_compute; reflexivity|lia|exact Hsame|lia].
Defined.

End Scenarios.
